(** * codemogger: a shallow embedding of the indexing and search pipeline

    The development follows the layout of the TypeScript sources:

    - [src/search/rank.ts]      reciprocal rank fusion ([rrfMerge]);
    - [src/chunk/languages.ts]  the language registry ([detectLanguage]);
    - [src/chunk/treesitter.ts] the AST chunker ([chunkFile]);
    - [src/scan/walker.ts]      the directory scanner ([scanDirectory]);
    - [src/db/store.ts]         the store, over an engine with transactions;
    - [src/index.ts]            the orchestrator ([index], [search]).

    Conventions.  A JavaScript number used as a score is a binary64
    floating-point number: it is modelled by the rational [Q] it denotes, and
    the arithmetic of the code on scores rounds to the nearest binary64
    (module [Double]).  Line numbers, sizes, ids and timestamps are [Z];
    counts and array indices are [nat].  A JavaScript string is modelled by
    its UTF-8 encoding, one [ascii] per byte (a lone surrogate, which only
    [slice] can produce, by the three bytes of its code point).  A
    JavaScript [Map] is an association list that keeps insertion order, a
    [Set] is a list queried by membership.  Code that can throw returns a
    [Res]; code that mutates the database or the orchestrator instance is
    written in a state-and-exception monad. *)

From Stdlib Require Import List String Ascii Bool Arith ZArith NArith QArith.
From Stdlib Require Import Qround Qpower Qabs Qreduction Lia Lqa.
From Stdlib Require Import Sorting.Sorted Sorting.Permutation DecimalString.
Import ListNotations.

Open Scope string_scope.
Open Scope list_scope.

(* ================================================================== *)
(** * JavaScript strings and containers *)
(* ================================================================== *)

Module JS.

(** [s.startsWith(p)] *)
Fixpoint startsWith (p s : string) : bool :=
  match p, s with
  | EmptyString, _ => true
  | String a p', String b s' => Ascii.eqb a b && startsWith p' s'
  | String _ _, EmptyString => false
  end.

(** [s.includes(sub)] *)
Fixpoint includes (s sub : string) : bool :=
  startsWith sub s ||
  match s with
  | EmptyString => false
  | String _ s' => includes s' sub
  end.

(** The value of a byte. *)
Definition code (c : ascii) : N := N_of_ascii c.

(** The white space and the line terminators that [String.prototype.trim]
    removes are the code points U+0009 to U+000D, U+0020, U+00A0, U+1680,
    U+2000 to U+200A, U+2028, U+2029, U+202F, U+205F, U+3000 and U+FEFF.
    Those of one byte: *)
Definition isSpace (c : ascii) : bool :=
  let n := nat_of_ascii c in
  (n =? 32)%nat || ((9 <=? n)%nat && (n <=? 13)%nat).

(** of two bytes (U+00A0 is [C2 A0]): *)
Definition isSpace2 (a b : ascii) : bool :=
  ((code a =? 194) && (code b =? 160))%N.

(** and of three bytes (U+1680 is [E1 9A 80]; U+2000 to U+200A, U+2028,
    U+2029 and U+202F are [E2 80 80] to [E2 80 8A], [E2 80 A8], [E2 80 A9]
    and [E2 80 AF]; U+205F is [E2 81 9F]; U+3000 is [E3 80 80]; U+FEFF is
    [EF BB BF]). *)
Definition isSpace3 (a b c : ascii) : bool :=
  let x := code a in
  let y := code b in
  let z := code c in
  (((x =? 225) && (y =? 154) && (z =? 128)) ||
   ((x =? 226) && (y =? 128) &&
    (((128 <=? z) && (z <=? 138)) || (z =? 168) || (z =? 169) || (z =? 175))) ||
   ((x =? 226) && (y =? 129) && (z =? 159)) ||
   ((x =? 227) && (y =? 128) && (z =? 128)) ||
   ((x =? 239) && (y =? 187) && (z =? 191)))%N.

(** Drops the white space in front of [s]; [sp2] and [sp3] recognise the
    white space of two and of three bytes. *)
Fixpoint trimStartBy (sp2 : ascii -> ascii -> bool)
         (sp3 : ascii -> ascii -> ascii -> bool) (s : string) : string :=
  match s with
  | EmptyString => EmptyString
  | String a s1 =>
      if isSpace a then trimStartBy sp2 sp3 s1
      else
        match s1 with
        | EmptyString => s
        | String b s2 =>
            if sp2 a b then trimStartBy sp2 sp3 s2
            else
              match s2 with
              | EmptyString => s
              | String c s3 =>
                  if sp3 a b c then trimStartBy sp2 sp3 s3 else s
              end
        end
  end.

Fixpoint revOnto (s acc : string) : string :=
  match s with
  | EmptyString => acc
  | String c s' => revOnto s' (String c acc)
  end.

Definition rev (s : string) : string := revOnto s EmptyString.

Definition trimStart (s : string) : string := trimStartBy isSpace2 isSpace3 s.

(** Drops the white space at the end of [s]: read from its last byte, a
    code point shows its bytes in reverse. *)
Definition trimEnd (s : string) : string :=
  rev (trimStartBy (fun b a => isSpace2 a b) (fun c b a => isSpace3 a b c)
                   (rev s)).

Definition trim (s : string) : string := trimEnd (trimStart s).

(** [s.slice(0, n)] cuts after [n] UTF-16 code units: a code point of one,
    two or three bytes is one unit, a code point of four bytes is two units
    (a surrogate pair).  When only one unit is left for a pair, the slice
    ends with its high surrogate alone. *)
Definition highSurrogate (a b c d : ascii) : string :=
  let cp := ((code a mod 8) * 262144 + (code b mod 64) * 4096 +
             (code c mod 64) * 64 + code d mod 64)%N in
  let hi := (55296 + (cp - 65536) / 1024)%N in
  String (ascii_of_N 237)
    (String (ascii_of_N (128 + (hi / 64) mod 64))
       (String (ascii_of_N (128 + hi mod 64)) EmptyString)).

Fixpoint sliceUnits (n : nat) (s : string) : string :=
  match n, s with
  | O, _ => EmptyString
  | _, EmptyString => EmptyString
  | S n', String a s1 =>
      if (code a <? 192)%N then String a (sliceUnits n' s1)
      else
        match s1 with
        | EmptyString => s
        | String b s2 =>
            if (code a <? 224)%N
            then String a (String b (sliceUnits n' s2))
            else
              match s2 with
              | EmptyString => s
              | String c s3 =>
                  if (code a <? 240)%N
                  then String a (String b (String c (sliceUnits n' s3)))
                  else
                    match s3 with
                    | EmptyString => s
                    | String d s4 =>
                        match n' with
                        | O => highSurrogate a b c d
                        | S n'' =>
                            String a
                              (String b
                                 (String c (String d (sliceUnits n'' s4))))
                        end
                    end
              end
        end
  end.

(** Truthiness of a string: the empty string is falsy. *)
Definition truthy (s : string) : bool :=
  match s with EmptyString => false | _ => true end.

(** [s.split(sep)] for a one-character separator. *)
Fixpoint splitOn (sep : ascii) (s : string) : list string :=
  match s with
  | EmptyString => [EmptyString]
  | String c s' =>
      if Ascii.eqb c sep then EmptyString :: splitOn sep s'
      else match splitOn sep s' with
           | [] => [String c EmptyString]
           | w :: ws => String c w :: ws
           end
  end.

(** [s.lastIndexOf(".")]: the suffix of [s] that starts at its last
    occurrence of [c], when there is one ([s.slice(dot)]). *)
Fixpoint sliceFromLast (c : ascii) (s : string) : option string :=
  match s with
  | EmptyString => None
  | String a s' =>
      match sliceFromLast c s' with
      | Some t => Some t
      | None => if Ascii.eqb a c then Some s else None
      end
  end.

(** [set.has(x)] for a [Set<string>] built from a list. *)
Definition has (set : list string) (x : string) : bool :=
  existsb (String.eqb x) set.

(** [set.add(x)] *)
Definition add (set : list string) (x : string) : list string :=
  if has set x then set else set ++ [x].

(** A [Map<string, V>]: entries in insertion order, keys distinct. *)
Definition Map (V : Type) := list (string * V).

Fixpoint get {V} (m : Map V) (k : string) : option V :=
  match m with
  | [] => None
  | (k', v) :: m' => if String.eqb k k' then Some v else get m' k
  end.

Definition mhas {V} (m : Map V) (k : string) : bool :=
  match get m k with Some _ => true | None => false end.

(** [m.set(k, v)] overwrites in place, or appends a new entry. *)
Fixpoint set {V} (m : Map V) (k : string) (v : V) : Map V :=
  match m with
  | [] => [(k, v)]
  | (k', v') :: m' =>
      if String.eqb k k' then (k', v) :: m' else (k', v') :: set m' k v
  end.

(** [arr.slice(0, n)] for a count [n]. *)
Definition slice0 {A} (n : nat) (l : list A) : list A := firstn n l.

(** [arr.sort(cmp)]: the sort of an array is stable.  [before a b] says
    that the comparator does not put [b] in front of [a] ([cmp(a, b) <= 0]);
    an element is inserted in front of the first element it may precede. *)
Fixpoint insertBy {A} (before : A -> A -> bool) (x : A) (l : list A)
  : list A :=
  match l with
  | [] => [x]
  | y :: l' => if before x y then x :: l else y :: insertBy before x l'
  end.

Definition sortBy {A} (before : A -> A -> bool) (l : list A) : list A :=
  fold_right (insertBy before) [] l.

End JS.

(* ================================================================== *)
(** * Binary64 arithmetic *)
(* ================================================================== *)

(** The numbers of JavaScript are the binary64 numbers of IEEE 754: 53
    significant bits, subnormal numbers down to [2^-1074], results rounded
    to the nearest representable number, ties to the even one.  A finite
    number is modelled by the rational it denotes.  Overflow is left out:
    the numbers of this development are scores, sums of fewer than [2^32]
    terms below one, and differences [1 - d]. *)
Module Double.

Definition pow2 (e : Z) : Q := (2 ^ e)%Q.

(** The integer part of the binary logarithm of a positive number. *)
Definition ilog2 (x : Q) : Z :=
  let e := (Z.log2 (Qnum x) - Z.log2 (Zpos (Qden x)))%Z in
  if Qle_bool (pow2 e) x then e else (e - 1)%Z.

(** The exponent of the last of the 53 bits of a positive number. *)
Definition expo (x : Q) : Z := Z.max (ilog2 x - 52) (-1074).

(** The nearest integer, the even one of two. *)
Definition rne (x : Q) : Z :=
  let f := Qfloor x in
  match (x - inject_Z f ?= 1 # 2)%Q with
  | Lt => f
  | Gt => (f + 1)%Z
  | Eq => if Z.even f then f else (f + 1)%Z
  end.

Definition roundPos (x : Q) : Q :=
  let e := expo x in
  (inject_Z (rne (x * pow2 (- e))) * pow2 e)%Q.

(** The binary64 number nearest to [x], as a reduced fraction. *)
Definition round (x : Q) : Q :=
  Qred (match (x ?= 0)%Q with
        | Eq => 0
        | Gt => roundPos x
        | Lt => - roundPos (- x)
        end)%Q.

Definition add (a b : Q) : Q := round (a + b)%Q.
Definition sub (a b : Q) : Q := round (a - b)%Q.
Definition div (a b : Q) : Q := round (a / b)%Q.

End Double.

(* ================================================================== *)
(** * Search results (src/db/store.ts) *)
(* ================================================================== *)

Record SearchResult := mkSearchResult {
  chunkKey  : string;
  filePath  : string;
  name      : string;
  kind      : string;
  signature : string;
  snippet   : string;
  startLine : Z;
  endLine   : Z;
  score     : Q
}.

(** The object spread [{ ...row, score }]. *)
Definition withScore (row : SearchResult) (s : Q) : SearchResult :=
  {| chunkKey := chunkKey row; filePath := filePath row; name := name row;
     kind := kind row; signature := signature row; snippet := snippet row;
     startLine := startLine row; endLine := endLine row; score := s |}.

(** The value [{ ...undefined, score }] of a row missing from the data map:
    only [score] is set. *)
Definition scoreOnly (s : Q) : SearchResult :=
  {| chunkKey := ""; filePath := ""; name := ""; kind := ""; signature := "";
     snippet := ""; startLine := 0; endLine := 0; score := s |}.

(* ================================================================== *)
(** * Reciprocal rank fusion (src/search/rank.ts) *)
(* ================================================================== *)

Module Rank.

Definition orZero (o : option Q) : Q :=
  match o with Some q => q | None => 0%Q end.

(** The summand [w / (k + i + 1)] of the element at index [i]. *)
Definition term (w k : Q) (i : nat) : Q :=
  Double.div w (Double.add (Double.add k (inject_Z (Z.of_nat i))) 1).

(** First loop: every text row adds its term and overwrites [data]. *)
Fixpoint ftsLoop (w k : Q) (i : nat) (rs : list SearchResult)
         (st : JS.Map Q * JS.Map SearchResult)
  : JS.Map Q * JS.Map SearchResult :=
  match rs with
  | [] => st
  | r :: rs' =>
      let '(scores, data) := st in
      let scores' :=
        JS.set scores (chunkKey r)
               (Double.add (orZero (JS.get scores (chunkKey r)))
                           (term w k i)) in
      ftsLoop w k (S i) rs' (scores', JS.set data (chunkKey r) r)
  end.

(** Second loop: every vector row adds its term and fills [data] only
    where the key has no row yet. *)
Fixpoint vecLoop (w k : Q) (i : nat) (rs : list SearchResult)
         (st : JS.Map Q * JS.Map SearchResult)
  : JS.Map Q * JS.Map SearchResult :=
  match rs with
  | [] => st
  | r :: rs' =>
      let '(scores, data) := st in
      let scores' :=
        JS.set scores (chunkKey r)
               (Double.add (orZero (JS.get scores (chunkKey r)))
                           (term w k i)) in
      let data' :=
        if JS.mhas data (chunkKey r) then data
        else JS.set data (chunkKey r) r in
      vecLoop w k (S i) rs' (scores', data')
  end.

(** [entries.sort((a, b) => b[1] - a[1])]: an entry stays in front of
    another when the comparator is not positive, that is when its score
    is at least the other's (the difference of two binary64 numbers has
    the sign of their exact difference). *)
Definition byScoreDesc (a b : string * Q) : bool := Qle_bool (snd b) (snd a).

Definition sortDesc (l : list (string * Q)) : list (string * Q) :=
  JS.sortBy byScoreDesc l.

Definition toRow (data : JS.Map SearchResult) (e : string * Q)
  : SearchResult :=
  match JS.get data (fst e) with
  | Some row => withScore row (snd e)
  | None => scoreOnly (snd e)
  end.

Definition rrfMergeWith (k ftsWeight vecWeight : Q)
           (ftsResults vecResults : list SearchResult) (limit : nat)
  : list SearchResult :=
  let st1 := ftsLoop ftsWeight k 0 ftsResults ([], []) in
  let '(scores, data) := vecLoop vecWeight k 0 vecResults st1 in
  map (toRow data) (JS.slice0 limit (sortDesc scores)).

(** The default parameters [k = 60], [ftsWeight = 0.4], [vecWeight = 0.6];
    the literals [0.4] and [0.6] denote the nearest binary64 numbers. *)
Definition k : Q := 60.
Definition ftsWeight : Q := Double.round (4 # 10).
Definition vecWeight : Q := Double.round (6 # 10).

Definition rrfMerge := rrfMergeWith k ftsWeight vecWeight.

End Rank.

(* ================================================================== *)
(** * Exceptions *)
(* ================================================================== *)

(** A thrown value, tagged by the place that throws it. *)
Inductive Error :=
| EngineError (message : string)      (* the storage engine fails a statement *)
| ParserError (message : string)      (* grammar loading or parsing fails *)
| EmbedderError (message : string)    (* the caller-supplied embedder fails *)
| Unsearchable (fileSize : Z).        (* the health check of [search] *)

Inductive Res (A : Type) :=
| Ok (a : A)
| Throw (e : Error).
Arguments Ok {A} a.
Arguments Throw {A} e.

(** What a collaborator outside this repository gives back: a value, or
    the message of the error it throws. *)
Inductive Outcome (A : Type) :=
| Returns (a : A)
| Fails (message : string).
Arguments Returns {A} a.
Arguments Fails {A} message.

(** Decimal rendering of an integer, as in a template literal. *)
Definition showZ (z : Z) : string := NilZero.string_of_int (Z.to_int z).

(** [e.message ?? String(e)] *)
Definition errorMessage (e : Error) : string :=
  match e with
  | EngineError m | ParserError m | EmbedderError m => m
  | Unsearchable fileSize =>
      "Database file is " ++ showZ ((fileSize + 500000) / 1000000) ++
      "MB but contains no indexed chunks. " ++
      "The database may be locked by another process, " ++
      "or the WAL file may be missing or inaccessible."
  end.

(* ================================================================== *)
(** * Language registry (src/chunk/languages.ts) *)
(* ================================================================== *)

Module Lang.

Record LanguageConfig := mkLang {
  name : string;
  extensions : list string;
  wasmPath : string;
  topLevelNodes : list string;   (* kinds that are top-level definitions *)
  splitNodes : list string       (* kinds split into members when large *)
}.

Definition RUST := mkLang "rust" [".rs"]
  "node_modules/tree-sitter-rust/tree-sitter-rust.wasm"
  ["function_item"; "struct_item"; "enum_item"; "impl_item"; "trait_item";
   "type_item"; "const_item"; "static_item"; "macro_definition"; "mod_item"]
  ["impl_item"; "trait_item"; "mod_item"].

Definition JAVASCRIPT := mkLang "javascript" [".js"; ".jsx"; ".mjs"; ".cjs"]
  "node_modules/tree-sitter-javascript/tree-sitter-javascript.wasm"
  ["function_declaration"; "generator_function_declaration";
   "class_declaration"; "variable_declaration"; "lexical_declaration";
   "export_statement"]
  ["class_declaration"].

Definition tsTopLevel : list string :=
  ["function_declaration"; "generator_function_declaration";
   "class_declaration"; "abstract_class_declaration";
   "interface_declaration"; "type_alias_declaration"; "enum_declaration";
   "variable_declaration"; "lexical_declaration"; "export_statement"].

Definition tsSplit : list string :=
  ["class_declaration"; "abstract_class_declaration";
   "interface_declaration"].

Definition TYPESCRIPT := mkLang "typescript" [".ts"; ".mts"; ".cts"]
  "node_modules/tree-sitter-typescript/tree-sitter-typescript.wasm"
  tsTopLevel tsSplit.

Definition TSX := mkLang "tsx" [".tsx"]
  "node_modules/tree-sitter-typescript/tree-sitter-tsx.wasm"
  tsTopLevel tsSplit.

Definition C := mkLang "c" [".c"; ".h"]
  "node_modules/tree-sitter-c/tree-sitter-c.wasm"
  ["function_definition"; "declaration"; "type_definition";
   "enum_specifier"; "struct_specifier"; "preproc_def";
   "preproc_function_def"]
  [].

Definition PYTHON := mkLang "python" [".py"; ".pyi"]
  "node_modules/tree-sitter-python/tree-sitter-python.wasm"
  ["function_definition"; "class_definition"; "decorated_definition"]
  ["class_definition"].

Definition GO := mkLang "go" [".go"]
  "node_modules/tree-sitter-go/tree-sitter-go.wasm"
  ["function_declaration"; "method_declaration"; "type_declaration";
   "const_declaration"; "var_declaration"]
  [].

Definition ZIG := mkLang "zig" [".zig"]
  "node_modules/@tree-sitter-grammars/tree-sitter-zig/tree-sitter-zig.wasm"
  ["function_declaration"; "variable_declaration"; "test_declaration"]
  [].

Definition JAVA := mkLang "java" [".java"]
  "node_modules/tree-sitter-java/tree-sitter-java.wasm"
  ["class_declaration"; "interface_declaration"; "enum_declaration";
   "record_declaration"]
  ["class_declaration"; "interface_declaration"; "enum_declaration"].

Definition SCALA := mkLang "scala" [".scala"; ".sc"]
  "node_modules/tree-sitter-scala/tree-sitter-scala.wasm"
  ["class_definition"; "object_definition"; "trait_definition";
   "function_definition"; "val_definition"]
  ["class_definition"; "object_definition"; "trait_definition"].

Definition CPP := mkLang "cpp"
  [".cpp"; ".cc"; ".cxx"; ".hpp"; ".hh"; ".hxx"]
  "node_modules/tree-sitter-cpp/tree-sitter-cpp.wasm"
  ["function_definition"; "class_specifier"; "struct_specifier";
   "enum_specifier"; "namespace_definition"; "template_declaration";
   "declaration"]
  ["class_specifier"; "struct_specifier"; "namespace_definition"].

Definition PHP := mkLang "php" [".php"]
  "node_modules/tree-sitter-php/tree-sitter-php_only.wasm"
  ["class_declaration"; "interface_declaration"; "trait_declaration";
   "function_definition"; "enum_declaration"]
  ["class_declaration"; "interface_declaration"; "trait_declaration"].

Definition RUBY := mkLang "ruby" [".rb"]
  "node_modules/tree-sitter-ruby/tree-sitter-ruby.wasm"
  ["module"; "class"; "method"; "singleton_method"; "assignment"]
  ["module"; "class"].

Definition LANGUAGES : list LanguageConfig :=
  [RUST; JAVASCRIPT; TYPESCRIPT; TSX; C; CPP; PYTHON; GO; ZIG; JAVA; SCALA;
   PHP; RUBY].

(** The extension table, filled language by language. *)
Definition EXT_MAP : JS.Map LanguageConfig :=
  fold_left
    (fun m lang =>
       fold_left (fun m' ext => JS.set m' ext lang) (extensions lang) m)
    LANGUAGES [].

Definition detectLanguage (filePath : string) : option LanguageConfig :=
  match JS.sliceFromLast "."%char filePath with
  | None => None
  | Some ext => JS.get EXT_MAP ext
  end.

(** [Array.from(EXT_MAP.keys())] *)
Definition supportedExtensions : list string := map fst EXT_MAP.

End Lang.

(* ================================================================== *)
(** * Chunker (src/chunk/types.ts, src/chunk/treesitter.ts) *)
(* ================================================================== *)

Module Chunk.

Record CodeChunk := mkChunk {
  chunkKey  : string;   (* file_path:startLine:endLine *)
  filePath  : string;
  language  : string;
  kind      : string;
  name      : string;
  signature : string;
  snippet   : string;
  startLine : Z;
  endLine   : Z;
  fileHash  : string
}.

Definition MAX_CHUNK_LINES : Z := 150.

(** A syntax node of the parser: its kind, the rows of its first and
    last character (0-based), its source text, and its children, each
    with its field name (if any) and whether it is a named node. *)
#[warnings="-register-all"] Inductive Node :=
| mkNode (type : string) (startRow endRow : Z) (text : string)
         (children : list (option string * bool * Node)).

Definition type (n : Node) : string :=
  match n with mkNode t _ _ _ _ => t end.
Definition startRow (n : Node) : Z :=
  match n with mkNode _ r _ _ _ => r end.
Definition endRow (n : Node) : Z :=
  match n with mkNode _ _ r _ _ => r end.
Definition text (n : Node) : string :=
  match n with mkNode _ _ _ t _ => t end.
Definition entries (n : Node) : list (option string * bool * Node) :=
  match n with mkNode _ _ _ _ cs => cs end.

(** [node.children] *)
Definition children (n : Node) : list Node := map snd (entries n).

(** [node.namedChildren] *)
Definition namedChildren (n : Node) : list Node :=
  map snd (filter (fun e => snd (fst e)) (entries n)).

(** [node.childForFieldName(f)] *)
Definition childForFieldName (n : Node) (f : string) : option Node :=
  match
    find (fun e => match fst (fst e) with
                   | Some g => String.eqb g f
                   | None => false
                   end) (entries n)
  with
  | Some e => Some (snd e)
  | None => None
  end.

(** [node.endPosition.row - node.startPosition.row + 1] *)
Definition lineCount (n : Node) : Z := endRow n - startRow n + 1.

(** Unwrap an [export_statement] to its inner declaration. *)
Definition unwrapExport (node : Node) : option Node :=
  if negb (String.eqb (type node) "export_statement") then None
  else find (fun child =>
               negb (String.eqb (type child) "decorator") &&
               negb (String.eqb (type child) "comment"))
            (namedChildren node).

(** The first line of a node, trimmed. *)
Definition extractSignature (node : Node) (sourceLines : list string)
  : string :=
  if (startRow node <? 0)%Z then ""
  else match nth_error sourceLines (Z.to_nat (startRow node)) with
       | Some l => JS.trim l
       | None => ""
       end.

Definition eq (a b : string) : bool := String.eqb a b.

(** Normalise a node kind of the grammar to a simpler kind name. *)
Definition nodeKind (type : string) : string :=
  if JS.includes type "function" || eq type "function_item" then "function"
  else if JS.includes type "struct" then "struct"
  else if JS.includes type "enum" then "enum"
  else if JS.includes type "impl" then "impl"
  else if JS.includes type "trait" then "trait"
  else if eq type "type_item" || eq type "type_alias_declaration" ||
          eq type "type_definition" || eq type "type_declaration"
       then "type"
  else if JS.includes type "const" then "const"
  else if JS.includes type "static" then "static"
  else if JS.includes type "macro" || eq type "preproc_def" ||
          eq type "preproc_function_def" then "macro"
  else if eq type "namespace_definition" then "namespace"
  else if eq type "template_declaration" then "template"
  else if JS.includes type "mod" then "module"
  else if JS.includes type "class" then "class"
  else if eq type "method_declaration" then "method"
  else if JS.includes type "method" then "method"
  else if JS.includes type "interface" then "interface"
  else if eq type "variable_declaration" || eq type "lexical_declaration" ||
          eq type "var_declaration" || eq type "val_definition" ||
          eq type "assignment" then "variable"
  else if eq type "declaration" then "declaration"
  else if eq type "decorated_definition" then "function"
  else if eq type "test_declaration" then "test"
  else if eq type "object_definition" then "object"
  else if eq type "record_declaration" then "record"
  else if eq type "constructor_declaration" then "constructor"
  else type.

(** Kinds of nodes that hold the members of a class, module or
    namespace. *)
Definition bodyWrappers : list string :=
  ["class_body"; "declaration_list"; "field_declaration_list";
   "body_statement"; "block"].

(** What [chunkFile] closes over: the file, its language, and the name
    extraction [extractName], a function of the node alone that no
    decision of the chunker depends on. *)
Record Ctx := mkCtx {
  ctxPath : string;
  ctxHash : string;
  config : Lang.LanguageConfig;
  sourceLines : list string;
  extractName : Node -> string
}.

Definition topLevelHas (c : Ctx) (t : string) : bool :=
  JS.has (Lang.topLevelNodes (config c)) t.
Definition splitHas (c : Ctx) (t : string) : bool :=
  JS.has (Lang.splitNodes (config c)) t.

Definition makeChunk (c : Ctx) (node : Node) (kind : string) : CodeChunk :=
  let startLine := (startRow node + 1)%Z in
  let endLine := (endRow node + 1)%Z in
  {| chunkKey := ctxPath c ++ ":" ++ showZ startLine ++ ":" ++ showZ endLine;
     filePath := ctxPath c;
     language := Lang.name (config c);
     kind := kind;
     name := extractName c node;
     signature := extractSignature node (sourceLines c);
     snippet := text node;
     startLine := startLine;
     endLine := endLine;
     fileHash := ctxHash c |}.

Definition isSubItem (c : Ctx) (type : string) : bool :=
  topLevelHas c type || JS.includes type "function" ||
  JS.includes type "method" || JS.includes type "constructor".

(** The members [splitLargeNode] finds: recognised children, and the
    recognised children of body wrappers, in source order. *)
Definition subItems (c : Ctx) (node : Node) : list Node :=
  flat_map
    (fun sub =>
       if isSubItem c (type sub) then [sub]
       else if JS.has bodyWrappers (type sub)
            then filter (fun inner => isSubItem c (type inner))
                        (children sub)
            else [])
    (children node).

Definition splitLargeNode (c : Ctx) (node outerNode : Node)
  : list CodeChunk :=
  match subItems c node with
  | [] => [makeChunk c outerNode (nodeKind (type node))]
  | subs => map (fun sub => makeChunk c sub (nodeKind (type sub))) subs
  end.

(** The shared tail of the four cases of [processNode]: emit [outer]
    whole under the kind of [inner], or split [inner]. *)
Definition emitOrSplit (c : Ctx) (inner outer : Node) : list CodeChunk :=
  if (lineCount outer <=? MAX_CHUNK_LINES)%Z || negb (splitHas c (type inner))
  then [makeChunk c outer (nodeKind (type inner))]
  else splitLargeNode c inner outer.

Definition processTopLevel (c : Ctx) (node : Node) : list CodeChunk :=
  if negb (topLevelHas c (type node)) then []
  else emitOrSplit c node node.

Definition processNode (c : Ctx) (node : Node) : list CodeChunk :=
  if eq (type node) "export_statement" then
    match unwrapExport node with
    | Some inner =>
        if topLevelHas c (type inner) then emitOrSplit c inner node
        else if JS.includes (type inner) "function" ||
                JS.includes (type inner) "class"
             then [makeChunk c node (nodeKind (type inner))]
             else []
    | None => []
    end
  else if eq (type node) "decorated_definition" then
    match childForFieldName node "definition" with
    | Some inner => emitOrSplit c inner node
    | None => processTopLevel c node
    end
  else if eq (type node) "template_declaration" then
    match find (fun ch => negb (eq (type ch) "template_parameter_list"))
               (namedChildren node) with
    | Some inner => emitOrSplit c inner node
    | None => processTopLevel c node
    end
  else processTopLevel c node.

(** The parser: a grammar that fails to load or a parse that throws gives
    [Fails]; [p.parse] may also return no tree. *)
Definition Parser := Lang.LanguageConfig -> string -> Outcome (option Node).

Definition chunkFile (parse : Parser) (extractName : Node -> string)
           (filePath content fileHash : string)
           (config : Lang.LanguageConfig) : Res (list CodeChunk) :=
  match parse config content with
  | Fails message => Throw (ParserError message)
  | Returns None => Ok []
  | Returns (Some rootNode) =>
      let c := mkCtx filePath fileHash config
                     (JS.splitOn "010"%char content) extractName in
      Ok (flat_map (processNode c) (children rootNode))
  end.

End Chunk.

(* ================================================================== *)
(** * Scanner (src/scan/walker.ts) *)
(* ================================================================== *)

Module Walker.

Record ScannedFile := mkScanned {
  absPath : string;
  relPath : string;
  language : string;
  hash : string;
  content : string
}.

(** Directory names to always ignore. *)
Definition ALWAYS_IGNORE : list string :=
  [".git"; "node_modules"; "target"; "build"; "dist"; ".next"; "__pycache__";
   ".tox"; ".venv"; "venv"; ".mypy_cache"; ".cargo"; ".rustup"].

(** [s.replace(/\/$/, '')]: drops one slash at the end of [s]. *)
Fixpoint stripTrailingSlash (s : string) : string :=
  match s with
  | EmptyString => EmptyString
  | String c EmptyString => if Ascii.eqb c "/"%char then EmptyString else s
  | String c s' => String c (stripTrailingSlash s')
  end.

(** Parse .gitignore-style patterns. *)
Definition loadIgnorePatterns (content : string) : list string :=
  fold_left
    (fun patterns line =>
       let trimmed := JS.trim line in
       if negb (JS.truthy trimmed) || JS.startsWith "#" trimmed then patterns
       else
         let clean := stripTrailingSlash trimmed in
         if JS.truthy clean && negb (JS.includes clean "*")
         then JS.add patterns clean
         else patterns)
    (JS.splitOn "010"%char content) [].

(** The part of the file system a scan reads.  [stat] and [readFile] of a
    regular file and [readdir] of a directory may each fail with the
    rendering [String(err)] of the error; [Other] entries (links, sockets)
    are neither files nor directories. *)
#[warnings="-register-all"] Inductive Entry :=
| File (name : string) (size : Z + string) (content : string + string)
| Dir (name : string) (listing : option (list Entry)) (err : string)
| Other (name : string).

Definition entryName (e : Entry) : string :=
  match e with File n _ _ | Dir n _ _ | Other n => n end.

(** [join(dir, name)] for a directory path and an entry name. *)
Definition join (dir name : string) : string := dir ++ "/" ++ name.

(** [relative(rootDir, fullPath)], computed along the walk: [rel] is the
    path of the current directory from the root, empty at the root. *)
Definition joinRel (rel name : string) : string :=
  if JS.truthy rel then rel ++ "/" ++ name else name.

Definition langAllowed (langFilter : option (list string))
           (l : Lang.LanguageConfig) : bool :=
  match langFilter with
  | None => true
  | Some set => JS.has set (Lang.name l)
  end.

(** The first three tests of the loop body, on the entry name alone. *)
Definition skippedByName (ignorePatterns : list string) (name : string)
  : bool :=
  (JS.startsWith "." name && negb (String.eqb name ".")) ||
  JS.has ALWAYS_IGNORE name ||
  JS.has ignorePatterns name.

(** The body of the [for] loop of [walk] for a regular file that passed
    the name tests. *)
Definition visitFile (sha256 : string -> string)
           (langFilter : option (list string)) (dir rel name : string)
           (size : Z + string) (content : string + string)
  : list ScannedFile * list string :=
  let fullPath := join dir name in
  match Lang.detectLanguage name with
  | None => ([], [])
  | Some langConfig =>
      if negb (langAllowed langFilter langConfig) then ([], [])
      else
        match size with
        | inr err => ([], [("cannot read " ++ fullPath ++ ": " ++ err)%string])
        | inl sz =>
            if (sz =? 0)%Z || (1000000 <? sz)%Z then ([], [])
            else
              match content with
              | inr err => ([], [("cannot read " ++ fullPath ++ ": " ++ err)%string])
              | inl text =>
                  ([ {| absPath := fullPath;
                        relPath := joinRel rel name;
                        language := Lang.name langConfig;
                        hash := sha256 text;
                        content := text |} ], [])
              end
        end
  end.

Definition both {A B} (x y : list A * list B) : list A * list B :=
  (fst x ++ fst y, snd x ++ snd y).

(** One iteration of the loop of [walk] on entry [e] of directory [dir];
    the recursive call [walk(fullPath)] is the [Dir] case. *)
Fixpoint visit (sha256 : string -> string) (ignorePatterns : list string)
         (langFilter : option (list string)) (dir rel : string) (e : Entry)
  {struct e} : list ScannedFile * list string :=
  if skippedByName ignorePatterns (entryName e) then ([], [])
  else
    match e with
    | Dir name listing err =>
        match listing with
        | None => ([], [("cannot read " ++ join dir name ++ ": " ++ err)%string])
        | Some entries =>
            (fix loop (es : list Entry) : list ScannedFile * list string :=
               match es with
               | [] => ([], [])
               | e' :: es' =>
                   both (visit sha256 ignorePatterns langFilter
                               (join dir name) (joinRel rel name) e')
                        (loop es')
               end) entries
        end
    | Other _ => ([], [])
    | File name size content =>
        visitFile sha256 langFilter dir rel name size content
    end.

(** [walk(rootDir)]: the root itself is read without any test on its
    name. *)
Definition walk (sha256 : string -> string) (ignorePatterns : list string)
           (langFilter : option (list string)) (rootDir : string)
           (listing : option (list Entry)) (err : string)
  : list ScannedFile * list string :=
  match listing with
  | None => ([], [("cannot read " ++ rootDir ++ ": " ++ err)%string])
  | Some entries =>
      fold_right
        (fun e acc =>
           both (visit sha256 ignorePatterns langFilter rootDir "" e) acc)
        ([], []) entries
  end.

(** [readFile(join(rootDir, '.gitignore'), 'utf-8')], caught when it
    throws. *)
Definition readGitignore (listing : option (list Entry)) : option string :=
  match listing with
  | None => None
  | Some entries =>
      match find (fun e => String.eqb (entryName e) ".gitignore") entries with
      | Some (File _ _ (inl text)) => Some text
      | _ => None
      end
  end.

Definition scanDirectory (sha256 : string -> string) (rootDir : string)
           (listing : option (list Entry)) (err : string)
           (languages : option (list string))
  : list ScannedFile * list string :=
  let ignorePatterns :=
    match readGitignore listing with
    | Some gitignore => loadIgnorePatterns gitignore
    | None => []
    end in
  walk sha256 ignorePatterns languages rootDir listing err.

End Walker.

(* ================================================================== *)
(** * State and exceptions *)
(* ================================================================== *)

(** A computation over a state [S] that returns or throws; the state
    reached when it throws is kept, as for a JavaScript object mutated
    before the exception. *)
Definition M (S A : Type) : Type := S -> Res A * S.

Definition ret {S A} (a : A) : M S A := fun s => (Ok a, s).

Definition throw {S A} (e : Error) : M S A := fun s => (Throw e, s).

Definition bind {S A B} (m : M S A) (f : A -> M S B) : M S B :=
  fun s =>
    match m s with
    | (Ok a, s') => f a s'
    | (Throw e, s') => (Throw e, s')
    end.

(** [try { m } catch (e) { h(e) }] *)
Definition tryCatch {S A} (m : M S A) (h : Error -> M S A) : M S A :=
  fun s =>
    match m s with
    | (Ok a, s') => (Ok a, s')
    | (Throw e, s') => h e s'
    end.

Declare Scope monad_scope.
Delimit Scope monad_scope with monad.
Notation "x <- m ;; k" := (bind m (fun x => k))
  (at level 61, m at next level, right associativity) : monad_scope.
Notation "m ;;; k" := (bind m (fun _ => k))
  (at level 61, right associativity) : monad_scope.
Open Scope monad_scope.

(** [for (const x of xs) { await body(x) }] *)
Fixpoint forEach {S A} (xs : list A) (body : A -> M S unit) : M S unit :=
  match xs with
  | [] => ret tt
  | x :: xs' => body x ;;; forEach xs' body
  end.

(** A loop that threads an accumulator. *)
Fixpoint foldM {S A B} (xs : list A) (acc : B) (body : B -> A -> M S B)
  : M S B :=
  match xs with
  | [] => ret acc
  | x :: xs' => acc' <- body acc x ;; foldM xs' acc' body
  end.

(* ================================================================== *)
(** * Store (src/db/schema.ts, src/db/store.ts) *)
(* ================================================================== *)

(** What the program takes from its host: the storage engine's full-text
    and vector operators, the statements on which the engine reports a
    failure (numbered in execution order), and the clock. *)
Record Host := mkHost {
  fails : nat -> bool;
  vector_distance_cos : list Q -> list Q -> option Q;
  fts_match : string -> string -> string -> bool;
  fts_score : string -> string -> string -> Q;
  dateNow : Z
}.

Module Store.

(** ** Schema *)

Module codebases.
Record row := mk {
  id : Z;
  root_path : string;
  name : string;
  indexed_at : Z
}.
End codebases.

Module chunks.
Record row := mk {
  id : Z;
  codebase_id : Z;
  file_path : string;
  chunk_key : string;
  language : string;
  kind : string;
  name : string;
  signature : string;
  snippet : string;
  start_line : Z;
  end_line : Z;
  file_hash : string;
  indexed_at : Z;
  embedding : option (list Q);      (* NULL until embedded *)
  embedding_model : string
}.
End chunks.

Module indexed_files.
Record row := mk {
  id : Z;
  codebase_id : Z;
  file_path : string;
  file_hash : string;
  chunk_count : Z;
  indexed_at : Z
}.
End indexed_files.

(** The per-codebase table [fts_<id>] and whether its index exists. *)
Module fts.
Record row := mk {
  chunk_id : Z;
  name : string;
  signature : string
}.
Record table := mkTable {
  rows : list row;
  indexed : bool
}.
End fts.

(** The tables, rows in rowid order, and the AUTOINCREMENT counters. *)
Record Tables := mkTables {
  t_codebases : list codebases.row;
  t_chunks : list chunks.row;
  t_indexed_files : list indexed_files.row;
  t_fts : list (Z * fts.table);
  seq_codebases : Z;
  seq_chunks : Z;
  seq_indexed_files : Z
}.

(** A connection: the current tables, the tables saved by [BEGIN] while a
    transaction is open, the number of statements run so far, and the size
    of the database file when it exists. *)
Record DB := mkDB {
  tables : Tables;
  snapshot : option Tables;
  executed : nat;
  fileSize : option Z
}.

Definition emptyTables : Tables := mkTables [] [] [] [] 0 0 0.

(** ** The engine *)

(** One statement: it fails when the host says so, leaving the tables as
    they are, and otherwise runs [f] on the tables. *)
Definition stmt {A} (H : Host) (f : Tables -> A * Tables) : M DB A :=
  fun db =>
    let db1 := mkDB (tables db) (snapshot db) (S (executed db))
                    (fileSize db) in
    if fails H (executed db)
    then (Throw (EngineError "I/O error"), db1)
    else let '(a, t') := f (tables db) in
         (Ok a, mkDB t' (snapshot db) (S (executed db)) (fileSize db)).

(** A statement that only reads. *)
Definition query {A} (H : Host) (f : Tables -> A) : M DB A :=
  stmt H (fun t => (f t, t)).

(** A statement that only writes. *)
Definition exec (H : Host) (f : Tables -> Tables) : M DB unit :=
  stmt H (fun t => (tt, f t)).

(** [db.exec('BEGIN')] saves the tables. *)
Definition BEGIN (H : Host) : M DB unit :=
  fun db =>
    if fails H (executed db)
    then (Throw (EngineError "I/O error"),
          mkDB (tables db) (snapshot db) (S (executed db)) (fileSize db))
    else (Ok tt,
          mkDB (tables db) (Some (tables db)) (S (executed db)) (fileSize db)).

(** [db.exec('COMMIT')] closes the transaction; when it fails the
    transaction stays open. *)
Definition COMMIT (H : Host) : M DB unit :=
  fun db =>
    if fails H (executed db)
    then (Throw (EngineError "I/O error"),
          mkDB (tables db) (snapshot db) (S (executed db)) (fileSize db))
    else (Ok tt, mkDB (tables db) None (S (executed db)) (fileSize db)).

(** [db.exec('ROLLBACK')] restores the tables saved by [BEGIN]. *)
Definition ROLLBACK : M DB unit :=
  fun db =>
    (Ok tt,
     mkDB (match snapshot db with Some t => t | None => tables db end)
          None (S (executed db)) (fileSize db)).

(** [BEGIN; try { body; COMMIT } catch (e) { ROLLBACK; throw e }] *)
Definition transaction {A} (H : Host) (body : M DB A) : M DB A :=
  BEGIN H ;;;
  tryCatch (a <- body ;; COMMIT H ;;; ret a)
           (fun e => ROLLBACK ;;; throw e).

(** ** Table updates of the prepared statements *)

Definition setChunks (t : Tables) (cs : list chunks.row) (seq : Z)
  : Tables :=
  mkTables (t_codebases t) cs (t_indexed_files t) (t_fts t)
           (seq_codebases t) seq (seq_indexed_files t).

Definition setFiles (t : Tables) (fs : list indexed_files.row) (seq : Z)
  : Tables :=
  mkTables (t_codebases t) (t_chunks t) fs (t_fts t)
           (seq_codebases t) (seq_chunks t) seq.

Definition setCodebases (t : Tables) (cs : list codebases.row) (seq : Z)
  : Tables :=
  mkTables cs (t_chunks t) (t_indexed_files t) (t_fts t)
           seq (seq_chunks t) (seq_indexed_files t).

Definition setFts (t : Tables) (f : list (Z * fts.table)) : Tables :=
  mkTables (t_codebases t) (t_chunks t) (t_indexed_files t) f
           (seq_codebases t) (seq_chunks t) (seq_indexed_files t).

Definition chunkOf (codebaseId : Z) (filePath : string) (r : chunks.row)
  : bool :=
  (chunks.codebase_id r =? codebaseId)%Z &&
  String.eqb (chunks.file_path r) filePath.

(** [DELETE FROM chunks WHERE codebase_id = ? AND file_path = ?] *)
Definition deleteChunks (codebaseId : Z) (filePath : string) (t : Tables)
  : Tables :=
  setChunks t
    (filter (fun r => negb (chunkOf codebaseId filePath r)) (t_chunks t))
    (seq_chunks t).

(** The [DO UPDATE SET] clause: every listed column takes the new value,
    the embedding is cleared; [id], [file_path] and [chunk_key] stay. *)
Definition conflictUpdate (codebaseId : Z) (c : Chunk.CodeChunk) (now : Z)
           (r : chunks.row) : chunks.row :=
  chunks.mk (chunks.id r) codebaseId (chunks.file_path r)
            (chunks.chunk_key r) (Chunk.language c) (Chunk.kind c)
            (Chunk.name c) (Chunk.signature c) (Chunk.snippet c)
            (Chunk.startLine c) (Chunk.endLine c) (Chunk.fileHash c) now
            None "".

Definition newChunkRow (id codebaseId : Z) (c : Chunk.CodeChunk) (now : Z)
  : chunks.row :=
  chunks.mk id codebaseId (Chunk.filePath c) (Chunk.chunkKey c)
            (Chunk.language c) (Chunk.kind c) (Chunk.name c)
            (Chunk.signature c) (Chunk.snippet c) (Chunk.startLine c)
            (Chunk.endLine c) (Chunk.fileHash c) now None "".

Definition hasKey (key : string) (r : chunks.row) : bool :=
  String.eqb (chunks.chunk_key r) key.

(** [INSERT INTO chunks ... ON CONFLICT(chunk_key) DO UPDATE SET ...] *)
Definition insertChunk (codebaseId : Z) (now : Z) (c : Chunk.CodeChunk)
           (t : Tables) : Tables :=
  if existsb (hasKey (Chunk.chunkKey c)) (t_chunks t)
  then setChunks t
         (map (fun r => if hasKey (Chunk.chunkKey c) r
                        then conflictUpdate codebaseId c now r else r)
              (t_chunks t))
         (seq_chunks t)
  else setChunks t
         (t_chunks t ++
          [newChunkRow (seq_chunks t + 1) codebaseId c now])
         (seq_chunks t + 1)%Z.

Definition fileOf (codebaseId : Z) (filePath : string)
           (r : indexed_files.row) : bool :=
  (indexed_files.codebase_id r =? codebaseId)%Z &&
  String.eqb (indexed_files.file_path r) filePath.

(** [INSERT INTO indexed_files ... ON CONFLICT(codebase_id, file_path)
    DO UPDATE SET file_hash, chunk_count, indexed_at] *)
Definition upsertFile (codebaseId : Z) (filePath fileHash : string)
           (chunkCount now : Z) (t : Tables) : Tables :=
  if existsb (fileOf codebaseId filePath) (t_indexed_files t)
  then setFiles t
         (map (fun r => if fileOf codebaseId filePath r
                        then indexed_files.mk (indexed_files.id r)
                               codebaseId filePath fileHash chunkCount now
                        else r)
              (t_indexed_files t))
         (seq_indexed_files t)
  else setFiles t
         (t_indexed_files t ++
          [indexed_files.mk (seq_indexed_files t + 1) codebaseId filePath
                            fileHash chunkCount now])
         (seq_indexed_files t + 1)%Z.

(** ** Chunk writes *)

Record FileChunks := mkFileChunks {
  fcPath : string;
  fcHash : string;
  fcChunks : list Chunk.CodeChunk
}.

(** The statements run for one listed file. *)
Definition upsertOneFile (H : Host) (codebaseId now : Z) (fc : FileChunks)
  : M DB unit :=
  exec H (deleteChunks codebaseId (fcPath fc)) ;;;
  forEach (fcChunks fc) (fun chunk => exec H (insertChunk codebaseId now chunk)) ;;;
  exec H (upsertFile codebaseId (fcPath fc) (fcHash fc)
                     (Z.of_nat (List.length (fcChunks fc))) now).

(** [db.prepare(sql)]: compiles a statement, touches no table. *)
Definition prepare (H : Host) : M DB unit := exec H (fun t => t).

(** Batch insert chunks for multiple files in one transaction. *)
Definition batchUpsertAllFileChunks (H : Host) (codebaseId : Z)
           (fileChunks : list FileChunks) : M DB unit :=
  transaction H
    (let now := dateNow H in
     prepare H ;;; prepare H ;;; prepare H ;;;
     forEach fileChunks (upsertOneFile H codebaseId now)).

(** ** Codebase management *)

Definition findCodebase (rootPath : string) (t : Tables)
  : option codebases.row :=
  find (fun r => String.eqb (codebases.root_path r) rootPath)
       (t_codebases t).

(** [rootPath.split('/').pop() ?? ''] *)
Definition lastSegment (rootPath : string) : string :=
  last (JS.splitOn "/"%char rootPath) "".

(** Get or create a codebase entry, returns its id. *)
Definition getOrCreateCodebase (H : Host) (rootPath : string) : M DB Z :=
  row <- query H (findCodebase rootPath) ;;
  match row with
  | Some r => ret (codebases.id r)
  | None =>
      exec H (fun t =>
                setCodebases t
                  (t_codebases t ++
                   [codebases.mk (seq_codebases t + 1) rootPath
                                 (lastSegment rootPath) (dateNow H)])
                  (seq_codebases t + 1)%Z) ;;;
      inserted <- query H (findCodebase rootPath) ;;
      match inserted with
      | Some r => ret (codebases.id r)
      | None => throw (EngineError "inserted is undefined")
      end
  end.

Record Codebase := mkCodebase {
  id : Z;
  rootPath : string;
  name : string;
  indexedAt : Z;
  fileCount : Z;
  chunkCount : Z
}.

(** [COUNT(DISTINCT f.file_path)] over the joined rows. *)
Definition countDistinct (paths : list string) : Z :=
  Z.of_nat (List.length (fold_left JS.add paths [])).

(** The grouped left join of [listCodebases], ordered by [root_path]. *)
Definition selectCodebases (t : Tables) : list Codebase :=
  JS.sortBy (fun a b => String.leb (rootPath a) (rootPath b))
    (map (fun c =>
            let fs := filter (fun f => (indexed_files.codebase_id f =?
                                        codebases.id c)%Z)
                             (t_indexed_files t) in
            mkCodebase (codebases.id c) (codebases.root_path c)
                       (codebases.name c) (codebases.indexed_at c)
                       (countDistinct (map indexed_files.file_path fs))
                       (fold_left Z.add (map indexed_files.chunk_count fs) 0%Z))
         (t_codebases t)).

Definition listCodebases (H : Host) : M DB (list Codebase) :=
  query H selectCodebases.

(** Update codebase indexed_at timestamp. *)
Definition touchCodebase (H : Host) (codebaseId : Z) : M DB unit :=
  exec H (fun t =>
            setCodebases t
              (map (fun r => if (codebases.id r =? codebaseId)%Z
                             then codebases.mk (codebases.id r)
                                    (codebases.root_path r)
                                    (codebases.name r) (dateNow H)
                             else r)
                   (t_codebases t))
              (seq_codebases t)).

(** ** File hash management *)

(** Get stored file hash, or null if not indexed. *)
Definition getFileHash (H : Host) (codebaseId : Z) (filePath : string)
  : M DB (option string) :=
  query H (fun t =>
             match find (fileOf codebaseId filePath) (t_indexed_files t) with
             | Some r => Some (indexed_files.file_hash r)
             | None => None
             end).

(** Remove files that are no longer on disk (scoped to codebase). *)
Definition removeStaleFiles (H : Host) (codebaseId : Z)
           (activeFiles : list string) : M DB nat :=
  all <- query H (fun t =>
                    map indexed_files.file_path
                        (filter (fun r => (indexed_files.codebase_id r =?
                                           codebaseId)%Z)
                                (t_indexed_files t))) ;;
  transaction H
    (foldM all 0%nat
       (fun removed file_path =>
          if negb (JS.has activeFiles file_path) then
            exec H (deleteChunks codebaseId file_path) ;;;
            exec H (fun t =>
                      setFiles t
                        (filter (fun r => negb (fileOf codebaseId file_path r))
                                (t_indexed_files t))
                        (seq_indexed_files t)) ;;;
            ret (S removed)
          else ret removed)).

(** ** Embedding management *)

Record EmbeddingItem := mkItem {
  itemKey : string;
  itemEmbedding : option (list Q);   (* [vectors[j]], undefined past the end *)
  itemModel : string
}.

(** [UPDATE chunks SET embedding = vector8(?), embedding_model = ?
    WHERE chunk_key = ?] *)
Definition setEmbedding (item : EmbeddingItem) (t : Tables) : Tables :=
  setChunks t
    (map (fun r =>
            if hasKey (itemKey item) r
            then chunks.mk (chunks.id r) (chunks.codebase_id r)
                   (chunks.file_path r) (chunks.chunk_key r)
                   (chunks.language r) (chunks.kind r) (chunks.name r)
                   (chunks.signature r) (chunks.snippet r)
                   (chunks.start_line r) (chunks.end_line r)
                   (chunks.file_hash r) (chunks.indexed_at r)
                   (itemEmbedding item) (itemModel item)
            else r)
         (t_chunks t))
    (seq_chunks t).

(** Batch store embeddings. *)
Definition batchUpsertEmbeddings (H : Host) (items : list EmbeddingItem)
  : M DB unit :=
  match items with
  | [] => ret tt
  | _ => transaction H (forEach items (fun item => exec H (setEmbedding item)))
  end.

Module Stale.
Record t := mk {
  chunkKey : string;
  name : string;
  signature : string;
  filePath : string;
  kind : string;
  snippet : string
}.
End Stale.

(** The [WHERE] clause of [getStaleEmbeddings]. *)
Definition isStale (codebaseId : Z) (modelName : string) (r : chunks.row)
  : bool :=
  (chunks.codebase_id r =? codebaseId)%Z &&
  (match chunks.embedding r with None => true | Some _ => false end ||
   negb (String.eqb (chunks.embedding_model r) modelName)).

(** Get chunks that need (re-)embedding (scoped to codebase); a limit that
    is absent or zero is no limit. *)
Definition getStaleEmbeddings (H : Host) (codebaseId : Z)
           (modelName : string) (limit : option nat) : M DB (list Stale.t) :=
  rows <- query H (fun t =>
                     let sel := filter (isStale codebaseId modelName)
                                       (t_chunks t) in
                     match limit with
                     | Some (S n) => firstn (S n) sel
                     | _ => sel
                     end) ;;
  ret (map (fun r => Stale.mk (chunks.chunk_key r) (chunks.name r)
                              (chunks.signature r) (chunks.file_path r)
                              (chunks.kind r) (chunks.snippet r))
           rows).

(** ** Per-codebase FTS lifecycle *)

Definition dropFts (codebaseId : Z) (t : Tables) : Tables :=
  setFts t (filter (fun e => negb (fst e =? codebaseId)%Z) (t_fts t)).

Definition hasFts (codebaseId : Z) (t : Tables) : bool :=
  existsb (fun e => (fst e =? codebaseId)%Z) (t_fts t).

Definition mapFts (codebaseId : Z) (f : fts.table -> fts.table) (t : Tables)
  : Tables :=
  setFts t (map (fun e => if (fst e =? codebaseId)%Z
                          then (fst e, f (snd e)) else e)
                (t_fts t)).

(** Drop and rebuild FTS table for a codebase. *)
Definition rebuildFtsTable (H : Host) (codebaseId : Z) : M DB unit :=
  (* DROP TABLE IF EXISTS *)
  exec H (dropFts codebaseId) ;;;
  (* CREATE TABLE IF NOT EXISTS *)
  exec H (fun t => if hasFts codebaseId t then t
                   else setFts t (t_fts t ++
                                  [(codebaseId, fts.mkTable [] false)])) ;;;
  (* INSERT INTO fts SELECT id, name, signature FROM chunks *)
  exec H (fun t =>
            mapFts codebaseId
              (fun tb =>
                 fts.mkTable
                   (fts.rows tb ++
                    map (fun r => fts.mk (chunks.id r) (chunks.name r)
                                         (chunks.signature r))
                        (filter (fun r => (chunks.codebase_id r =?
                                           codebaseId)%Z)
                                (t_chunks t)))
                   (fts.indexed tb))
              t) ;;;
  (* CREATE INDEX IF NOT EXISTS ... USING fts *)
  exec H (mapFts codebaseId (fun tb => fts.mkTable (fts.rows tb) true)) ;;;
  (* OPTIMIZE INDEX *)
  exec H (fun t => t).

(** ** Search *)

(** [ORDER BY distance ASC]: NULL sorts first. *)
Definition distanceLe (a b : option Q) : bool :=
  match a, b with
  | None, _ => true
  | Some _, None => false
  | Some x, Some y => Qle_bool x y
  end.

(** [row.distance ?? 1] *)
Definition orOne (d : option Q) : Q :=
  match d with Some x => x | None => 1%Q end.

Definition vectorRow (includeSnippet : bool)
           (rd : chunks.row * option Q) : SearchResult :=
  let row := fst rd in
  mkSearchResult (chunks.chunk_key row) (chunks.file_path row)
                 (chunks.name row) (chunks.kind row) (chunks.signature row)
                 (if includeSnippet then chunks.snippet row else "")
                 (chunks.start_line row) (chunks.end_line row)
                 (Double.sub 1 (orOne (snd rd))).

(** The [SELECT] of [vectorSearch]. *)
Definition selectNearest (H : Host) (queryEmbedding : list Q) (limit : nat)
           (t : Tables) : list (chunks.row * option Q) :=
  firstn limit
    (JS.sortBy (fun a b => distanceLe (snd a) (snd b))
       (flat_map
          (fun r => match chunks.embedding r with
                    | Some e => [(r, vector_distance_cos H e queryEmbedding)]
                    | None => []
                    end)
          (t_chunks t))).

(** Vector search across all codebases (global).  [queryEmbedding] is
    [undefined] when the caller took it from an empty array:
    [JSON.stringify] then gives [undefined], and the engine refuses the
    statement with an undefined parameter. *)
Definition vectorSearch (H : Host) (queryEmbedding : option (list Q))
           (limit : nat) (includeSnippet : bool) : M DB (list SearchResult) :=
  match queryEmbedding with
  | Some queryEmbedding =>
      rows <- query H (selectNearest H queryEmbedding limit) ;;
      ret (map (vectorRow includeSnippet) rows)
  | None =>
      fun db =>
        (Throw (EngineError "undefined parameter"),
         mkDB (tables db) (snapshot db) (S (executed db)) (fileSize db))
  end.

(** The scored [SELECT] on one FTS table; the engine refuses it while the
    table has no index. *)
Definition selectMatches (H : Host) (tb : fts.table) (q : string)
           (limit : nat) : M DB (list (Z * Q)) :=
  if fts.indexed tb then
    query H (fun _ =>
               firstn limit
                 (JS.sortBy (fun a b => Qle_bool (snd b) (snd a))
                    (map (fun r => (fts.chunk_id r,
                                    fts_score H (fts.name r)
                                              (fts.signature r) q))
                         (filter (fun r => fts_match H (fts.name r)
                                                     (fts.signature r) q)
                                 (fts.rows tb)))))
  else throw (EngineError "no such index").

Definition ftsRow (includeSnippet : bool) (row : chunks.row) (score : Q)
  : SearchResult :=
  mkSearchResult (chunks.chunk_key row) (chunks.file_path row)
                 (chunks.name row) (chunks.kind row) (chunks.signature row)
                 (if includeSnippet then chunks.snippet row else "")
                 (chunks.start_line row) (chunks.end_line row) score.

(** FTS search across all codebases (queries each FTS table, merges
    results). *)
Definition ftsSearch (H : Host) (q : string) (limit : nat)
           (includeSnippet : bool) : M DB (list SearchResult) :=
  ids <- query H (fun t => map codebases.id (t_codebases t)) ;;
  allResults <-
    foldM ids []
      (fun allResults id =>
         exists_ <- query H (fun t =>
                               match find (fun e => (fst e =? id)%Z)
                                          (t_fts t) with
                               | Some e => Some (snd e)
                               | None => None
                               end) ;;
         match exists_ with
         | None => ret allResults
         | Some tb =>
             tryCatch
               (scores <- selectMatches H tb q limit ;;
                foldM scores allResults
                  (fun acc cs =>
                     row <- query H (fun t =>
                                       find (fun r => (chunks.id r =? fst cs)%Z)
                                            (t_chunks t)) ;;
                     match row with
                     | None => ret acc
                     | Some r => ret (acc ++ [ftsRow includeSnippet r (snd cs)])
                     end))
               (fun e =>
                  let msg := errorMessage e in
                  if negb (JS.includes msg "no such table") &&
                     negb (JS.includes msg "no such index")
                  then throw e
                  else ret allResults)
         end) ;;
  ret (firstn limit
         (JS.sortBy (fun a b => Qle_bool (score b) (score a)) allResults)).

(** ** Other reads and writes *)

(** Remove all chunks and file records for a codebase: two statements,
    outside any transaction. *)
Definition removeCodebaseChunks (H : Host) (codebaseId : Z) : M DB unit :=
  exec H (fun t =>
            setChunks t
              (filter (fun r => negb (chunks.codebase_id r =? codebaseId)%Z)
                      (t_chunks t))
              (seq_chunks t)) ;;;
  exec H (fun t =>
            setFiles t
              (filter (fun r => negb (indexed_files.codebase_id r =?
                                      codebaseId)%Z)
                      (t_indexed_files t))
              (seq_indexed_files t)).

Definition hasEmbedding (r : chunks.row) : bool :=
  match chunks.embedding r with Some _ => true | None => false end.

(** Count chunks that have embeddings (i.e., are searchable). *)
Definition countEmbeddedChunks (H : Host) : M DB Z :=
  query H (fun t => Z.of_nat (List.length (filter hasEmbedding (t_chunks t)))).

Module IndexedFile.
Record t := mk {
  filePath : string;
  fileHash : string;
  chunkCount : Z;
  indexedAt : Z
}.
End IndexedFile.

(** List all indexed files (optionally scoped to codebase), ordered by
    [file_path]. *)
Definition listFiles (H : Host) (codebaseId : option Z)
  : M DB (list IndexedFile.t) :=
  rows <- query H (fun t =>
                     JS.sortBy (fun a b => String.leb
                                             (indexed_files.file_path a)
                                             (indexed_files.file_path b))
                       (match codebaseId with
                        | Some id =>
                            filter (fun r => (indexed_files.codebase_id r =?
                                              id)%Z)
                                   (t_indexed_files t)
                        | None => t_indexed_files t
                        end)) ;;
  ret (map (fun row => IndexedFile.mk (indexed_files.file_path row)
                                      (indexed_files.file_hash row)
                                      (indexed_files.chunk_count row)
                                      (indexed_files.indexed_at row))
           rows).

End Store.

(** The name of the per-codebase FTS table (src/db/schema.ts). *)
Module Schema.

Definition ftsTableName (codebaseId : Z) : string :=
  ("fts_" ++ showZ codebaseId)%string.

End Schema.

(* ================================================================== *)
(** * Query preprocessor (src/search/query.ts) *)
(* ================================================================== *)

Module Query.

Inductive QueryMode := raw | keywords.

(** Modelled from the spec: the characters of a token are letters (after
    case folding), digits and the hyphen; src/search/query.ts is not among
    the sources. *)
Definition isTokenChar (c : ascii) : bool :=
  let n := nat_of_ascii c in
  ((48 <=? n) && (n <=? 57))%nat || ((97 <=? n) && (n <=? 122))%nat ||
  (n =? 45)%nat.

(** Modelled from the spec: case folding of one character. *)
Definition lower (c : ascii) : ascii :=
  let n := nat_of_ascii c in
  if ((65 <=? n) && (n <=? 90))%nat then ascii_of_nat (n + 32) else c.

(** Modelled from the spec: the tokens of a query, maximal runs of
    letters, digits and hyphens, case-folded.  The accumulator [cur] is
    the token being read. *)
Fixpoint tokens (cur : string) (s : string) : list string :=
  let flush := if JS.truthy cur then [cur] else [] in
  match s with
  | EmptyString => flush
  | String c s' =>
      let c' := lower c in
      if isTokenChar c' then tokens (cur ++ String c' EmptyString) s'
      else flush ++ tokens EmptyString s'
  end.

(** Modelled from the spec: the keyword extraction of the query
    preprocessor (src/search/query.ts is not among the sources), over a
    stop-word list taken as a parameter: tokenize on whitespace and
    punctuation keeping hyphenated terms intact; case-fold; remove the stop
    words; drop tokens of length below 3; deduplicate preserving order; cap
    at 12 tokens; rejoin with spaces. *)
Definition extractKeywords (stopWords : list string) (q : string) : string :=
  let kept :=
    filter (fun w => negb (JS.has stopWords w) && (3 <=? String.length w)%nat)
           (tokens EmptyString q) in
  String.concat " " (firstn 12 (fold_left JS.add kept [])).

(** Modelled from the spec: [preprocessQuery], raw mode is the identity. *)
Definition preprocessQuery (stopWords : list string) (q : string)
           (mode : QueryMode) : string :=
  match mode with
  | raw => q
  | keywords => extractKeywords stopWords q
  end.

End Query.

(* ================================================================== *)
(** * Orchestrator (src/index.ts) *)
(* ================================================================== *)

Module Index.

Inductive SearchMode := semantic | keyword | hybrid.

Record SearchOptions := mkSearchOptions {
  limit : option nat;
  threshold : option Q;
  includeSnippet : option bool;
  mode : option SearchMode
}.

Record IndexOptions := mkIndexOptions {
  languages : option (list string)
}.

(** An element of the [errors] array at run time: a string, or the object
    [{ path, error }]. *)
Inductive ErrorEntry :=
| ErrString (s : string)
| ErrObject (path error : string).

Definition isString (e : ErrorEntry) : bool :=
  match e with ErrString _ => true | ErrObject _ _ => false end.

(** The result of [index]; the wall-clock [duration] is left out. *)
Record IndexResult := mkIndexResult {
  files : nat;
  chunks : nat;
  embedded : nat;
  skipped : nat;
  removed : nat;
  errors : list ErrorEntry
}.

Definition Embedder := list string -> Outcome (list (list Q)).

Record CodeIndexOptions := mkOptions {
  embedder : Embedder;
  embeddingModel : string
}.

(** The collaborators of the orchestrator that are not in this
    repository's sources or lie outside the program. *)
Record Runtime := mkRuntime {
  host : Host;
  sha256 : string -> string;
  parse : Chunk.Parser;
  extractName : Chunk.Node -> string;
  preprocessQuery : string -> Query.QueryMode -> string
}.

(** The directory tree an [index] call reads. *)
Record Disk := mkDisk {
  rootListing : option (list Walker.Entry);
  rootError : string
}.

(** A [CodeIndex] instance: its open store and the [searchVerified]
    flag. *)
Record Inst := mkInst {
  store : Store.DB;
  searchVerified : bool
}.

(** Run a store operation on the instance's store. *)
Definition onStore {A} (m : M Store.DB A) : M Inst A :=
  fun inst =>
    let '(r, db) := m (store inst) in
    (r, mkInst db (searchVerified inst)).

(** Call the embedder. *)
Definition embed (O : CodeIndexOptions) (texts : list string)
  : M Inst (list (list Q)) :=
  fun inst =>
    match embedder O texts with
    | Returns vectors => (Ok vectors, inst)
    | Fails message => (Throw (EmbedderError message), inst)
    end.

Definition newline : string := String "010"%char EmptyString.

(** Build embedding text for a chunk. *)
Definition buildEmbedText (s : Store.Stale.t) : string :=
  let text : string := Store.Stale.filePath s in
  let text : string :=
    if JS.truthy (Store.Stale.kind s) && JS.truthy (Store.Stale.name s)
    then (text ++ ": " ++ Store.Stale.kind s ++ " " ++ Store.Stale.name s)%string
    else if JS.truthy (Store.Stale.name s)
         then (text ++ ": " ++ Store.Stale.name s)%string
         else text in
  let text : string :=
    if JS.truthy (Store.Stale.signature s)
    then (text ++ newline ++ Store.Stale.signature s)%string else text in
  if JS.truthy (Store.Stale.snippet s)
  then (text ++ newline ++ JS.sliceUnits 500 (Store.Stale.snippet s))%string
  else text.

Definition FILE_BATCH : nat := 200.
Definition EMBED_BATCH : nat := 64.

(** The slices [l.slice(i, i + n)] for [i = 0, n, 2n, ...] below the
    length of [l]; [fuel] bounds the number of slices. *)
Fixpoint slices {A} (fuel n : nat) (l : list A) : list (list A) :=
  match fuel, l with
  | _, [] => []
  | O, _ => []
  | S fuel', _ => firstn n l :: slices fuel' n (skipn n l)
  end.

Definition batches {A} (n : nat) (l : list A) : list (list A) :=
  slices (List.length l) n l.

(** The counters and arrays the batch loop updates. *)
Record Progress := mkProgress {
  filesProcessed : nat;
  chunksCreated : nat;
  embeddedSoFar : nat;
  errorsSoFar : list ErrorEntry
}.

(** Chunk the files of one batch. *)
Definition chunkBatch (R : Runtime) (batchFiles : list Walker.ScannedFile)
           (p : Progress) : list Store.FileChunks * Progress :=
  fold_left
    (fun '(batchChunks, p) file =>
       match Lang.detectLanguage (Walker.absPath file) with
       | None => (batchChunks, p)
       | Some langConfig =>
           match Chunk.chunkFile (parse R) (extractName R)
                   (Walker.absPath file) (Walker.content file)
                   (Walker.hash file) langConfig with
           | Ok chunks =>
               (batchChunks ++
                [Store.mkFileChunks (Walker.absPath file) (Walker.hash file)
                                    chunks],
                mkProgress (S (filesProcessed p))
                           (chunksCreated p + List.length chunks)
                           (embeddedSoFar p) (errorsSoFar p))
           | Throw e =>
               (batchChunks,
                mkProgress (filesProcessed p) (chunksCreated p)
                           (embeddedSoFar p)
                           (errorsSoFar p ++
                            [ErrObject (Walker.absPath file)
                                       (errorMessage e)]))
           end
       end)
    batchFiles ([], p).

(** Embed the stale chunks of the codebase, [EMBED_BATCH] at a time. *)
Definition embedStale (R : Runtime) (O : CodeIndexOptions) (codebaseId : Z)
           (embedded : nat) : M Inst nat :=
  stale <- onStore (Store.getStaleEmbeddings (host R) codebaseId
                                             (embeddingModel O) None) ;;
  foldM (batches EMBED_BATCH stale) embedded
    (fun embedded slice =>
       vectors <- embed O (map buildEmbedText slice) ;;
       onStore (Store.batchUpsertEmbeddings (host R)
                  (map (fun '(j, s) =>
                          Store.mkItem (Store.Stale.chunkKey s)
                                       (nth_error vectors j)
                                       (embeddingModel O))
                       (combine (seq 0 (List.length slice)) slice))) ;;;
       ret (embedded + List.length vectors)%nat).

(** One turn of the batch loop: chunk, write, embed. *)
Definition processBatch (R : Runtime) (O : CodeIndexOptions) (codebaseId : Z)
           (p : Progress) (batchFiles : list Walker.ScannedFile)
  : M Inst Progress :=
  let '(batchChunks, p1) := chunkBatch R batchFiles p in
  match batchChunks with
  | [] => ret tt
  | _ => onStore (Store.batchUpsertAllFileChunks (host R) codebaseId
                                                 batchChunks)
  end ;;;
  embedded <- embedStale R O codebaseId (embeddedSoFar p1) ;;
  ret (mkProgress (filesProcessed p1) (chunksCreated p1) embedded
                  (errorsSoFar p1)).

(** Index a directory: scan files, chunk with tree-sitter, embed, store. *)
Definition index (R : Runtime) (O : CodeIndexOptions) (rootDir : string)
           (disk : Disk) (opts : IndexOptions) : M Inst IndexResult :=
  codebaseId <- onStore (Store.getOrCreateCodebase (host R) rootDir) ;;
  (* Phase 1: scan *)
  let '(files, errors) :=
    Walker.scanDirectory (sha256 R) rootDir (rootListing disk)
                         (rootError disk) (languages opts) in
  (* Phase 2: hash check *)
  checked <-
    foldM files ([], 0%nat, [])
      (fun '(activeFiles, skipped, filesToProcess) file =>
         storedHash <- onStore (Store.getFileHash (host R) codebaseId
                                                  (Walker.absPath file)) ;;
         let activeFiles := JS.add activeFiles (Walker.absPath file) in
         match storedHash with
         | Some h =>
             if String.eqb h (Walker.hash file)
             then ret (activeFiles, S skipped, filesToProcess)
             else ret (activeFiles, skipped, filesToProcess ++ [file])
         | None => ret (activeFiles, skipped, filesToProcess ++ [file])
         end) ;;
  let '(activeFiles, skipped, filesToProcess) := checked in
  (* chunk, write, embed per batch *)
  p <- foldM (batches FILE_BATCH filesToProcess)
             (mkProgress 0 0 0 (map ErrString errors))
             (processBatch R O codebaseId) ;;
  (* Phase 3: remove chunks for deleted files *)
  removed <- onStore (Store.removeStaleFiles (host R) codebaseId
                                             activeFiles) ;;
  (* Phase 5: per-codebase FTS table *)
  onStore (Store.rebuildFtsTable (host R) codebaseId) ;;;
  onStore (Store.touchCodebase (host R) codebaseId) ;;;
  ret (mkIndexResult (filesProcessed p) (chunksCreated p) (embeddedSoFar p)
                     skipped removed (errorsSoFar p)).

(** Verify the database is in a searchable state (once per instance). *)
Definition verifySearchable (R : Runtime) : M Inst unit :=
  fun inst =>
    if searchVerified inst then (Ok tt, inst)
    else
      let inst1 := mkInst (store inst) true in
      match Store.fileSize (store inst1) with
      | None => (Ok tt, inst1)
      | Some fileSize =>
          if (fileSize <=? 1000000)%Z then (Ok tt, inst1)
          else
            (codebases <- onStore (Store.listCodebases (host R)) ;;
             match codebases with
             | [] => ret tt
             | _ =>
                 let totalChunks :=
                   fold_left (fun sum c => (sum + Store.chunkCount c)%Z)
                             codebases 0%Z in
                 if (0 <? totalChunks)%Z then ret tt
                 else throw (Unsearchable fileSize)
             end) inst1
      end.

(** [threshold > 0 ? results.filter((r) => r.score >= threshold) : results] *)
Definition applyThreshold (threshold : Q) (results : list SearchResult)
  : list SearchResult :=
  if negb (Qle_bool threshold 0)
  then filter (fun r => Qle_bool threshold (score r)) results
  else results.

(** [const [queryVec] = await this.embedder([query])]: [undefined] when
    the embedder returns no vector. *)
Definition embedQuery (O : CodeIndexOptions) (query : string)
  : M Inst (option (list Q)) :=
  vectors <- embed O [query] ;;
  ret (hd_error vectors).

Definition orDefault {A} (o : option A) (d : A) : A :=
  match o with Some a => a | None => d end.

(** The body of [search] after the health check. *)
Definition dispatch (R : Runtime) (O : CodeIndexOptions) (query : string)
           (opts : SearchOptions) : M Inst (list SearchResult) :=
  let limit := orDefault (limit opts) 5%nat in
  let threshold := orDefault (threshold opts) 0%Q in
  let includeSnippet := orDefault (includeSnippet opts) false in
  let mode := orDefault (mode opts) semantic in
  match mode with
  | semantic =>
      queryVec <- embedQuery O query ;;
      results <- onStore (Store.vectorSearch (host R) queryVec limit
                                             includeSnippet) ;;
      ret (applyThreshold threshold results)
  | _ =>
      (* Keyword path: preprocess query for FTS *)
      let processed := preprocessQuery R query Query.keywords in
      if negb (JS.truthy (JS.trim processed)) then ret []
      else
        ftsResults <- onStore (Store.ftsSearch (host R) processed limit
                                               includeSnippet) ;;
        match mode with
        | keyword => ret (applyThreshold threshold ftsResults)
        | _ =>
            (* Hybrid: combine keyword + semantic via RRF *)
            queryVec <- embedQuery O query ;;
            vecResults <- onStore (Store.vectorSearch (host R) queryVec limit
                                                      includeSnippet) ;;
            let merged := Rank.rrfMerge ftsResults vecResults limit in
            ret (applyThreshold threshold merged)
        end
  end.

(** Search for code chunks relevant to a query: verify the DB is in a
    readable state, then dispatch on the mode. *)
Definition search (R : Runtime) (O : CodeIndexOptions) (query : string)
           (opts : SearchOptions) : M Inst (list SearchResult) :=
  verifySearchable R ;;; dispatch R O query opts.

(** A caller that runs [calls] one after the other on the same instance
    and keeps the outcome of each, thrown or returned; [run] is [search],
    or [dispatch] for a caller that skips the health check. *)
Fixpoint outcomes
         (run : string -> SearchOptions -> M Inst (list SearchResult))
         (calls : list (string * SearchOptions)) (inst : Inst)
  : list (Res (list SearchResult)) :=
  match calls with
  | [] => []
  | (query, opts) :: calls' =>
      let '(r, inst') := run query opts inst in
      r :: outcomes run calls' inst'
  end.

(** The [errors] of a run that returned. *)
Definition errors_of (r : Res IndexResult) : list ErrorEntry :=
  match r with
  | Ok res => errors res
  | Throw _ => []
  end.

Definition isUnsearchable {A} (r : Res A) : bool :=
  match r with
  | Throw (Unsearchable _) => true
  | _ => false
  end.

(** [opts] with another threshold. *)
Definition withThreshold (opts : SearchOptions) (t : option Q)
  : SearchOptions :=
  mkSearchOptions (limit opts) t (includeSnippet opts) (mode opts).

(** List all indexed files. *)
Definition listFiles (R : Runtime) : M Inst (list Store.IndexedFile.t) :=
  onStore (Store.listFiles (host R) None).

(** List all codebases. *)
Definition listCodebases (R : Runtime) : M Inst (list Store.Codebase) :=
  onStore (Store.listCodebases (host R)).

End Index.

(* ================================================================== *)
(** * Vocabulary of the statements about rank fusion *)
(* ================================================================== *)

Module RankSpec.

Definition keys (rs : list SearchResult) : list string := map chunkKey rs.

(** The 1-based rank of [key] in a result list. *)
Fixpoint rankOf (key : string) (rs : list SearchResult) : option nat :=
  match rs with
  | [] => None
  | r :: rs' =>
      if String.eqb key (chunkKey r) then Some 1%nat
      else option_map S (rankOf key rs')
  end.

(** [60 + rank] *)
Definition denom (r : nat) : Q := (60 + inject_Z (Z.of_nat r))%Q.

(** [w / (60 + rank)] for the 1-based rank of [key] in [rs], as the code
    computes it for the row at index [rank - 1]; nothing when the list
    does not contain [key]. *)
Definition share (w : Q) (key : string) (rs : list SearchResult) : option Q :=
  match rankOf key rs with
  | Some r => Some (Rank.term w Rank.k (Nat.pred r))
  | None => None
  end.

(** The fused score of a key under the default weights, when no list
    repeats a key: the sum over the lists that contain it. *)
Definition fused (key : string) (fts vec : list SearchResult) : Q :=
  match share Rank.ftsWeight key fts, share Rank.vecWeight key vec with
  | Some t, Some v => Double.add t v
  | Some t, None => t
  | None, Some v => v
  | None, None => 0
  end.

(** A row with its score left out. *)
Definition payload (r : SearchResult) : SearchResult := withScore r 0.

(** The [scores] map of either loop of [rrfMerge]. *)
Fixpoint scoresLoop (w k : Q) (i : nat) (rs : list SearchResult)
         (scores : JS.Map Q) : JS.Map Q :=
  match rs with
  | [] => scores
  | r :: rs' =>
      scoresLoop w k (S i) rs'
        (JS.set scores (chunkKey r)
                (Double.add (Rank.orZero (JS.get scores (chunkKey r)))
                            (Rank.term w k i)))
  end.

(** The score of [key] after the rows [rs], the first of which has index
    [i]: every row of that key adds its term to the score so far. *)
Fixpoint accum (w k : Q) (i : nat) (rs : list SearchResult) (key : string)
         (acc : option Q) : option Q :=
  match rs with
  | [] => acc
  | r :: rs' =>
      accum w k (S i) rs' key
            (if String.eqb key (chunkKey r)
             then Some (Double.add (Rank.orZero acc) (Rank.term w k i))
             else acc)
  end.

(** The score of [key] under the default weights: the terms of all its
    rows, those of the text list first, added in the order of the rows. *)
Definition accumulated (key : string) (fts vec : list SearchResult) : Q :=
  Rank.orZero
    (accum Rank.vecWeight Rank.k 0 vec key
           (accum Rank.ftsWeight Rank.k 0 fts key None)).

(** The last row of [key] in a list, and the first one. *)
Fixpoint lastOf (key : string) (rs : list SearchResult)
  : option SearchResult :=
  match rs with
  | [] => None
  | r :: rs' =>
      match lastOf key rs' with
      | Some t => Some t
      | None => if String.eqb key (chunkKey r) then Some r else None
      end
  end.

Definition firstOf (key : string) (rs : list SearchResult)
  : option SearchResult :=
  find (fun r => String.eqb key (chunkKey r)) rs.

(** The row that gives [key] its payload: its last text row, or else its
    first vector row. *)
Definition rowOf (key : string) (fts vec : list SearchResult)
  : option SearchResult :=
  match lastOf key fts with
  | Some t => Some t
  | None => firstOf key vec
  end.

(** The [data] map of the first and of the second loop. *)
Fixpoint dataFts (rs : list SearchResult) (d : JS.Map SearchResult) :=
  match rs with
  | [] => d
  | r :: rs' => dataFts rs' (JS.set d (chunkKey r) r)
  end.

Fixpoint dataVec (rs : list SearchResult) (d : JS.Map SearchResult) :=
  match rs with
  | [] => d
  | r :: rs' =>
      dataVec rs' (if JS.mhas d (chunkKey r) then d else JS.set d (chunkKey r) r)
  end.

Definition scoresOf (fts vec : list SearchResult) : JS.Map Q :=
  scoresLoop Rank.vecWeight Rank.k 0 vec
             (scoresLoop Rank.ftsWeight Rank.k 0 fts []).

Definition dataOf (fts vec : list SearchResult) : JS.Map SearchResult :=
  dataVec vec (dataFts fts []).

(** A result row for examples, as in the tests of [rrfMerge]. *)
Definition sr (key : string) : SearchResult :=
  {| chunkKey := key; filePath := ("/src/" ++ key ++ ".ts")%string; name := key;
     kind := "function"; signature := ("function " ++ key ++ "()")%string;
     snippet := ""; startLine := 1; endLine := 5; score := 1 |}.

(** A text list that repeats the key [b]: its rows differ in the score
    they bring along. *)
Definition repeats : list SearchResult :=
  [sr "a"; sr "b"; withScore (sr "b") 7; withScore (sr "b") 9].

End RankSpec.

(* ================================================================== *)
(** * Vocabulary of the statements about the orchestrator *)
(* ================================================================== *)

(** A computation that never throws the health-check error. *)
Definition quiet {S A} (m : M S A) : Prop :=
  forall s, Index.isUnsearchable (fst (m s)) = false.

(** A computation that leaves [searchVerified] as it found it. *)
Definition keepsFlag {A} (m : M Index.Inst A) : Prop :=
  forall inst,
    Index.searchVerified (snd (m inst)) = Index.searchVerified inst.

(** [f] applied to what a computation returned. *)
Definition mapOk {A B S} (f : A -> B) (x : Res A * S) : Res B * S :=
  match fst x with
  | Ok a => (Ok (f a), snd x)
  | Throw e => (Throw e, snd x)
  end.

(* ================================================================== *)
(** * A small world to run the program in *)
(* ================================================================== *)

Module Fixture.

(** Cosine distance on one-dimensional vectors, where it is exact: 0 for
    two vectors of the same sign, 2 for opposite signs, undefined when one
    is zero. *)
Definition cos1 (a b : list Q) : option Q :=
  match a, b with
  | [x], [y] =>
      if Qeq_bool (x * y) 0 then None
      else if Qle_bool 0 (x * y) then Some 0%Q else Some 2%Q
  | _, _ => None
  end.

(** An engine that never fails; a text matches when the name contains
    the query. *)
Definition host0 : Host :=
  mkHost (fun _ => false) cos1
         (fun name _ q => JS.includes name q)
         (fun _ _ _ => 1%Q)
         1700000000000.

Definition stopWords : list string :=
  ["the"; "a"; "an"; "and"; "or"; "of"; "to"; "in"; "from"; "with"; "want";
   "file"].

(** The tree of a file that holds one three-line function. *)
Definition oneFunction : Chunk.Node :=
  Chunk.mkNode "source_file" 0 2 "fn parse() {}"
    [(None, true,
      Chunk.mkNode "function_item" 0 2 "fn parse() {}"
        [(Some "name", true, Chunk.mkNode "identifier" 0 0 "parse" [])])].

Definition nameOf (n : Chunk.Node) : string :=
  match Chunk.childForFieldName n "name" with
  | Some c => Chunk.text c
  | None => ""
  end.

(** The hash is a stand-in for SHA-256: the content itself. *)
Definition runtime (parse : Chunk.Parser) : Index.Runtime :=
  Index.mkRuntime host0 (fun content => content) parse nameOf
                  (Query.preprocessQuery stopWords).

Definition parses : Chunk.Parser := fun _ _ => Returns (Some oneFunction).
Definition parseFails : Chunk.Parser :=
  fun _ _ => Fails "Language.load: cannot read grammar".

(** An embedder that sends every text to the vector [[x]]. *)
Definition constant (x : Q) (model : string) : Index.CodeIndexOptions :=
  Index.mkOptions (fun texts => Returns (map (fun _ => [x]) texts)) model.

(** A directory [/r] that holds the one file [parse.rs]. *)
Definition disk : Index.Disk :=
  Index.mkDisk
    (Some [Walker.File "parse.rs" (inl 13%Z) (inl "fn parse() {}")]) "".

(** A fresh instance over a new database file of a few pages. *)
Definition empty : Index.Inst :=
  Index.mkInst (Store.mkDB Store.emptyTables None 0 (Some 40960%Z)) false.

Definition noOptions : Index.IndexOptions := Index.mkIndexOptions None.

(** The instance after [/r] was indexed with model A, whose embedder
    sends every text to [[1]]. *)
Definition indexedA : Index.Inst :=
  snd (Index.index (runtime parses) (constant 1 "model-A") "/r" disk
                   noOptions empty).

Definition opts (m : Index.SearchMode) (t : option Q) : Index.SearchOptions :=
  Index.mkSearchOptions None t None (Some m).

(** The same directory with a second file. *)
Definition diskWithNewFile : Index.Disk :=
  Index.mkDisk
    (Some [Walker.File "parse.rs" (inl 13%Z) (inl "fn parse() {}");
           Walker.File "other.rs" (inl 14%Z) (inl "fn parse2() {}")]) "".

(** A directory whose subdirectory [src] cannot be read. *)
Definition diskUnreadable : Index.Disk :=
  Index.mkDisk
    (Some [Walker.Dir "src" None "Error: EACCES: permission denied"]) "".

(** An embedder that cannot be reached. *)
Definition offline (model : string) : Index.CodeIndexOptions :=
  Index.mkOptions (fun _ => Fails "fetch failed") model.

(** The directory [/r] holds [a.rs] and [s/t/u/b.rs]; [/r/s], [/r/s/t] and
    [/r/s/t/u] are indexed as roots of their own. *)
Definition diskU : Index.Disk :=
  Index.mkDisk
    (Some [Walker.File "b.rs" (inl 13%Z) (inl "fn parse() {}")]) "".

Definition diskT : Index.Disk :=
  Index.mkDisk (Some [Walker.Dir "u" (Index.rootListing diskU) ""]) "".

Definition diskS : Index.Disk :=
  Index.mkDisk (Some [Walker.Dir "t" (Index.rootListing diskT) ""]) "".

Definition diskR : Index.Disk :=
  Index.mkDisk
    (Some [Walker.File "a.rs" (inl 13%Z) (inl "fn parse() {}");
           Walker.Dir "s" (Index.rootListing diskS) ""]) "".

(** The instance after [/r], [/r/s] and [/r/s/t] were indexed, and the
    indexing of [/r/s/t/u] failed for want of the embedder. *)
Definition nested : Index.Inst :=
  let run dir disk O inst :=
    snd (Index.index (runtime parses) O dir disk noOptions inst) in
  run "/r/s/t/u" diskU (offline "model-A")
      (run "/r/s/t" diskT (constant 1 "model-A")
           (run "/r/s" diskS (constant 1 "model-A")
                (run "/r" diskR (constant 1 "model-A") empty))).

(** An instance over a database file of 5 MB in which one codebase is
    registered and no chunk is visible. *)
Definition locked : Index.Inst :=
  Index.mkInst
    (Store.mkDB
       (Store.mkTables [Store.codebases.mk 1 "/r" "r" 1700000000000]
                       [] [] [] 1 0 0)
       None 0 (Some 5000000%Z))
    false.

End Fixture.

(* ================================================================== *)
(** * Vocabulary of the statements about the chunker and the store *)
(* ================================================================== *)

Module WalkerSpec.

(** One line of the .gitignore, as the loop of [loadIgnorePatterns]
    treats it. *)
Definition addLine (patterns : list string) (line : string) : list string :=
  let trimmed := JS.trim line in
  if negb (JS.truthy trimmed) || JS.startsWith "#" trimmed then patterns
  else
    let clean := Walker.stripTrailingSlash trimmed in
    if JS.truthy clean && negb (JS.includes clean "*")
    then JS.add patterns clean
    else patterns.

End WalkerSpec.

Module ChunkSpec.

(** The number of lines a chunk spans. *)
Definition span (ch : Chunk.CodeChunk) : Z :=
  (Chunk.endLine ch - Chunk.startLine ch + 1)%Z.

(** The declaration that decides the kind and the split of a child of the
    root: the inner declaration of an export statement, of a decorated
    definition or of a template declaration, else the node itself. *)
Definition unwrapped (node : Chunk.Node) : Chunk.Node :=
  if Chunk.eq (Chunk.type node) "export_statement" then
    match Chunk.unwrapExport node with Some inner => inner | None => node end
  else if Chunk.eq (Chunk.type node) "decorated_definition" then
    match Chunk.childForFieldName node "definition" with
    | Some inner => inner
    | None => node
    end
  else if Chunk.eq (Chunk.type node) "template_declaration" then
    match find (fun ch => negb (Chunk.eq (Chunk.type ch)
                                         "template_parameter_list"))
               (Chunk.namedChildren node) with
    | Some inner => inner
    | None => node
    end
  else node.

(** A C function of 200 lines: its declarator is a child whose kind
    contains [function]. *)
Definition longFunction : Chunk.Node :=
  Chunk.mkNode "function_definition" 0 199 "int main(void) { /* ... */ }"
    [(Some "type", true, Chunk.mkNode "primitive_type" 0 0 "int" []);
     (Some "declarator", true,
      Chunk.mkNode "function_declarator" 0 0 "main(void)" []);
     (Some "body", true,
      Chunk.mkNode "compound_statement" 0 199 "{ /* ... */ }" [])].

Definition ctxOf (config : Lang.LanguageConfig) : Chunk.Ctx :=
  Chunk.mkCtx "/r/main.c" "h" config ["int main(void) { /* ... */ }"]
              (fun _ => "main").

(** A Python class of 200 lines without any member. *)
Definition longClass : Chunk.Node :=
  Chunk.mkNode "class_definition" 0 199 "class A: ..."
    [(Some "name", true, Chunk.mkNode "identifier" 0 0 "A" [])].

(** A TypeScript class of 400 lines with three methods in its body
    (scenario S3 of the specification). *)
Definition method (name : string) (first last : Z) : Chunk.Node :=
  Chunk.mkNode "method_definition" first last (name ++ "() {}")%string
    [(Some "name", true,
      Chunk.mkNode "property_identifier" first first name [])].

Definition bigClass : Chunk.Node :=
  Chunk.mkNode "class_declaration" 0 399 "class A { /* ... */ }"
    [(None, false, Chunk.mkNode "class" 0 0 "class" []);
     (Some "name", true, Chunk.mkNode "type_identifier" 0 0 "A" []);
     (Some "body", true,
      Chunk.mkNode "class_body" 0 399 "{ /* ... */ }"
        [(None, false, Chunk.mkNode "{" 0 0 "{" []);
         (None, true, method "m1" 1 100);
         (None, true, method "m2" 101 250);
         (None, true, method "m3" 251 398);
         (None, false, Chunk.mkNode "}" 399 399 "}" [])])].

End ChunkSpec.

Module StoreSpec.

(** The tables after the statements of one listed file. *)
Definition upsertedFile (codebaseId now : Z) (t : Store.Tables)
           (fc : Store.FileChunks) : Store.Tables :=
  Store.upsertFile codebaseId (Store.fcPath fc) (Store.fcHash fc)
    (Z.of_nat (List.length (Store.fcChunks fc))) now
    (fold_left (fun t c => Store.insertChunk codebaseId now c t)
               (Store.fcChunks fc)
               (Store.deleteChunks codebaseId (Store.fcPath fc) t)).

(** The tables after the statements of every listed file, in order. *)
Definition upsertedFiles (codebaseId now : Z) (fcs : list Store.FileChunks)
           (t : Store.Tables) : Store.Tables :=
  fold_left (upsertedFile codebaseId now) fcs t.

(** The tables after the [INSERT]s of the chunks [cs]. *)
Definition inserted (codebaseId now : Z) (cs : list Chunk.CodeChunk)
           (t : Store.Tables) : Store.Tables :=
  fold_left (fun t c => Store.insertChunk codebaseId now c t) cs t.

(** [m] is a sequence of statements that leaves the open transaction
    alone and, when no statement fails, changes the tables by [f]. *)
Definition runs (H : Host) (m : M Store.DB unit)
           (f : Store.Tables -> Store.Tables) : Prop :=
  forall db,
    Store.snapshot (snd (m db)) = Store.snapshot db /\
    (forall u, fst (m db) = Ok u ->
               Store.tables (snd (m db)) = f (Store.tables db)) /\
    ((forall n, fails H n = false) -> fst (m db) = Ok tt).

(** One chunk, for examples. *)
Definition chunkAt (path : string) (first last : Z) : Chunk.CodeChunk :=
  Chunk.mkChunk (path ++ ":" ++ showZ first ++ ":" ++ showZ last)%string path
                "rust" "function" "f" "fn f()" "fn f() {}" first last "h".

(** An engine whose third statement of a call fails. *)
Definition failing : Host :=
  mkHost (fun n => (n =? 5)%nat) Fixture.cos1 (fun _ _ _ => false)
         (fun _ _ _ => 0%Q) 1700000000001.

End StoreSpec.

(* ================================================================== *)
(** * Vocabulary of the further statements *)
(* ================================================================== *)

Module ExtraSpec.

(** A host whose engine never fails a statement. *)
Definition noFail (H : Host) : Prop := forall n, fails H n = false.

(** On an engine that never fails, [m] returns the value and reaches the
    tables that [g] computes from the tables it starts on, and leaves the
    database file alone. *)
Definition computes {A} (H : Host) (m : M Store.DB A)
           (g : Store.Tables -> A * Store.Tables) : Prop :=
  noFail H ->
  forall db,
    fst (m db) = Ok (fst (g (Store.tables db))) /\
    Store.tables (snd (m db)) = snd (g (Store.tables db)) /\
    Store.fileSize (snd (m db)) = Store.fileSize db.

(** [m] leaves the open transaction alone. *)
Definition keepsSnapshot {A} (m : M Store.DB A) : Prop :=
  forall db, Store.snapshot (snd (m db)) = Store.snapshot db.

(** [m] never changes the tables, returning or throwing. *)
Definition readsOnly {A} (m : M Store.DB A) : Prop :=
  forall db, Store.tables (snd (m db)) = Store.tables db.

(** The rows of [indexed_files] for a path of a codebase all carry the
    hash [h] and the count [n], and there is one. *)
Definition hashed (codebaseId : Z) (p h : string) (n : Z) (t : Store.Tables)
  : Prop :=
  (exists r, In r (Store.t_indexed_files t) /\
             Store.fileOf codebaseId p r = true) /\
  (forall r, In r (Store.t_indexed_files t) ->
             Store.fileOf codebaseId p r = true ->
             Store.indexed_files.file_hash r = h /\
             Store.indexed_files.chunk_count r = n).

(** The paths [removeStaleFiles] finds stored for the codebase and absent
    from the active set. *)
Definition stalePaths (codebaseId : Z) (activeFiles : list string)
           (t : Store.Tables) : list string :=
  filter (fun p => negb (JS.has activeFiles p))
         (map Store.indexed_files.file_path
              (filter (fun r => (Store.indexed_files.codebase_id r =?
                                 codebaseId)%Z)
                      (Store.t_indexed_files t))).

(** One turn of the loop of [removeStaleFiles] on the count and the
    tables. *)
Definition removeStep (codebaseId : Z) (activeFiles : list string)
           (st : nat * Store.Tables) (file_path : string)
  : nat * Store.Tables :=
  if negb (JS.has activeFiles file_path)
  then (S (fst st),
        Store.setFiles
          (Store.deleteChunks codebaseId file_path (snd st))
          (filter (fun r => negb (Store.fileOf codebaseId file_path r))
                  (Store.t_indexed_files
                     (Store.deleteChunks codebaseId file_path (snd st))))
          (Store.seq_indexed_files
             (Store.deleteChunks codebaseId file_path (snd st))))
  else st.

(** [m] never changes the tables, and what it returns satisfies [P] of
    the tables. *)
Definition yields {A} (m : M Store.DB A) (P : Store.Tables -> A -> Prop)
  : Prop :=
  forall db,
    Store.tables (snd (m db)) = Store.tables db /\
    forall a, fst (m db) = Ok a -> P (Store.tables db) a.

(** The same for a computation on an instance. *)
Definition yieldsI {A} (m : M Index.Inst A)
           (P : Store.Tables -> A -> Prop) : Prop :=
  forall inst,
    Store.tables (Index.store (snd (m inst))) =
    Store.tables (Index.store inst) /\
    forall a, fst (m inst) = Ok a -> P (Store.tables (Index.store inst)) a.

(** On an engine that never fails, [m] returns. *)
Definition returns {S A} (H : Host) (m : M S A) : Prop :=
  noFail H -> forall s, exists a, fst (m s) = Ok a.

(** A result row that shows a chunk of the tables, without its snippet
    unless snippets were asked for. *)
Definition showsChunk (includeSnippet : bool) (t : Store.Tables)
           (r : SearchResult) : Prop :=
  (exists row, In row (Store.t_chunks t) /\
               Store.chunks.chunk_key row = chunkKey r /\
               Store.chunks.file_path row = filePath r /\
               Store.chunks.start_line row = startLine r /\
               Store.chunks.end_line row = endLine r) /\
  (includeSnippet = false -> snippet r = "").

(** A store with two embedded chunks of one codebase and its FTS
    table, for examples. *)
Definition twoChunks : Store.DB :=
  snd ((Store.getOrCreateCodebase Fixture.host0 "/r" ;;;
        Store.batchUpsertAllFileChunks Fixture.host0 1
          [Store.mkFileChunks "/r/a.rs" "h1" [StoreSpec.chunkAt "/r/a.rs" 1 2];
           Store.mkFileChunks "/r/b.rs" "h2" [StoreSpec.chunkAt "/r/b.rs" 1 3]] ;;;
        Store.batchUpsertEmbeddings Fixture.host0
          [Store.mkItem "/r/a.rs:1:2" (Some [(-1)%Q]) "m";
           Store.mkItem "/r/b.rs:1:3" (Some [1%Q]) "m"] ;;;
        Store.rebuildFtsTable Fixture.host0 1)
         (Store.mkDB Store.emptyTables None 0 None)).

End ExtraSpec.

(* ================================================================== *)
(** * Theorems *)
(* ================================================================== *)

Import RankSpec WalkerSpec ChunkSpec StoreSpec ExtraSpec.

(** ** Binary64 rounding *)

Section DoubleFacts.
Local Open Scope Q_scope.

Lemma pow2_pos e : 0 < Double.pow2 e.
Proof. unfold Double.pow2. apply Qpower_0_lt. reflexivity. Qed.

Lemma pow2_add a b : Double.pow2 (a + b) == Double.pow2 a * Double.pow2 b.
Proof. unfold Double.pow2. apply Qpower_plus. discriminate. Qed.

Lemma pow2_opp a : Double.pow2 (- a) == / Double.pow2 a.
Proof. unfold Double.pow2. apply Qpower_opp. Qed.

Lemma pow2_inv a : Double.pow2 a * Double.pow2 (- a) == 1.
Proof.
  rewrite <- pow2_add. replace (a + - a)%Z with 0%Z by lia. reflexivity.
Qed.

Lemma pow2_le a b : (a <= b)%Z -> Double.pow2 a <= Double.pow2 b.
Proof. intros H. unfold Double.pow2. apply Qpower_le_compat_l; [exact H|]. discriminate. Qed.

Lemma pow2_lt a b : (a < b)%Z -> Double.pow2 a < Double.pow2 b.
Proof. intros H. unfold Double.pow2. apply Qpower_lt_compat_l; [exact H|]. reflexivity. Qed.

Lemma pow2_lt_inv a b : Double.pow2 a < Double.pow2 b -> (a < b)%Z.
Proof. intros H. unfold Double.pow2 in H. eapply Qpower_lt_compat_l_inv; eauto. reflexivity. Qed.

Lemma pow2_Z a : (0 <= a)%Z -> Double.pow2 a == inject_Z (2 ^ a).
Proof. intros H. unfold Double.pow2. rewrite Zpower_Qpower by auto. reflexivity. Qed.

Lemma ilog2_spec x : 0 < x -> Double.pow2 (Double.ilog2 x) <= x /\ x < Double.pow2 (Double.ilog2 x + 1).
Proof.
  intros Hx. destruct x as [n d]. unfold Double.ilog2. cbn [Qnum Qden].
  assert (Hn : (0 < n)%Z).
  { unfold Qlt in Hx. simpl in Hx. lia. }
  set (a := Z.log2 n). set (b := Z.log2 (Zpos d)).
  assert (Ha : (2 ^ a <= n < 2 ^ (a + 1))%Z).
  { pose proof (Z.log2_spec n Hn). unfold a. replace (Z.log2 n + 1)%Z with (Z.succ (Z.log2 n)) by lia. lia. }
  assert (Hb : (2 ^ b <= Zpos d < 2 ^ (b + 1))%Z).
  { pose proof (Z.log2_spec (Zpos d) ltac:(lia)). unfold b.
    replace (Z.log2 (Zpos d) + 1)%Z with (Z.succ (Z.log2 (Zpos d))) by lia. lia. }
  assert (Ha0 : (0 <= a)%Z) by apply Z.log2_nonneg.
  assert (Hb0 : (0 <= b)%Z) by apply Z.log2_nonneg.
  assert (E : n # d == inject_Z n / inject_Z (Zpos d)) by apply Qmake_Qdiv.
  assert (Hd : 0 < inject_Z (Zpos d)) by reflexivity.
  assert (Qa1 : Double.pow2 a <= inject_Z n).
  { rewrite pow2_Z by auto. rewrite <- Zle_Qle. lia. }
  assert (Qa2 : inject_Z n < Double.pow2 (a + 1)).
  { rewrite pow2_Z by lia. rewrite <- Zlt_Qlt. lia. }
  assert (Qb1 : Double.pow2 b <= inject_Z (Zpos d)).
  { rewrite pow2_Z by auto. rewrite <- Zle_Qle. lia. }
  assert (Qb2 : inject_Z (Zpos d) < Double.pow2 (b + 1)).
  { rewrite pow2_Z by lia. rewrite <- Zlt_Qlt. lia. }
  (* upper: n/d < 2^(a-b+1) ; lower: 2^(a-b-1) <= n/d *)
  assert (Up : n # d < Double.pow2 (a - b + 1)).
  { rewrite E. apply Qlt_shift_div_r; auto.
    replace (a - b + 1)%Z with ((a + 1) + - b)%Z by lia.
    rewrite pow2_add.
    apply Qlt_le_trans with (Double.pow2 (a + 1)); auto.
    rewrite <- (Qmult_1_r (Double.pow2 (a + 1))) at 1.
    rewrite <- Qmult_assoc. apply Qmult_le_l; [apply pow2_pos|].
    rewrite <- (pow2_inv b). rewrite (Qmult_comm (Double.pow2 b)).
    apply Qmult_le_l; [apply pow2_pos|]. exact Qb1. }
  assert (Lo : Double.pow2 (a - b - 1) <= n # d).
  { rewrite E. apply Qle_shift_div_l; auto.
    replace (a - b - 1)%Z with (a + - (b + 1))%Z by lia.
    rewrite pow2_add.
    apply Qle_trans with (Double.pow2 a); auto.
    rewrite <- (Qmult_1_r (Double.pow2 a)) at 2.
    rewrite <- Qmult_assoc. apply Qmult_le_l; [apply pow2_pos|].
    rewrite <- (pow2_inv (b + 1)). rewrite (Qmult_comm (Double.pow2 (b + 1))).
    apply Qmult_le_l; [apply pow2_pos|]. apply Qlt_le_weak. exact Qb2. }
  destruct (Qle_bool (Double.pow2 (a - b)) (n # d)) eqn:T.
  - apply Qle_bool_iff in T. split; auto.
  - split.
    + exact Lo.
    + replace (a - b - 1 + 1)%Z with (a - b)%Z by lia.
      apply Qnot_le_lt. intros C. apply Qle_bool_iff in C. congruence.
Qed.

Lemma ilog2_unique x k : Double.pow2 k <= x -> x < Double.pow2 (k + 1) -> Double.ilog2 x = k.
Proof.
  intros H1 H2.
  assert (Hx : 0 < x) by (eapply Qlt_le_trans; [apply (pow2_pos k)|exact H1]).
  destruct (ilog2_spec x Hx) as [L U].
  assert (Double.ilog2 x < k + 1)%Z.
  { apply pow2_lt_inv. eapply Qle_lt_trans; eauto. }
  assert (k < Double.ilog2 x + 1)%Z.
  { apply pow2_lt_inv. eapply Qle_lt_trans; eauto. }
  lia.
Qed.

Lemma ilog2_comp x y : 0 < x -> x == y -> Double.ilog2 x = Double.ilog2 y.
Proof.
  intros Hx E. symmetry. destruct (ilog2_spec x Hx) as [L U].
  apply ilog2_unique; rewrite <- E; auto.
Qed.

Lemma ilog2_mono x y : 0 < x -> x <= y -> (Double.ilog2 x <= Double.ilog2 y)%Z.
Proof.
  intros Hx Hxy.
  assert (Hy : 0 < y) by (eapply Qlt_le_trans; eauto).
  destruct (ilog2_spec x Hx) as [L _]. destruct (ilog2_spec y Hy) as [_ U].
  assert (Double.ilog2 x < Double.ilog2 y + 1)%Z.
  { apply pow2_lt_inv. eapply Qle_lt_trans; [exact L|].
    eapply Qle_lt_trans; eauto. }
  lia.
Qed.

(** ** Nearest integer *)

Lemma rne_comp x y : x == y -> Double.rne x = Double.rne y.
Proof.
  intros E. unfold Double.rne. rewrite (Qfloor_comp _ _ E).
  assert (C : (x - inject_Z (Qfloor y) ?= 1 # 2) =
              (y - inject_Z (Qfloor y) ?= 1 # 2)).
  { apply Qcompare_comp; [|reflexivity]. now rewrite E. }
  now rewrite C.
Qed.

Lemma rne_Z z : Double.rne (inject_Z z) = z.
Proof.
  unfold Double.rne. rewrite Qfloor_Z.
  assert (C : (inject_Z z - inject_Z z ?= 1 # 2) = Lt).
  { rewrite <- Qlt_alt. ring_simplify. reflexivity. }
  now rewrite C.
Qed.

Lemma rne_int x z : x == inject_Z z -> Double.rne x = z.
Proof. intros E. rewrite (rne_comp _ _ E). apply rne_Z. Qed.

Lemma floor_bounds x :
  inject_Z (Qfloor x) <= x /\ x < inject_Z (Qfloor x) + 1.
Proof.
  split; [apply Qfloor_le|].
  pose proof (Qlt_floor x) as H. rewrite inject_Z_plus in H. exact H.
Qed.

Lemma rne_cases x :
  (Double.rne x = Qfloor x /\ x - inject_Z (Qfloor x) <= 1 # 2) \/
  (Double.rne x = (Qfloor x + 1)%Z /\ 1 # 2 <= x - inject_Z (Qfloor x)).
Proof.
  unfold Double.rne.
  destruct (x - inject_Z (Qfloor x) ?= 1 # 2) eqn:C.
  - rewrite <- Qeq_alt in C. destruct (Z.even (Qfloor x)); [left|right];
      split; auto; rewrite C; apply Qle_refl.
  - rewrite <- Qlt_alt in C. left. split; auto. now apply Qlt_le_weak.
  - rewrite <- Qgt_alt in C. right. split; auto. now apply Qlt_le_weak.
Qed.

Lemma rne_err x :
  x - (1 # 2) <= inject_Z (Double.rne x) /\ inject_Z (Double.rne x) <= x + (1 # 2).
Proof.
  destruct (floor_bounds x) as [L U].
  destruct (rne_cases x) as [[-> H]|[-> H]].
  - split; lra.
  - rewrite inject_Z_plus. change (inject_Z 1) with 1. split; lra.
Qed.

Lemma rne_mono x y : x <= y -> (Double.rne x <= Double.rne y)%Z.
Proof.
  intros Hxy.
  pose proof (Qfloor_resp_le _ _ Hxy) as Hf.
  destruct (floor_bounds x) as [Lx Ux]. destruct (floor_bounds y) as [Ly Uy].
  destruct (Z.eq_dec (Qfloor x) (Qfloor y)) as [E|NE].
  - unfold Double.rne. rewrite <- E.
    destruct (x - inject_Z (Qfloor x) ?= 1 # 2) eqn:Cx;
      destruct (y - inject_Z (Qfloor x) ?= 1 # 2) eqn:Cy;
      try destruct (Z.even (Qfloor x)); try lia;
      repeat match goal with
             | H : (_ ?= _) = Eq |- _ => rewrite <- Qeq_alt in H
             | H : (_ ?= _) = Lt |- _ => rewrite <- Qlt_alt in H
             | H : (_ ?= _) = Gt |- _ => rewrite <- Qgt_alt in H
             end; exfalso; lra.
  - assert (Qfloor x + 1 <= Qfloor y)%Z by lia.
    assert (Double.rne x <= Qfloor x + 1)%Z.
    { destruct (rne_cases x) as [[-> _]|[-> _]]; lia. }
    assert (Qfloor y <= Double.rne y)%Z.
    { destruct (rne_cases y) as [[-> _]|[-> _]]; lia. }
    lia.
Qed.

(** ** Rounding of a positive number *)

Lemma expo_ge x : (-1074 <= Double.expo x)%Z.
Proof. unfold Double.expo. lia. Qed.

Lemma expo_comp x y : 0 < x -> x == y -> Double.expo x = Double.expo y.
Proof. intros Hx E. unfold Double.expo. now rewrite (ilog2_comp x y Hx E). Qed.

Lemma expo_mono x y : 0 < x -> x <= y -> (Double.expo x <= Double.expo y)%Z.
Proof. intros Hx H. unfold Double.expo. pose proof (ilog2_mono x y Hx H). lia. Qed.

Lemma mul_pow2_le a b e : a <= b -> a * Double.pow2 e <= b * Double.pow2 e.
Proof.
  intros H. apply Qmult_le_compat_r; auto. apply Qlt_le_weak, pow2_pos.
Qed.

Lemma mul_pow2_lt a b e : a < b -> a * Double.pow2 e < b * Double.pow2 e.
Proof. intros H. apply Qmult_lt_compat_r; auto. apply pow2_pos. Qed.

Lemma scale_back a e : a * Double.pow2 (- e) * Double.pow2 e == a.
Proof.
  rewrite <- Qmult_assoc, (Qmult_comm (Double.pow2 (- e))), pow2_inv. ring.
Qed.

(** The scaled number lies below [2^53], and at or above [2^52] in the
    normal range. *)
Lemma scaled_lt x : 0 < x -> x * Double.pow2 (- Double.expo x) < Double.pow2 53.
Proof.
  intros Hx. destruct (ilog2_spec x Hx) as [_ U].
  assert (H : Double.pow2 (Double.ilog2 x + 1) <= Double.pow2 (Double.expo x + 53)).
  { apply pow2_le. unfold Double.expo. lia. }
  assert (H2 : x < Double.pow2 53 * Double.pow2 (Double.expo x)).
  { rewrite <- pow2_add. replace (53 + Double.expo x)%Z with (Double.expo x + 53)%Z by lia.
    eapply Qlt_le_trans; eauto. }
  apply (mul_pow2_lt _ _ (- Double.expo x)) in H2.
  rewrite <- Qmult_assoc, pow2_inv, Qmult_1_r in H2. exact H2.
Qed.

Lemma scaled_ge x :
  0 < x -> Double.expo x = (Double.ilog2 x - 52)%Z -> Double.pow2 52 <= x * Double.pow2 (- Double.expo x).
Proof.
  intros Hx He. destruct (ilog2_spec x Hx) as [L _].
  assert (H2 : Double.pow2 52 * Double.pow2 (Double.expo x) <= x).
  { rewrite <- pow2_add. replace (52 + Double.expo x)%Z with (Double.ilog2 x) by lia.
    exact L. }
  apply (mul_pow2_le _ _ (- Double.expo x)) in H2.
  rewrite <- Qmult_assoc, pow2_inv, Qmult_1_r in H2. exact H2.
Qed.

Lemma pow2_53 : Double.pow2 53 == inject_Z (2 ^ 53).
Proof. apply pow2_Z. lia. Qed.

Lemma pow2_52 : Double.pow2 52 == inject_Z (2 ^ 52).
Proof. apply pow2_Z. lia. Qed.

Lemma mant_le x : 0 < x -> (Double.rne (x * Double.pow2 (- Double.expo x)) <= 2 ^ 53)%Z.
Proof.
  intros Hx. rewrite <- (rne_Z (2 ^ 53)). apply rne_mono.
  rewrite <- pow2_53. apply Qlt_le_weak. now apply scaled_lt.
Qed.

Lemma mant_ge x :
  0 < x -> Double.expo x = (Double.ilog2 x - 52)%Z ->
  (2 ^ 52 <= Double.rne (x * Double.pow2 (- Double.expo x)))%Z.
Proof.
  intros Hx He. rewrite <- (rne_Z (2 ^ 52)). apply rne_mono.
  rewrite <- pow2_52. now apply scaled_ge.
Qed.

Lemma mant_nonneg x : 0 < x -> (0 <= Double.rne (x * Double.pow2 (- Double.expo x)))%Z.
Proof.
  intros Hx. rewrite <- (rne_Z 0). apply rne_mono.
  apply Qmult_le_0_compat; apply Qlt_le_weak; auto. apply pow2_pos.
Qed.

Lemma roundPos_nonneg x : 0 < x -> 0 <= Double.roundPos x.
Proof.
  intros Hx. unfold Double.roundPos. apply Qmult_le_0_compat.
  - change 0 with (inject_Z 0). rewrite <- Zle_Qle. now apply mant_nonneg.
  - apply Qlt_le_weak, pow2_pos.
Qed.

Lemma roundPos_comp x y : 0 < x -> x == y -> Double.roundPos x == Double.roundPos y.
Proof.
  intros Hx E. unfold Double.roundPos. rewrite (expo_comp x y Hx E).
  assert (R : Double.rne (x * Double.pow2 (- Double.expo y)) = Double.rne (y * Double.pow2 (- Double.expo y))).
  { apply rne_comp. now rewrite E. }
  now rewrite R.
Qed.

Lemma roundPos_mono x y : 0 < x -> x <= y -> Double.roundPos x <= Double.roundPos y.
Proof.
  intros Hx Hxy.
  assert (Hy : 0 < y) by (eapply Qlt_le_trans; eauto).
  pose proof (expo_mono x y Hx Hxy) as He.
  destruct (Z.eq_dec (Double.expo x) (Double.expo y)) as [E|NE].
  - unfold Double.roundPos. rewrite E. apply mul_pow2_le.
    rewrite <- Zle_Qle. apply rne_mono. now apply mul_pow2_le.
  - assert (Hlt : (Double.expo x + 1 <= Double.expo y)%Z) by lia.
    assert (Hn : Double.expo y = (Double.ilog2 y - 52)%Z).
    { pose proof (expo_ge x). unfold Double.expo in *. lia. }
    apply Qle_trans with (Double.pow2 (Double.expo x + 53)).
    + unfold Double.roundPos. rewrite (Z.add_comm (Double.expo x)), pow2_add.
      apply mul_pow2_le. rewrite pow2_53, <- Zle_Qle. now apply mant_le.
    + apply Qle_trans with (Double.pow2 (Double.expo y + 52)).
      * apply pow2_le. lia.
      * unfold Double.roundPos. rewrite (Z.add_comm (Double.expo y)), pow2_add.
        apply mul_pow2_le. rewrite pow2_52, <- Zle_Qle. now apply mant_ge.
Qed.

(** ** Rounding *)

Lemma round_0 : Double.round 0 = 0.
Proof. reflexivity. Qed.

Lemma round_pos x : 0 < x -> Double.round x == Double.roundPos x.
Proof.
  intros Hx. unfold Double.round. rewrite Qred_correct.
  assert (C : (x ?= 0) = Gt) by (rewrite <- Qgt_alt; exact Hx).
  now rewrite C.
Qed.

Lemma round_neg x : x < 0 -> Double.round x == - Double.roundPos (- x).
Proof.
  intros Hx. unfold Double.round. rewrite Qred_correct.
  assert (C : (x ?= 0) = Lt) by (rewrite <- Qlt_alt; exact Hx).
  now rewrite C.
Qed.

Lemma round_zero x : x == 0 -> Double.round x == 0.
Proof.
  intros Hx. unfold Double.round. rewrite Qred_correct.
  assert (C : (x ?= 0) = Eq) by (rewrite <- Qeq_alt; exact Hx).
  now rewrite C.
Qed.

Lemma round_comp_eq x y : x == y -> Double.round x == Double.round y.
Proof.
  intros E. destruct (Q_dec x 0) as [[H|H]|H].
  - rewrite (round_neg x H). assert (H' : y < 0) by now rewrite <- E.
    rewrite (round_neg y H'). apply Qopp_comp. apply roundPos_comp.
    + lra.
    + now rewrite E.
  - rewrite (round_pos x H). assert (H' : 0 < y) by now rewrite <- E.
    rewrite (round_pos y H'). now apply roundPos_comp.
  - rewrite (round_zero x H). assert (H' : y == 0) by now rewrite <- E.
    now rewrite (round_zero y H').
Qed.

(** Equal rationals Double.round to the same (reduced) fraction. *)
Lemma round_comp x y : x == y -> Double.round x = Double.round y.
Proof.
  intros E. pose proof (round_comp_eq x y E) as H.
  unfold Double.round in *. rewrite !Qred_correct in H. now apply Qred_complete.
Qed.

Lemma round_nonneg x : 0 <= x -> 0 <= Double.round x.
Proof.
  intros Hx. destruct (Qle_lt_or_eq _ _ Hx) as [H|H].
  - rewrite (round_pos x H). now apply roundPos_nonneg.
  - rewrite (round_zero x); [apply Qle_refl|]. now symmetry.
Qed.

Lemma round_nonpos x : x <= 0 -> Double.round x <= 0.
Proof.
  intros Hx. destruct (Qle_lt_or_eq _ _ Hx) as [H|H].
  - rewrite (round_neg x H).
    assert (0 <= Double.roundPos (- x)) by (apply roundPos_nonneg; lra). lra.
  - rewrite (round_zero x); [apply Qle_refl|]. exact H.
Qed.

Lemma round_mono x y : x <= y -> Double.round x <= Double.round y.
Proof.
  intros Hxy. destruct (Q_dec x 0) as [[Hx|Hx]|Hx].
  - destruct (Qlt_le_dec y 0) as [Hy|Hy].
    + rewrite (round_neg x Hx), (round_neg y Hy).
      assert (Double.roundPos (- y) <= Double.roundPos (- x)) by (apply roundPos_mono; lra).
      lra.
    + apply Qle_trans with 0; [apply round_nonpos; lra|now apply round_nonneg].
  - assert (Hy : 0 < y) by lra.
    rewrite (round_pos x Hx), (round_pos y Hy). now apply roundPos_mono.
  - rewrite (round_zero x Hx). apply round_nonneg. lra.
Qed.

(** ** Numbers that rounding keeps *)

(** A number whose scaling is an integer is a binary64 number. *)
Lemma roundPos_exact x z :
  0 < x -> x * Double.pow2 (- Double.expo x) == inject_Z z -> Double.roundPos x == x.
Proof.
  intros Hx E. unfold Double.roundPos. rewrite (rne_int _ _ E), <- E.
  apply scale_back.
Qed.

Lemma log2_pow2 M e :
  (0 < M)%Z -> Double.ilog2 (inject_Z M * Double.pow2 e) = (Z.log2 M + e)%Z.
Proof.
  intros HM. pose proof (Z.log2_spec M HM) as [L U].
  pose proof (Z.log2_nonneg M) as H0.
  apply ilog2_unique.
  - rewrite pow2_add. apply mul_pow2_le.
    rewrite pow2_Z by auto. now rewrite <- Zle_Qle.
  - replace (Z.log2 M + e + 1)%Z with ((Z.log2 M + 1) + e)%Z by lia.
    rewrite pow2_add. apply mul_pow2_lt.
    rewrite pow2_Z by lia. rewrite <- Zlt_Qlt.
    replace (Z.log2 M + 1)%Z with (Z.succ (Z.log2 M)) by lia. exact U.
Qed.

Lemma roundPos_repr M e :
  (0 < M <= 2 ^ 53)%Z -> (-1074 <= e)%Z ->
  Double.roundPos (inject_Z M * Double.pow2 e) == inject_Z M * Double.pow2 e.
Proof.
  intros [HM HM53] He.
  assert (Hx : 0 < inject_Z M * Double.pow2 e).
  { apply Qmult_lt_0_compat; [|apply pow2_pos].
    change 0 with (inject_Z 0). now rewrite <- Zlt_Qlt. }
  pose proof (log2_pow2 M e HM) as Hl.
  pose proof (Z.log2_nonneg M) as H0.
  assert (Hl53 : (Z.log2 M <= 53)%Z).
  { change 53%Z with (Z.log2 (2 ^ 53)). now apply Z.log2_le_mono. }
  destruct (Z.eq_dec (Z.log2 M) 53) as [E53|N53].
  - (* M = 2^53 *)
    assert (EM : M = (2 ^ 53)%Z).
    { pose proof (Z.log2_spec M HM) as [L _]. rewrite E53 in L. lia. }
    subst M.
    assert (Ex : Double.expo (inject_Z (2 ^ 53) * Double.pow2 e) = (e + 1)%Z).
    { unfold Double.expo. rewrite Hl, E53. lia. }
    apply roundPos_exact with (z := (2 ^ 52)%Z); auto.
    rewrite Ex. rewrite <- Qmult_assoc, <- pow2_add.
    replace (e + - (e + 1))%Z with (-1)%Z by lia. reflexivity.
  - assert (Ex : (Double.expo (inject_Z M * Double.pow2 e) <= e)%Z).
    { unfold Double.expo. rewrite Hl. lia. }
    set (d := (e - Double.expo (inject_Z M * Double.pow2 e))%Z).
    apply roundPos_exact with (z := (M * 2 ^ d)%Z); auto.
    rewrite <- Qmult_assoc, <- pow2_add.
    replace (e + - Double.expo (inject_Z M * Double.pow2 e))%Z with d by (unfold d; lia).
    rewrite pow2_Z by (unfold d; lia). now rewrite inject_Z_mult.
Qed.

Lemma roundPos_idem x :
  0 < x -> 0 < Double.roundPos x -> Double.roundPos (Double.roundPos x) == Double.roundPos x.
Proof.
  intros Hx Hr.
  set (M := Double.rne (x * Double.pow2 (- Double.expo x))).
  assert (R : Double.roundPos x == inject_Z M * Double.pow2 (Double.expo x)) by reflexivity.
  assert (HM : (0 < M)%Z).
  { rewrite R in Hr.
    destruct (Z_lt_le_dec 0 M) as [H|H]; auto. exfalso.
    assert (inject_Z M <= 0).
    { change 0 with (inject_Z 0). now rewrite <- Zle_Qle. }
    assert (inject_Z M * Double.pow2 (Double.expo x) <= 0 * Double.pow2 (Double.expo x)).
    { now apply mul_pow2_le. }
    lra. }
  apply Qeq_trans with (Double.roundPos (inject_Z M * Double.pow2 (Double.expo x))).
  - now apply roundPos_comp.
  - rewrite R. apply roundPos_repr.
    + split; auto. now apply mant_le.
    + apply expo_ge.
Qed.

Lemma round_exact x : Double.round x == x -> Double.round (Double.round x) = Double.round x.
Proof. apply round_comp. Qed.

Lemma round_idem_eq x : Double.round (Double.round x) == Double.round x.
Proof.
  destruct (Q_dec x 0) as [[Hx|Hx]|Hx].
  - pose proof (round_neg x Hx) as R.
    assert (Hp : 0 < - x) by lra.
    pose proof (roundPos_nonneg _ Hp) as Hn.
    rewrite (round_comp_eq _ _ R).
    destruct (Qle_lt_or_eq _ _ Hn) as [H|H].
    + rewrite R. assert (Hneg : - Double.roundPos (- x) < 0) by lra.
      rewrite (round_neg _ Hneg).
      assert (E : - - Double.roundPos (- x) == Double.roundPos (- x)) by ring.
      assert (H' : 0 < - - Double.roundPos (- x)) by lra.
      rewrite (roundPos_comp _ _ H' E).
      now rewrite roundPos_idem.
    + assert (Z0 : - Double.roundPos (- x) == 0) by lra.
      apply Qeq_trans with 0; [now apply round_zero|].
      rewrite R. now symmetry.
  - pose proof (round_pos x Hx) as R.
    pose proof (roundPos_nonneg _ Hx) as Hn.
    rewrite (round_comp_eq _ _ R).
    destruct (Qle_lt_or_eq _ _ Hn) as [H|H].
    + rewrite R, (round_pos _ H). now apply roundPos_idem.
    + assert (Z0 : Double.roundPos x == 0) by lra.
      apply Qeq_trans with 0; [now apply round_zero|].
      rewrite R. now symmetry.
  - pose proof (round_zero x Hx) as R.
    rewrite (round_comp_eq _ _ R), R. reflexivity.
Qed.

Lemma round_red x : Qred (Double.round x) = Double.round x.
Proof. unfold Double.round. apply Qred_complete, Qred_correct. Qed.

(** Rounding twice is rounding once, as fractions too. *)
Lemma round_idem x : Double.round (Double.round x) = Double.round x.
Proof.
  transitivity (Qred (Double.round (Double.round x))); [symmetry; apply round_red|].
  transitivity (Qred (Double.round x)); [|apply round_red].
  apply Qred_complete, round_idem_eq.
Qed.

Lemma add_0_round x : Double.add 0 (Double.round x) = Double.round x.
Proof.
  unfold Double.add. rewrite <- (round_idem x) at 2. apply round_comp. ring.
Qed.

(** An integer of at most 53 bits is a binary64 number. *)
Lemma round_int z : (Z.abs z <= 2 ^ 53)%Z -> Double.round (inject_Z z) == inject_Z z.
Proof.
  intros Hz. destruct (Z.lt_trichotomy z 0) as [H|[H|H]].
  - assert (Hq : inject_Z z < 0).
    { change 0 with (inject_Z 0). now rewrite <- Zlt_Qlt. }
    rewrite (round_neg _ Hq).
    assert (E : - inject_Z z == inject_Z (- z) * Double.pow2 0).
    { rewrite inject_Z_opp. change (Double.pow2 0) with 1. ring. }
    assert (Hp : 0 < - inject_Z z) by lra.
    rewrite (roundPos_comp _ _ Hp E), roundPos_repr; try lia.
    rewrite inject_Z_opp. change (Double.pow2 0) with 1. ring.
  - subst z. apply round_zero. reflexivity.
  - assert (Hq : 0 < inject_Z z).
    { change 0 with (inject_Z 0). now rewrite <- Zlt_Qlt. }
    rewrite (round_pos _ Hq).
    assert (E : inject_Z z == inject_Z z * Double.pow2 0).
    { change (Double.pow2 0) with 1. ring. }
    rewrite (roundPos_comp _ _ Hq E), roundPos_repr; try lia.
    change (Double.pow2 0) with 1. ring.
Qed.

(** ** The error of rounding *)

(** In the normal range the result is within [2^-53] of the number,
    relatively. *)
Lemma round_error x :
  Double.pow2 (-1022) <= x ->
  x * (1 - Double.pow2 (-53)) <= Double.round x /\ Double.round x <= x * (1 + Double.pow2 (-53)).
Proof.
  intros Hn.
  assert (Hx : 0 < x) by (eapply Qlt_le_trans; [apply (pow2_pos (-1022))|auto]).
  rewrite (round_pos x Hx). unfold Double.roundPos.
  assert (He : Double.expo x = (Double.ilog2 x - 52)%Z).
  { assert (-1022 <= Double.ilog2 x)%Z.
    { destruct (ilog2_spec x Hx) as [_ U].
      assert (-1022 < Double.ilog2 x + 1)%Z; [|lia].
      apply pow2_lt_inv. eapply Qle_lt_trans; eauto. }
    unfold Double.expo. lia. }
  destruct (rne_err (x * Double.pow2 (- Double.expo x))) as [L U].
  apply (mul_pow2_le _ _ (Double.expo x)) in L.
  apply (mul_pow2_le _ _ (Double.expo x)) in U.
  pose proof (scale_back x (Double.expo x)) as SB.
  assert (Hu : (1 # 2) * Double.pow2 (Double.expo x) <= x * Double.pow2 (-53)).
  { destruct (ilog2_spec x Hx) as [Lx _].
    assert (E : (1 # 2) * Double.pow2 (Double.expo x) == Double.pow2 (Double.ilog2 x) * Double.pow2 (-53)).
    { rewrite <- pow2_add. replace (Double.ilog2 x + -53)%Z with (-1 + Double.expo x)%Z by lia.
      rewrite pow2_add. reflexivity. }
    rewrite E. now apply mul_pow2_le. }
  set (p := Double.pow2 (Double.expo x)) in *. set (q := Double.pow2 (- Double.expo x)) in *.
  set (m := inject_Z (Double.rne (x * q))) in *.
  split; lra.
Qed.

(** Two numbers of the normal range that are more than [2^-51] apart,
    relatively, Double.round to different numbers. *)
Lemma round_lt x y :
  Double.pow2 (-1022) <= x -> x * (1 + Double.pow2 (-51)) <= y -> Double.round x < Double.round y.
Proof.
  intros Hn Hxy.
  assert (Hx : 0 < x) by (eapply Qlt_le_trans; [apply (pow2_pos (-1022))|auto]).
  assert (Hp : 0 < Double.pow2 (-51)) by apply pow2_pos.
  assert (Hy : Double.pow2 (-1022) <= y).
  { apply Qle_trans with x; auto. apply Qle_trans with (x * (1 + Double.pow2 (-51))); auto.
    rewrite <- (Qmult_1_r x) at 1. apply Qmult_le_l; auto. lra. }
  destruct (round_error x Hn) as [_ Ux]. destruct (round_error y Hy) as [Ly _].
  apply Qle_lt_trans with (x * (1 + Double.pow2 (-53))); auto.
  apply Qlt_le_trans with (y * (1 - Double.pow2 (-53))); auto.
  apply Qlt_le_trans with (x * (1 + Double.pow2 (-51)) * (1 - Double.pow2 (-53))).
  - rewrite <- Qmult_assoc. apply Qmult_lt_l; auto.
  - apply Qmult_le_compat_r; auto. discriminate.
Qed.

End DoubleFacts.

(** ** Rank fusion *)

Section MapFacts.
Context {V : Type}.
Implicit Types (m : JS.Map V) (k : string) (v : V).

Lemma get_set_same m k v : JS.get (JS.set m k v) k = Some v.
Proof.
  induction m as [|[k' v'] m IH]; simpl.
  - now rewrite String.eqb_refl.
  - destruct (String.eqb k k') eqn:E; simpl; rewrite E; auto.
Qed.

Lemma get_set_other m k k' v : k' <> k -> JS.get (JS.set m k v) k' = JS.get m k'.
Proof.
  intros Hne. induction m as [|[k0 v0] m IH]; simpl.
  - apply String.eqb_neq in Hne. now rewrite Hne.
  - destruct (String.eqb k k0) eqn:E; simpl.
    + apply String.eqb_eq in E. subst k0.
      apply String.eqb_neq in Hne. now rewrite Hne.
    + now rewrite IH.
Qed.

Lemma get_None_keys m k : JS.get m k = None <-> ~ In k (map fst m).
Proof.
  induction m as [|[k0 v0] m IH]; simpl.
  - tauto.
  - destruct (String.eqb k k0) eqn:E.
    + apply String.eqb_eq in E. subst. split; [discriminate | tauto].
    + apply String.eqb_neq in E. rewrite IH. split; intros H.
      * intros [H1|H1]; [congruence | tauto].
      * tauto.
Qed.

Lemma keys_set m k v :
  map fst (JS.set m k v) = if JS.mhas m k then map fst m else map fst m ++ [k].
Proof.
  unfold JS.mhas. induction m as [|[k0 v0] m IH]; simpl; auto.
  destruct (String.eqb k k0) eqn:E; simpl; auto.
  rewrite IH. destruct (JS.get m k); auto.
Qed.

Lemma in_keys_set m k v x :
  In x (map fst (JS.set m k v)) <-> x = k \/ In x (map fst m).
Proof.
  rewrite keys_set. unfold JS.mhas. destruct (JS.get m k) eqn:E.
  - split; [tauto|]. intros [->|H]; auto.
    destruct (in_dec string_dec k (map fst m)) as [H|H]; auto.
    apply get_None_keys in H. congruence.
  - rewrite in_app_iff. simpl. intuition.
Qed.

Lemma NoDup_keys_set m k v :
  NoDup (map fst m) -> NoDup (map fst (JS.set m k v)).
Proof.
  intros H. rewrite keys_set. unfold JS.mhas. destruct (JS.get m k) eqn:E; auto.
  apply get_None_keys in E.
  apply NoDup_app; auto.
  - constructor; [intros []|constructor].
  - intros x Hx [<-|[]]. tauto.
Qed.

Lemma length_set m k v : (List.length (JS.set m k v) <= S (List.length m))%nat.
Proof.
  induction m as [|[k0 v0] m IH]; simpl; auto.
  destruct (String.eqb k k0); simpl; lia.
Qed.

End MapFacts.


Section RankFacts.

Lemma scoresLoop_keys w k rs : forall i sc key,
  In key (map fst (scoresLoop w k i rs sc)) <->
  In key (map fst sc) \/ In key (keys rs).
Proof.
  induction rs as [|r rs IH]; intros; simpl.
  - tauto.
  - rewrite IH, in_keys_set. intuition.
Qed.

Lemma scoresLoop_NoDup w k rs : forall i sc,
  NoDup (map fst sc) -> NoDup (map fst (scoresLoop w k i rs sc)).
Proof.
  induction rs as [|r rs IH]; intros; simpl; auto.
  apply IH. now apply NoDup_keys_set.
Qed.

Lemma scoresLoop_length w k rs : forall i sc,
  (List.length (scoresLoop w k i rs sc) <= List.length sc + List.length rs)%nat.
Proof.
  induction rs as [|r rs IH]; intros; simpl; [lia|].
  match goal with
  | |- context [scoresLoop w k (S i) rs (JS.set sc ?key ?v)] =>
      specialize (IH (S i) (JS.set sc key v));
      pose proof (length_set sc key v)
  end.
  lia.
Qed.

(** The score a loop leaves for a key is what the rows of that key have
    added, one after the other. *)
Lemma scoresLoop_value w k rs : forall i sc key,
  JS.get (scoresLoop w k i rs sc) key = accum w k i rs key (JS.get sc key).
Proof.
  induction rs as [|r rs IH]; intros; simpl; auto.
  rewrite IH. destruct (String.eqb key (chunkKey r)) eqn:E.
  - apply String.eqb_eq in E. subst key. now rewrite get_set_same.
  - apply String.eqb_neq in E. now rewrite get_set_other by auto.
Qed.

Lemma accum_absent w k rs : forall i key acc,
  ~ In key (keys rs) -> accum w k i rs key acc = acc /\ rankOf key rs = None.
Proof.
  induction rs as [|r rs IH]; intros i key acc H; simpl in *; auto.
  destruct (String.eqb key (chunkKey r)) eqn:E.
  - apply String.eqb_eq in E. subst. tauto.
  - destruct (IH (S i) key acc) as [-> ->]; auto.
Qed.

Lemma rankOf_pos key rs : forall r, rankOf key rs = Some r -> (1 <= r)%nat.
Proof.
  induction rs as [|x rs IH]; simpl; [discriminate|].
  intros r. destruct (String.eqb key (chunkKey x)).
  - intros E. inversion E. lia.
  - destruct (rankOf key rs); [|discriminate]. intros E. inversion E. lia.
Qed.

(** In a list that does not repeat a key, a key adds the term of its
    rank, once. *)
Lemma accum_rank w k rs : forall i key acc,
  NoDup (keys rs) ->
  accum w k i rs key acc =
  match rankOf key rs with
  | Some r => Some (Double.add (Rank.orZero acc)
                               (Rank.term w k (i + Nat.pred r)))
  | None => acc
  end.
Proof.
  induction rs as [|r rs IH]; intros i key acc Hnd; simpl.
  - reflexivity.
  - inversion Hnd as [|? ? Hnotin Hnd']; subst.
    destruct (String.eqb key (chunkKey r)) eqn:E.
    + apply String.eqb_eq in E. subst key.
      destruct (accum_absent w k rs (S i) (chunkKey r)
                  (Some (Double.add (Rank.orZero acc) (Rank.term w k i)))
                  Hnotin) as [-> _].
      cbn [Nat.pred]. now rewrite Nat.add_0_r.
    + rewrite (IH (S i) key acc Hnd').
      destruct (rankOf key rs) as [n|] eqn:R; cbn [option_map]; auto.
      apply rankOf_pos in R. cbn [Nat.pred].
      now replace (S i + Nat.pred n)%nat with (i + n)%nat by lia.
Qed.

End RankFacts.

Section SortFacts.
Context {A : Type} (before : A -> A -> bool).
Hypothesis before_total : forall a b, before a b = false -> before b a = true.
Hypothesis before_trans :
  forall a b c, before a b = true -> before b c = true -> before a c = true.

Lemma insertBy_perm x l : Permutation (JS.insertBy before x l) (x :: l).
Proof.
  induction l as [|y l IH]; simpl; auto.
  destruct (before x y); auto.
  rewrite IH. apply perm_swap.
Qed.

Lemma sortBy_perm l : Permutation (JS.sortBy before l) l.
Proof.
  induction l as [|x l IH]; simpl; auto.
  rewrite insertBy_perm. now constructor.
Qed.

Lemma insertBy_sorted x l :
  StronglySorted (fun a b => before a b = true) l ->
  StronglySorted (fun a b => before a b = true) (JS.insertBy before x l).
Proof.
  induction 1 as [|y l Hs IH Hy]; simpl.
  - repeat constructor.
  - destruct (before x y) eqn:E.
    + constructor; [constructor; auto|].
      constructor; auto.
      rewrite Forall_forall in *. eauto.
    + constructor; auto.
      rewrite Forall_forall in *. intros z Hz.
      apply (Permutation_in _ (insertBy_perm x l)) in Hz.
      destruct Hz as [<-|Hz]; auto.
Qed.

Lemma sortBy_sorted l :
  StronglySorted (fun a b => before a b = true) (JS.sortBy before l).
Proof.
  induction l as [|x l IH]; simpl; [constructor|].
  now apply insertBy_sorted.
Qed.

End SortFacts.

Lemma byScoreDesc_total a b :
  Rank.byScoreDesc a b = false -> Rank.byScoreDesc b a = true.
Proof.
  unfold Rank.byScoreDesc. intros H.
  apply Qle_bool_iff. destruct (Qlt_le_dec (snd b) (snd a)) as [L|L].
  - apply Qlt_le_weak in L. apply Qle_bool_iff in L. congruence.
  - exact L.
Qed.

Lemma byScoreDesc_trans a b c :
  Rank.byScoreDesc a b = true -> Rank.byScoreDesc b c = true ->
  Rank.byScoreDesc a c = true.
Proof.
  unfold Rank.byScoreDesc. rewrite !Qle_bool_iff. intros. eapply Qle_trans; eauto.
Qed.

Section DataFacts.

Lemma ftsLoop_eq w k rs : forall i sc d,
  Rank.ftsLoop w k i rs (sc, d) = (scoresLoop w k i rs sc, dataFts rs d).
Proof. induction rs as [|r rs IH]; intros; simpl; auto. Qed.

Lemma vecLoop_eq w k rs : forall i sc d,
  Rank.vecLoop w k i rs (sc, d) = (scoresLoop w k i rs sc, dataVec rs d).
Proof. induction rs as [|r rs IH]; intros; simpl; auto. Qed.

Lemma dataFts_notin rs : forall d key,
  ~ In key (keys rs) -> JS.get (dataFts rs d) key = JS.get d key.
Proof.
  induction rs as [|r rs IH]; intros d key H; simpl in *; auto.
  rewrite IH by tauto. apply get_set_other. intros ->. tauto.
Qed.

Lemma dataFts_in rs : forall d t,
  NoDup (keys rs) -> In t rs -> JS.get (dataFts rs d) (chunkKey t) = Some t.
Proof.
  induction rs as [|r rs IH]; intros d t Hnd Hin; simpl in *; [tauto|].
  inversion Hnd; subst. destruct Hin as [->|Hin].
  - rewrite dataFts_notin by auto. apply get_set_same.
  - now apply IH.
Qed.

Lemma dataVec_keep rs : forall d key x,
  JS.get d key = Some x -> JS.get (dataVec rs d) key = Some x.
Proof.
  induction rs as [|r rs IH]; intros d key x H; simpl; auto.
  apply IH. unfold JS.mhas. destruct (JS.get d (chunkKey r)) eqn:E; auto.
  rewrite get_set_other; auto. intros ->. congruence.
Qed.

Lemma dataVec_in rs : forall d v,
  NoDup (keys rs) -> In v rs -> JS.get d (chunkKey v) = None ->
  JS.get (dataVec rs d) (chunkKey v) = Some v.
Proof.
  induction rs as [|r rs IH]; intros d v Hnd Hin Hd; simpl in *; [tauto|].
  inversion Hnd as [|? ? Hnotin Hnd']; subst. destruct Hin as [->|Hin].
  - unfold JS.mhas. rewrite Hd. apply dataVec_keep, get_set_same.
  - assert (Hne : chunkKey v <> chunkKey r).
    { intros E. apply Hnotin. rewrite <- E. now apply in_map. }
    apply IH; auto.
    destruct (JS.mhas d (chunkKey r)); auto.
    now rewrite get_set_other.
Qed.

End DataFacts.

Section MergeFacts.

Lemma In_get {V} (m : JS.Map V) k v :
  NoDup (map fst m) -> In (k, v) m -> JS.get m k = Some v.
Proof.
  induction m as [|[k0 v0] m IH]; simpl; [tauto|].
  intros Hnd [E|Hin]; inversion Hnd; subst.
  - inversion E; subst. now rewrite String.eqb_refl.
  - destruct (String.eqb k k0) eqn:E; auto.
    apply String.eqb_eq in E. subst. exfalso.
    match goal with H : ~ In _ _ |- _ => apply H end.
    change k0 with (fst (k0, v)). now apply in_map.
Qed.

Lemma rrfMerge_unfold fts vec limit :
  Rank.rrfMerge fts vec limit =
  map (Rank.toRow (dataOf fts vec))
      (firstn limit (Rank.sortDesc (scoresOf fts vec))).
Proof.
  unfold Rank.rrfMerge, Rank.rrfMergeWith, scoresOf, dataOf, JS.slice0.
  now rewrite ftsLoop_eq, vecLoop_eq.
Qed.

Lemma scoresOf_keys fts vec key :
  In key (map fst (scoresOf fts vec)) <-> In key (keys fts) \/ In key (keys vec).
Proof.
  unfold scoresOf. rewrite !scoresLoop_keys. simpl. tauto.
Qed.

Lemma scoresOf_NoDup fts vec : NoDup (map fst (scoresOf fts vec)).
Proof. unfold scoresOf. apply scoresLoop_NoDup, scoresLoop_NoDup. constructor. Qed.

Lemma scoresOf_length fts vec :
  (List.length (scoresOf fts vec) <= List.length fts + List.length vec)%nat.
Proof.
  unfold scoresOf.
  pose proof (scoresLoop_length Rank.vecWeight Rank.k vec 0
                (scoresLoop Rank.ftsWeight Rank.k 0 fts [])).
  pose proof (scoresLoop_length Rank.ftsWeight Rank.k fts 0 []).
  simpl in *. lia.
Qed.

Lemma scoresOf_value fts vec key :
  Rank.orZero (JS.get (scoresOf fts vec) key) = accumulated key fts vec.
Proof. unfold scoresOf, accumulated. now rewrite !scoresLoop_value. Qed.

(** A term is a binary64 number: adding it to zero gives it back. *)
Lemma term_round w k i : Double.add 0 (Rank.term w k i) = Rank.term w k i.
Proof. unfold Rank.term, Double.div. apply add_0_round. Qed.

Lemma accumulated_fused fts vec key :
  NoDup (keys fts) -> NoDup (keys vec) ->
  accumulated key fts vec = fused key fts vec.
Proof.
  intros Hf Hv. unfold accumulated, fused, share.
  rewrite !accum_rank by auto.
  destruct (rankOf key fts), (rankOf key vec); cbn [Rank.orZero Nat.add];
    rewrite ?term_round; reflexivity.
Qed.

(** The row kept for a key: the text row when there is one, else the
    vector row. *)
Lemma dataOf_fts fts vec t :
  NoDup (keys fts) -> In t fts -> JS.get (dataOf fts vec) (chunkKey t) = Some t.
Proof.
  intros Hf Hin. unfold dataOf. apply dataVec_keep. now apply dataFts_in.
Qed.

Lemma dataOf_vec fts vec v :
  NoDup (keys vec) -> In v vec -> ~ In (chunkKey v) (keys fts) ->
  JS.get (dataOf fts vec) (chunkKey v) = Some v.
Proof.
  intros Hv Hin Hnot. unfold dataOf. apply dataVec_in; auto.
  now rewrite dataFts_notin.
Qed.

Lemma dataFts_keys rs : forall d key,
  In key (map fst (dataFts rs d)) <-> In key (map fst d) \/ In key (keys rs).
Proof.
  induction rs as [|r rs IH]; intros; simpl.
  - tauto.
  - rewrite IH, in_keys_set. intuition.
Qed.

Lemma dataVec_keys rs : forall d key,
  In key (map fst (dataVec rs d)) <-> In key (map fst d) \/ In key (keys rs).
Proof.
  induction rs as [|r rs IH]; intros; simpl.
  - tauto.
  - rewrite IH. unfold JS.mhas.
    destruct (JS.get d (chunkKey r)) eqn:E.
    + split; [tauto|]. intros [H|[<-|H]]; auto.
      left. destruct (in_dec string_dec (chunkKey r) (map fst d)) as [Hi|Hn];
        auto.
      apply get_None_keys in Hn. congruence.
    + rewrite in_keys_set. intuition.
Qed.

Lemma set_keyed (d : JS.Map SearchResult) r :
  (forall key row, JS.get d key = Some row -> chunkKey row = key) ->
  forall key row, JS.get (JS.set d (chunkKey r) r) key = Some row ->
                  chunkKey row = key.
Proof.
  intros Hd key row. destruct (string_dec key (chunkKey r)) as [->|Hne].
  - rewrite get_set_same. congruence.
  - rewrite get_set_other by auto. apply Hd.
Qed.

Lemma dataFts_keyed rs : forall d,
  (forall key row, JS.get d key = Some row -> chunkKey row = key) ->
  forall key row, JS.get (dataFts rs d) key = Some row -> chunkKey row = key.
Proof.
  induction rs as [|r rs IH]; intros d Hd; simpl; auto.
  apply IH. now apply set_keyed.
Qed.

Lemma dataVec_keyed rs : forall d,
  (forall key row, JS.get d key = Some row -> chunkKey row = key) ->
  forall key row, JS.get (dataVec rs d) key = Some row -> chunkKey row = key.
Proof.
  induction rs as [|r rs IH]; intros d Hd; simpl; auto.
  apply IH. destruct (JS.mhas d (chunkKey r)); auto. now apply set_keyed.
Qed.

Lemma dataFts_get rs : forall d key,
  JS.get (dataFts rs d) key =
  match lastOf key rs with Some t => Some t | None => JS.get d key end.
Proof.
  induction rs as [|r rs IH]; intros d key; simpl; auto.
  rewrite IH. destruct (lastOf key rs); auto.
  destruct (String.eqb key (chunkKey r)) eqn:E.
  - apply String.eqb_eq in E. subst key. apply get_set_same.
  - apply String.eqb_neq in E. now apply get_set_other.
Qed.

Lemma dataVec_get rs : forall d key,
  JS.get (dataVec rs d) key =
  match JS.get d key with Some x => Some x | None => firstOf key rs end.
Proof.
  induction rs as [|r rs IH]; intros d key; simpl.
  - now destruct (JS.get d key).
  - rewrite IH. unfold JS.mhas.
    destruct (String.eqb key (chunkKey r)) eqn:E.
    + apply String.eqb_eq in E. subst key.
      destruct (JS.get d (chunkKey r)) eqn:G; [now rewrite G|].
      now rewrite get_set_same.
    + apply String.eqb_neq in E.
      destruct (JS.get d (chunkKey r)) eqn:G; auto.
      now rewrite get_set_other by auto.
Qed.

(** The row kept for a key is its last text row, or else its first
    vector row. *)
Lemma dataOf_get fts vec key : JS.get (dataOf fts vec) key = rowOf key fts vec.
Proof.
  unfold dataOf, rowOf. rewrite dataVec_get, dataFts_get. simpl.
  now destruct (lastOf key fts).
Qed.

(** Every key with a score has a row, and the row carries that key. *)
Lemma dataOf_row fts vec key :
  In key (keys fts) \/ In key (keys vec) ->
  exists row, JS.get (dataOf fts vec) key = Some row /\ chunkKey row = key.
Proof.
  intros H.
  assert (Hin : In key (map fst (dataOf fts vec))).
  { unfold dataOf. rewrite dataVec_keys, dataFts_keys. simpl. tauto. }
  destruct (JS.get (dataOf fts vec) key) as [row|] eqn:E.
  - exists row. split; auto.
    unfold dataOf in E. revert E. apply dataVec_keyed.
    apply dataFts_keyed. simpl. discriminate.
  - apply get_None_keys in E. tauto.
Qed.

Lemma toRow_key fts vec e :
  In e (scoresOf fts vec) ->
  chunkKey (Rank.toRow (dataOf fts vec) e) = fst e.
Proof.
  intros Hin. unfold Rank.toRow.
  destruct (dataOf_row fts vec (fst e)) as [row [-> Hk]]; auto.
  apply scoresOf_keys. now apply in_map.
Qed.

Lemma toRow_score d e : score (Rank.toRow d e) = snd e.
Proof. unfold Rank.toRow. destruct (JS.get d (fst e)); reflexivity. Qed.

Lemma sortDesc_perm l : Permutation (Rank.sortDesc l) l.
Proof. apply sortBy_perm. Qed.

Lemma full_keys fts vec :
  keys (map (Rank.toRow (dataOf fts vec)) (Rank.sortDesc (scoresOf fts vec))) =
  map fst (Rank.sortDesc (scoresOf fts vec)).
Proof.
  unfold keys. rewrite map_map. apply map_ext_in.
  intros e He. apply toRow_key.
  now apply (Permutation_in _ (sortDesc_perm _)).
Qed.

Lemma rrfMerge_full fts vec :
  Rank.rrfMerge fts vec (List.length fts + List.length vec) =
  map (Rank.toRow (dataOf fts vec)) (Rank.sortDesc (scoresOf fts vec)).
Proof.
  rewrite rrfMerge_unfold. f_equal. apply firstn_all2.
  rewrite (Permutation_length (sortDesc_perm _)). apply scoresOf_length.
Qed.

(** The shape of the fused list, for any two lists. *)
Lemma rrfMerge_shape fts vec limit :
  let full := Rank.rrfMerge fts vec (List.length fts + List.length vec) in
  NoDup (keys full) /\
  (forall key, In key (keys full) <-> In key (keys fts) \/ In key (keys vec)) /\
  StronglySorted (fun a b => (score b <= score a)%Q) full /\
  Rank.rrfMerge fts vec limit = firstn limit full.
Proof.
  intros full. subst full. rewrite rrfMerge_full.
  pose proof (full_keys fts vec) as Hkeys.
  split; [|split; [|split]].
  - rewrite Hkeys.
    apply (Permutation_NoDup
             (Permutation_sym (Permutation_map fst (sortDesc_perm _)))).
    apply scoresOf_NoDup.
  - intros key. rewrite Hkeys. rewrite <- scoresOf_keys. split; intros H.
    + now apply (Permutation_in _ (Permutation_map fst (sortDesc_perm _))).
    + now apply (Permutation_in _
                   (Permutation_sym (Permutation_map fst (sortDesc_perm _)))).
  - pose proof (sortBy_sorted Rank.byScoreDesc byScoreDesc_total
                  byScoreDesc_trans (scoresOf fts vec)) as Hs.
    unfold Rank.sortDesc.
    induction Hs as [|e l Hs IH Hall]; simpl; constructor; auto.
    rewrite Forall_forall in *. intros r Hr.
    apply in_map_iff in Hr. destruct Hr as [e' [<- He']].
    rewrite !toRow_score. apply Qle_bool_iff. apply (Hall e' He').
  - rewrite rrfMerge_unfold. unfold Rank.sortDesc. now rewrite firstn_map.
Qed.

(** Scores and payloads, for lists without repeated keys. *)
Lemma full_rows fts vec r :
  In r (Rank.rrfMerge fts vec (List.length fts + List.length vec)) ->
  exists e, In e (scoresOf fts vec) /\
            r = Rank.toRow (dataOf fts vec) e /\
            chunkKey r = fst e /\ score r = snd e.
Proof.
  rewrite rrfMerge_full. intros Hr.
  apply in_map_iff in Hr. destruct Hr as [e [<- He]].
  apply (Permutation_in _ (sortDesc_perm _)) in He.
  exists e. repeat split; auto using toRow_key, toRow_score.
Qed.

(** For all lists: a fused row is the row kept for its key, with the
    accumulated score of the key. *)
Lemma rrfMerge_row fts vec r :
  In r (Rank.rrfMerge fts vec (List.length fts + List.length vec)) ->
  exists row, rowOf (chunkKey r) fts vec = Some row /\
              chunkKey row = chunkKey r /\
              r = withScore row (accumulated (chunkKey r) fts vec).
Proof.
  intros Hr. destruct (full_rows fts vec r Hr) as [[key s] [He [E [Hk Hs]]]].
  simpl in Hk, Hs.
  destruct (dataOf_row fts vec key) as [row [G Hrk]].
  { apply scoresOf_keys. change key with (fst (key, s)). now apply in_map. }
  exists row. rewrite Hk, <- dataOf_get. repeat split; auto.
  rewrite E. unfold Rank.toRow. cbn [fst snd]. rewrite G.
  rewrite <- scoresOf_value.
  now rewrite (In_get _ _ _ (scoresOf_NoDup fts vec) He).
Qed.

Lemma rrfMerge_rows fts vec :
  NoDup (keys fts) -> NoDup (keys vec) ->
  let full := Rank.rrfMerge fts vec (List.length fts + List.length vec) in
  (forall r, In r full -> score r = fused (chunkKey r) fts vec) /\
  (forall r t, In r full -> In t fts -> chunkKey t = chunkKey r ->
               payload r = payload t) /\
  (forall r v, In r full -> In v vec -> chunkKey v = chunkKey r ->
               ~ In (chunkKey r) (keys fts) -> payload r = payload v).
Proof.
  intros Hf Hv full. subst full.
  split; [|split].
  - intros r Hr. destruct (rrfMerge_row fts vec r Hr) as [row [_ [_ E]]].
    rewrite E at 1. cbn [score withScore]. now apply accumulated_fused.
  - intros r t Hr Ht Hkt.
    destruct (full_rows fts vec r Hr) as [e [He [-> [Hk _]]]].
    rewrite Hk in Hkt. unfold Rank.toRow. rewrite <- Hkt.
    rewrite dataOf_fts by auto. reflexivity.
  - intros r v Hr Hvin Hkv Hnot.
    destruct (full_rows fts vec r Hr) as [e [He [-> [Hk _]]]].
    rewrite Hk in Hkv, Hnot. unfold Rank.toRow. rewrite <- Hkv in *.
    rewrite dataOf_vec by auto. reflexivity.
Qed.

End MergeFacts.

Ltac nodup_keys :=
  repeat (constructor; [simpl; intuition discriminate|]); constructor.

Example rrfMerge_boosts_both :
  map name (Rank.rrfMerge [sr "a"; sr "b"; sr "c"] [sr "b"; sr "a"; sr "d"] 5)
  = ["b"; "a"; "d"; "c"].
Proof. vm_compute. reflexivity. Qed.

Example rrfMerge_respects_limit :
  List.length (Rank.rrfMerge [sr "a"; sr "b"; sr "c"]
                             [sr "d"; sr "e"; sr "f"] 2) = 2%nat.
Proof. vm_compute. reflexivity. Qed.

(** Scenario S6: with text ranks 1 and 3 and vector ranks 3 and 1, the
    chunk that leads the vector list wins, and both chunks stand above the
    chunks of one list. *)
Example rrfMerge_vector_leader_wins :
  map name (Rank.rrfMerge [sr "c1"; sr "x"; sr "c2"]
                          [sr "c2"; sr "y"; sr "c1"] 5)
  = ["c2"; "c1"; "y"; "x"].
Proof. vm_compute. reflexivity. Qed.

Example rrfMerge_both_empty : Rank.rrfMerge [] [] 5 = [].
Proof. reflexivity. Qed.

(** C4, counterexample.  With the text list [a; b; b; b] and the vector
    list [a], the key [b] has rank 2 in the only list that contains it,
    and the claim gives it the score [0.4 / 62]; the code gives it the sum
    of the three terms [0.4 / 62 + 0.4 / 63 + 0.4 / 64], which puts it in
    front of [a]. *)
Theorem repeated_key_adds_every_row :
  exists rb ra,
    Rank.rrfMerge repeats [sr "a"] 10 = [rb; ra] /\
    chunkKey rb = "b" /\ chunkKey ra = "a" /\
    share Rank.ftsWeight "b" repeats = Some (Rank.term Rank.ftsWeight 60 1) /\
    share Rank.vecWeight "b" [sr "a"] = None /\
    (Rank.term Rank.ftsWeight 60 1 < score rb)%Q /\
    score rb = Double.add (Double.add (Rank.term Rank.ftsWeight 60 1)
                                      (Rank.term Rank.ftsWeight 60 2))
                          (Rank.term Rank.ftsWeight 60 3) /\
    payload rb = payload (withScore (sr "b") 9).
Proof.
  eexists. eexists. split; [vm_compute; reflexivity|].
  repeat split; vm_compute; reflexivity.
Qed.

(** C4. For all lists, [rrfMerge] returns one entry per distinct chunk key
    of either list, sorted by fused score, highest first, and cut to
    [limit].  The entry of a key is the row kept for it, its last text row
    or else its first vector row, with the score replaced by the
    accumulated score of the key: the terms [w / (60 + rank)] of all the
    rows of that key, with 1-based ranks and the weights 0.4 for the text
    list and 0.6 for the vector list, added in binary64 in the order of the
    rows, text rows first.  When no list repeats a key, this score is the
    sum, over the lists that contain the key, of [w / (60 + rank)], and
    the payload (every field but the score) of a key is that of its text
    row when it has one, else that of its vector row. *)
Theorem rrfMerge_fused_ranking (fts vec : list SearchResult) (limit : nat) :
  let full := Rank.rrfMerge fts vec (List.length fts + List.length vec) in
  NoDup (keys full) /\
  (forall key, In key (keys full) <-> In key (keys fts) \/ In key (keys vec)) /\
  (forall r, In r full ->
     exists row, rowOf (chunkKey r) fts vec = Some row /\
                 r = withScore row (accumulated (chunkKey r) fts vec)) /\
  StronglySorted (fun a b => (score b <= score a)%Q) full /\
  Rank.rrfMerge fts vec limit = firstn limit full /\
  (NoDup (keys fts) -> NoDup (keys vec) ->
   (forall r, In r full -> score r = fused (chunkKey r) fts vec) /\
   (forall r t, In r full -> In t fts -> chunkKey t = chunkKey r ->
                payload r = payload t) /\
   (forall r v, In r full -> In v vec -> chunkKey v = chunkKey r ->
                ~ In (chunkKey r) (keys fts) -> payload r = payload v)).
Proof.
  intros full.
  destruct (rrfMerge_shape fts vec limit) as [H1 [H2 [H3 H4]]].
  split; [assumption|]. split; [assumption|]. split.
  { intros r Hr. destruct (rrfMerge_row fts vec r Hr) as [row [G [_ E]]].
    exists row. auto. }
  split; [assumption|]. split; [assumption|].
  intros Hf Hv. now apply rrfMerge_rows.
Qed.

Lemma rrfMerge_fused_ranking_witness :
  let fts := [sr "a"; sr "b"] in
  let vec := [sr "b"; sr "c"] in
  let full := Rank.rrfMerge fts vec 4 in
  (forall r, In r full -> score r = fused (chunkKey r) fts vec) /\
  (forall r t, In r full -> In t fts -> chunkKey t = chunkKey r ->
               payload r = payload t) /\
  (forall r v, In r full -> In v vec -> chunkKey v = chunkKey r ->
               ~ In (chunkKey r) (keys fts) -> payload r = payload v).
Proof.
  apply (proj2 (proj2 (proj2 (proj2 (proj2
           (rrfMerge_fused_ranking [sr "a"; sr "b"] [sr "b"; sr "c"] 2))))));
    nodup_keys.
Defined.

(** ** Rank fusion: chunks of both lists *)

Section Outranks.

Lemma denom_pos r : (0 < denom r)%Q.
Proof.
  unfold denom.
  assert (0 <= inject_Z (Z.of_nat r))%Q.
  { change 0%Q with (inject_Z 0). rewrite <- Zle_Qle. lia. }
  lra.
Qed.

Lemma denom_mono i m : (i <= m)%nat -> (denom i <= denom m)%Q.
Proof.
  intros H. unfold denom.
  assert (inject_Z (Z.of_nat i) <= inject_Z (Z.of_nat m))%Q.
  { rewrite <- Zle_Qle. lia. }
  lra.
Qed.

Lemma frac_anti (w : Q) (i m : nat) :
  (0 <= w)%Q -> (i <= m)%nat -> (w / denom m <= w / denom i)%Q.
Proof.
  intros Hw H.
  pose proof (denom_pos i) as Hi. pose proof (denom_pos m) as Hm.
  pose proof (denom_mono i m H) as Hle.
  apply Qle_shift_div_r; auto.
  assert (E : (w / denom i * denom m == w + w / denom i * (denom m - denom i))%Q).
  { field. intros Hz. rewrite Hz in Hi. lra. }
  rewrite E.
  assert (0 <= w / denom i)%Q.
  { apply Qle_shift_div_l; auto; lra. }
  assert (0 <= w / denom i * (denom m - denom i))%Q.
  { apply Qmult_le_0_compat; auto. lra. }
  lra.
Qed.

Lemma frac_pos (w : Q) (m : nat) : (0 < w)%Q -> (0 < w / denom m)%Q.
Proof.
  intros Hw. apply Qlt_shift_div_l; [apply denom_pos|]. lra.
Qed.

Lemma rankOf_in key rs r : rankOf key rs = Some r -> In key (keys rs).
Proof.
  revert r. induction rs as [|x rs IH]; simpl; [discriminate|].
  intros r. destruct (String.eqb key (chunkKey x)) eqn:E.
  - apply String.eqb_eq in E. auto.
  - destruct (rankOf key rs); [|discriminate]. eauto.
Qed.

Lemma rankOf_le key rs : forall r,
  rankOf key rs = Some r -> (r <= List.length rs)%nat.
Proof.
  induction rs as [|x rs IH]; simpl; [discriminate|].
  intros r. destruct (String.eqb key (chunkKey x)).
  - intros E. inversion E. lia.
  - destruct (rankOf key rs) as [n|]; [|discriminate].
    intros E. inversion E. specialize (IH n eq_refl). lia.
Qed.

Lemma rankOf_inj rs : forall a b r,
  rankOf a rs = Some r -> rankOf b rs = Some r -> a = b.
Proof.
  induction rs as [|x rs IH]; simpl; [discriminate|].
  intros a b r.
  destruct (String.eqb a (chunkKey x)) eqn:Ea;
    destruct (String.eqb b (chunkKey x)) eqn:Eb.
  - apply String.eqb_eq in Ea, Eb. congruence.
  - intros E1 E2. inversion E1; subst.
    destruct (rankOf b rs) as [n|] eqn:R; [|discriminate].
    apply rankOf_pos in R. inversion E2. lia.
  - intros E1 E2. inversion E2; subst.
    destruct (rankOf a rs) as [n|] eqn:R; [|discriminate].
    apply rankOf_pos in R. inversion E1. lia.
  - destruct (rankOf a rs) as [n|] eqn:Ra; [|discriminate].
    destruct (rankOf b rs) as [n'|] eqn:Rb; [|discriminate].
    cbn [option_map]. intros E1 E2.
    assert (n' = n) by (inversion E1; inversion E2; lia). subst n'.
    now apply (IH a b n).
Qed.

(** ** The terms in binary64 *)

(** The denominator [k + i + 1] of an array index is exact. *)
Lemma denom_exact (i : nat) :
  (Z.of_nat i < 2 ^ 32)%Z ->
  (Double.add (Double.add Rank.k (inject_Z (Z.of_nat i))) 1 == denom (S i))%Q.
Proof.
  intros Hi.
  assert (E1 : (Double.add Rank.k (inject_Z (Z.of_nat i)) ==
                inject_Z (60 + Z.of_nat i))%Q).
  { unfold Double.add, Rank.k.
    rewrite (round_comp_eq _ (inject_Z (60 + Z.of_nat i))).
    - apply round_int. lia.
    - rewrite inject_Z_plus. reflexivity. }
  unfold Double.add at 1.
  rewrite (round_comp_eq _ (inject_Z (61 + Z.of_nat i))).
  - rewrite round_int by lia. unfold denom.
    rewrite Nat2Z.inj_succ. unfold Z.succ. rewrite !inject_Z_plus.
    change (inject_Z 61) with 61%Q. change (inject_Z 1) with 1%Q. ring.
  - rewrite E1, !inject_Z_plus.
    change (inject_Z 61) with 61%Q. change (inject_Z 60) with 60%Q. ring.
Qed.

(** The term of the row of rank [r] is [w / (60 + r)], rounded. *)
Lemma term_denom (w : Q) (r : nat) :
  (1 <= r)%nat -> (Z.of_nat r < 2 ^ 32)%Z ->
  Rank.term w Rank.k (Nat.pred r) = Double.div w (denom r).
Proof.
  intros H1 Hr. unfold Rank.term, Double.div. apply round_comp.
  rewrite denom_exact by lia.
  replace (S (Nat.pred r)) with r by lia. reflexivity.
Qed.

Lemma denom_le (r : nat) :
  (Z.of_nat r < 2 ^ 32)%Z -> (denom r <= 8589934592)%Q.
Proof.
  intros H. unfold denom.
  assert (inject_Z (Z.of_nat r) <= inject_Z (2 ^ 32))%Q.
  { rewrite <- Zle_Qle. lia. }
  change (inject_Z (2 ^ 32)) with 4294967296%Q in *. lra.
Qed.

(** Both weights are at least a quarter, and 0.6 is well above 0.4. *)
Lemma weights :
  ((1 # 4) <= Rank.ftsWeight /\ (1 # 4) <= Rank.vecWeight /\
   Rank.ftsWeight * (1 + Double.pow2 (-51)) <= Rank.vecWeight)%Q.
Proof. repeat split; vm_compute; discriminate. Qed.

Lemma div_normal (w : Q) (r : nat) :
  ((1 # 4) <= w)%Q -> (Z.of_nat r < 2 ^ 32)%Z ->
  (Double.pow2 (-1022) <= w / denom r)%Q.
Proof.
  intros Hw Hr.
  apply Qle_trans with (Double.pow2 (-35)); [apply pow2_le; lia|].
  apply Qle_shift_div_l; [apply denom_pos|].
  pose proof (denom_le r Hr) as Hd.
  change (Double.pow2 (-35)) with (/ 34359738368)%Q.
  pose proof (denom_pos r). 
  apply Qle_trans with (/ 34359738368 * 8589934592)%Q.
  - apply Qmult_le_l; [reflexivity|exact Hd].
  - assert (E : (/ 34359738368 * 8589934592 == 1 # 4)%Q) by reflexivity.
    now rewrite E.
Qed.

Lemma at_nonneg (w : Q) (r : nat) : (0 <= w)%Q -> (0 <= Double.div w (denom r))%Q.
Proof.
  intros Hw. apply round_nonneg.
  apply Qle_shift_div_l; [apply denom_pos|]. lra.
Qed.

Lemma at_anti (w : Q) (i m : nat) :
  (0 <= w)%Q -> (i <= m)%nat ->
  (Double.div w (denom m) <= Double.div w (denom i))%Q.
Proof. intros Hw H. apply round_mono. now apply frac_anti. Qed.

Lemma at_weight (w w' : Q) (r : nat) :
  (w <= w')%Q -> (Double.div w (denom r) <= Double.div w' (denom r))%Q.
Proof.
  intros H. apply round_mono. unfold Qdiv. apply Qmult_le_compat_r; auto.
  apply Qlt_le_weak, Qinv_lt_0_compat, denom_pos.
Qed.

(** A worse rank gives a smaller term, strictly. *)
Lemma at_strict (w : Q) (i m : nat) :
  ((1 # 4) <= w)%Q -> (i < m)%nat -> (Z.of_nat m < 2 ^ 32)%Z ->
  (Double.div w (denom m) < Double.div w (denom i))%Q.
Proof.
  intros Hw Him Hm. apply round_lt; [now apply div_normal|].
  pose proof (denom_pos i) as Hi. pose proof (denom_pos m) as Hdm.
  assert (Hd : (denom i * (1 + Double.pow2 (-51)) <= denom m)%Q).
  { assert (Hle : (denom i <= 8589934592)%Q) by (apply denom_le; lia).
    assert (Hs : (denom i + 1 <= denom m)%Q).
    { unfold denom.
      assert (inject_Z (Z.of_nat i) + 1 <= inject_Z (Z.of_nat m))%Q.
      { change 1%Q with (inject_Z 1). rewrite <- inject_Z_plus, <- Zle_Qle.
        lia. }
      lra. }
    change (Double.pow2 (-51)) with (/ 2251799813685248)%Q.
    assert (E : (/ 2251799813685248 == 1 # 2251799813685248)%Q) by reflexivity.
    rewrite E. lra. }
  apply Qle_shift_div_l; auto.
  assert (E : (w / denom m * (1 + Double.pow2 (-51)) * denom i ==
               w * (denom i * (1 + Double.pow2 (-51))) / denom m)%Q).
  { field. intros Z0. rewrite Z0 in Hdm. lra. }
  rewrite E. apply Qle_shift_div_r; auto.
  apply Qmult_le_l; auto. lra.
Qed.

(** At the same rank the vector term is above the text term, strictly. *)
Lemma at_weights_strict (m : nat) :
  (Z.of_nat m < 2 ^ 32)%Z ->
  (Double.div Rank.ftsWeight (denom m) <
   Double.div Rank.vecWeight (denom m))%Q.
Proof.
  intros Hm. destruct weights as [W4 [W6 Wg]].
  apply round_lt; [now apply div_normal|].
  pose proof (denom_pos m) as Hdm.
  assert (E : (Rank.ftsWeight / denom m * (1 + Double.pow2 (-51)) ==
               Rank.ftsWeight * (1 + Double.pow2 (-51)) / denom m)%Q).
  { field. intros Z0. rewrite Z0 in Hdm. lra. }
  rewrite E. unfold Qdiv. apply Qmult_le_compat_r; auto.
  apply Qlt_le_weak, Qinv_lt_0_compat, denom_pos.
Qed.

(** The sum of two terms is at least each of them. *)
Lemma add_ge_r (t y : Q) :
  (0 <= t)%Q -> (Double.round y <= Double.add t (Double.round y))%Q.
Proof.
  intros Ht. rewrite <- (round_idem y) at 1. unfold Double.add.
  apply round_mono. lra.
Qed.

Lemma add_ge_l (v y : Q) :
  (0 <= v)%Q -> (Double.round y <= Double.add (Double.round y) v)%Q.
Proof.
  intros Hv. rewrite <- (round_idem y) at 1. unfold Double.add.
  apply round_mono. lra.
Qed.

Lemma share_at w key rs r :
  (Z.of_nat (List.length rs) < 2 ^ 32)%Z ->
  rankOf key rs = Some r -> share w key rs = Some (Double.div w (denom r)).
Proof.
  intros Hl Hr. unfold share. rewrite Hr. f_equal.
  apply term_denom; [eapply rankOf_pos; eauto|].
  apply rankOf_le in Hr. lia.
Qed.

Lemma share_none w key rs : rankOf key rs = None -> share w key rs = None.
Proof. unfold share. now intros ->. Qed.

Lemma fused_both fts vec a i j :
  (Z.of_nat (List.length fts) < 2 ^ 32)%Z ->
  (Z.of_nat (List.length vec) < 2 ^ 32)%Z ->
  rankOf a fts = Some i -> rankOf a vec = Some j ->
  fused a fts vec = Double.add (Double.div Rank.ftsWeight (denom i))
                               (Double.div Rank.vecWeight (denom j)).
Proof.
  intros Lf Lv Hi Hj. unfold fused.
  now rewrite (share_at _ _ _ _ Lf Hi), (share_at _ _ _ _ Lv Hj).
Qed.

Lemma fused_gap fts vec a b i j m :
  (Z.of_nat (List.length fts) < 2 ^ 32)%Z ->
  (Z.of_nat (List.length vec) < 2 ^ 32)%Z ->
  rankOf a fts = Some i -> rankOf a vec = Some j ->
  (rankOf b fts = Some m /\ rankOf b vec = None /\
   ((i <= m)%nat \/ (j <= m)%nat)) \/
  (rankOf b fts = None /\ rankOf b vec = Some m /\ (j <= m)%nat) ->
  (fused b fts vec < fused a fts vec)%Q /\
  (fused b fts vec <= Double.div Rank.vecWeight (denom m))%Q.
Proof.
  intros Lf Lv Hi Hj Hb. destruct weights as [W4 [W6 Wg]].
  rewrite (fused_both fts vec a i j Lf Lv Hi Hj).
  assert (Hw : (Rank.ftsWeight <= Rank.vecWeight)%Q) by (vm_compute; discriminate).
  pose proof (at_nonneg Rank.ftsWeight i ltac:(lra)) as Pt.
  pose proof (at_nonneg Rank.vecWeight j ltac:(lra)) as Pv.
  pose proof (add_ge_r (Double.div Rank.ftsWeight (denom i))
                       (Rank.vecWeight / denom j) Pt) as Gv.
  pose proof (add_ge_l (Double.div Rank.vecWeight (denom j))
                       (Rank.ftsWeight / denom i) Pv) as Gt.
  fold (Double.div Rank.vecWeight (denom j)) in Gv.
  fold (Double.div Rank.ftsWeight (denom i)) in Gt.
  destruct Hb as [[Hf [Hv Hr]]|[Hf [Hv Hr]]].
  - assert (Hm : (Z.of_nat m < 2 ^ 32)%Z).
    { apply rankOf_le in Hf. lia. }
    assert (E : fused b fts vec = Double.div Rank.ftsWeight (denom m)).
    { unfold fused. now rewrite (share_at _ _ _ _ Lf Hf), (share_none _ _ _ Hv). }
    rewrite E. split; [|now apply at_weight].
    destruct Hr as [Hr|Hr].
    + assert (Hne : i <> m).
      { intros E'. subst m.
        assert (a = b) by (apply (rankOf_inj fts a b i); assumption).
        subst b. congruence. }
      pose proof (at_strict Rank.ftsWeight i m W4 ltac:(lia) Hm). lra.
    + pose proof (at_weights_strict m Hm).
      pose proof (at_anti Rank.vecWeight j m ltac:(lra) Hr). lra.
  - assert (Hm : (Z.of_nat m < 2 ^ 32)%Z).
    { apply rankOf_le in Hv. lia. }
    assert (E : fused b fts vec = Double.div Rank.vecWeight (denom m)).
    { unfold fused. now rewrite (share_none _ _ _ Hf), (share_at _ _ _ _ Lv Hv). }
    rewrite E. split; [|apply Qle_refl].
    assert (Hne : j <> m).
    { intros E'. subst m.
      assert (a = b) by (apply (rankOf_inj vec a b j); assumption).
      subst b. congruence. }
    pose proof (at_strict Rank.vecWeight j m W6 ltac:(lia) Hm). lra.
Qed.

Lemma keys_inj l : forall x y,
  NoDup (keys l) -> In x l -> In y l -> chunkKey x = chunkKey y -> x = y.
Proof.
  induction l as [|z l IH]; simpl; [tauto|].
  intros x y Hn Hx Hy Hk. inversion Hn as [|? ? Hnotin Hn']; subst.
  destruct Hx as [->|Hx], Hy as [->|Hy]; auto.
  - exfalso. apply Hnotin. rewrite Hk. now apply in_map.
  - exfalso. apply Hnotin. rewrite <- Hk. now apply in_map.
Qed.

Lemma in_two_split {A} (x y : A) l :
  In x l -> In y l -> x <> y ->
  (exists l1 l2 l3, l = l1 ++ x :: l2 ++ y :: l3) \/
  (exists l1 l2 l3, l = l1 ++ y :: l2 ++ x :: l3).
Proof.
  intros Hx Hy Hne.
  apply in_split in Hx. destruct Hx as [l1 [l2 ->]].
  apply in_app_or in Hy. destruct Hy as [Hy|[Hy|Hy]]; [|congruence|].
  - right. apply in_split in Hy. destruct Hy as [la [lb ->]].
    exists la, lb, l2. now rewrite <- app_assoc.
  - left. apply in_split in Hy. destruct Hy as [la [lb ->]].
    now exists l1, la, lb.
Qed.

Lemma sorted_split_order {A} (R : A -> A -> Prop) l1 l2 l3 x y :
  StronglySorted R (l1 ++ x :: l2 ++ y :: l3) -> R x y.
Proof.
  induction l1 as [|z l1 IH]; simpl; intros H.
  - apply StronglySorted_inv in H. destruct H as [_ H].
    rewrite Forall_forall in H. apply H. apply in_or_app. right. now left.
  - apply StronglySorted_inv in H. tauto.
Qed.

Lemma firstn_incl_In {A} (n : nat) (l : list A) (x : A) :
  In x (firstn n l) -> In x l.
Proof.
  intros H. rewrite <- (firstn_skipn n l). apply in_or_app. now left.
Qed.

Lemma NoDup_app_disjoint {A} (l1 l2 : list A) (y : A) :
  NoDup (l1 ++ l2) -> In y l1 -> In y l2 -> False.
Proof.
  induction l1 as [|z l1 IH]; simpl; [tauto|].
  intros Hnd [->|H1] H2; inversion Hnd; subst; auto.
  match goal with H : ~ In _ _ |- _ => apply H end.
  apply in_or_app. now right.
Qed.

Lemma firstn_reaches {A} (n : nat) (l1 l2 : list A) (x y : A) :
  NoDup (l1 ++ x :: l2) -> In y l2 -> In y (firstn n (l1 ++ x :: l2)) ->
  In x (firstn n (l1 ++ x :: l2)).
Proof.
  intros Hnd Hy Hin. rewrite firstn_app in *.
  destruct (Nat.le_gt_cases n (List.length l1)) as [Hle|Hgt].
  - exfalso. replace (n - List.length l1)%nat with 0%nat in Hin by lia.
    simpl in Hin. rewrite app_nil_r in Hin.
    apply firstn_incl_In in Hin.
    apply (NoDup_app_disjoint _ _ y Hnd Hin). now right.
  - apply in_or_app. right.
    destruct (n - List.length l1)%nat eqn:E; [lia|]. now left.
Qed.

End Outranks.

(** A hybrid search over the nested roots: the text search returns the
    chunk of [b.rs] from the text table of every root above it, the vector
    search does not return it, and the fused result puts it first. *)
Example nested_roots_repeat_a_key :
  let R := Fixture.runtime Fixture.parses in
  let db := Index.store Fixture.nested in
  option_map keys
    (match fst (Store.ftsSearch Fixture.host0 "parse" 5 false db) with
     | Ok rs => Some rs | Throw _ => None end)
  = Some ["/r/a.rs:1:3"; "/r/s/t/u/b.rs:1:3"; "/r/s/t/u/b.rs:1:3";
          "/r/s/t/u/b.rs:1:3"] /\
  option_map keys
    (match fst (Store.vectorSearch Fixture.host0 (Some [1%Q]) 5 false db) with
     | Ok rs => Some rs | Throw _ => None end)
  = Some ["/r/a.rs:1:3"] /\
  option_map keys
    (match fst (Index.search R (Fixture.constant 1 "model-A") "parse"
                             (Fixture.opts Index.hybrid None) Fixture.nested)
     with Ok rs => Some rs | Throw _ => None end)
  = Some ["/r/s/t/u/b.rs:1:3"; "/r/a.rs:1:3"].
Proof. vm_compute. repeat split; reflexivity. Qed.

(** C8, counterexample.  The text list [a; b; b; b] repeats the key [b],
    as the text search does for a chunk under nested roots; the vector
    list is [a].  The chunk [a] has rank 1 in both lists, the chunk [b] is
    in the text list only, at ranks 2 to 4, and yet [b] comes first: its
    three terms add up to more than the two terms of [a]. *)
Theorem repeated_key_outranks_both_lists :
  exists rb ra,
    Rank.rrfMerge repeats [sr "a"] 10 = [rb; ra] /\
    chunkKey rb = "b" /\ chunkKey ra = "a" /\
    rankOf "a" repeats = Some 1%nat /\ rankOf "a" [sr "a"] = Some 1%nat /\
    rankOf "b" repeats = Some 2%nat /\ rankOf "b" [sr "a"] = None /\
    (score ra < score rb)%Q.
Proof.
  eexists. eexists. split; [vm_compute; reflexivity|].
  repeat split; vm_compute; reflexivity.
Qed.

(** C8. Let no list repeat a chunk key, and let the lists be arrays (fewer
    than [2^32] rows).  In the fused list a chunk [a] of both lists comes
    before a chunk [b] of one list only whenever the rank of [a] in the
    vector list is at least as good as the rank of [b] in its list, or
    [b] is in the text list and the rank of [a] in the text list is at
    least as good as the rank of [b] (equal ranks included).  The score of
    [a], the binary64 sum of [0.4 / (60 + i)] and [0.6 / (60 + j)],
    strictly exceeds the score of [b], which is at most [0.6 / (60 + m)];
    [a] stands earlier in the fused list, also when [b] was met first, and
    [a] is in every truncated result that holds [b]. *)
Theorem rrf_both_lists_outranks (fts vec : list SearchResult) (limit : nat)
        (a b : string) (i j m : nat) :
  NoDup (keys fts) -> NoDup (keys vec) ->
  (Z.of_nat (List.length fts) < 2 ^ 32)%Z ->
  (Z.of_nat (List.length vec) < 2 ^ 32)%Z ->
  rankOf a fts = Some i -> rankOf a vec = Some j ->
  (rankOf b fts = Some m /\ rankOf b vec = None /\
   ((i <= m)%nat \/ (j <= m)%nat)) \/
  (rankOf b fts = None /\ rankOf b vec = Some m /\ (j <= m)%nat) ->
  let full := Rank.rrfMerge fts vec (List.length fts + List.length vec) in
  (exists ra rb l1 l2 l3,
      full = l1 ++ ra :: l2 ++ rb :: l3 /\
      chunkKey ra = a /\ chunkKey rb = b /\
      score ra = Double.add (Double.div Rank.ftsWeight (denom i))
                            (Double.div Rank.vecWeight (denom j)) /\
      (score rb <= Double.div Rank.vecWeight (denom m))%Q /\
      (score rb < score ra)%Q) /\
  (In b (keys (Rank.rrfMerge fts vec limit)) ->
   In a (keys (Rank.rrfMerge fts vec limit))).
Proof.
  intros Hf Hv Lf Lv Hi Hj Hb full.
  destruct (rrfMerge_shape fts vec limit) as [Hnd [Hkeys [Hsorted Htrunc]]].
  destruct (rrfMerge_rows fts vec Hf Hv) as [Hscore _].
  fold full in Hnd, Hkeys, Hscore, Hsorted, Htrunc.
  assert (Ha : In a (keys full)).
  { apply Hkeys. left. eapply rankOf_in; eauto. }
  assert (Hbin : In b (keys full)).
  { apply Hkeys. destruct Hb as [[H _]|[_ [H _]]];
      [left|right]; eapply rankOf_in; eauto. }
  apply in_map_iff in Ha. destruct Ha as [ra [Hka Hra]].
  apply in_map_iff in Hbin. destruct Hbin as [rb [Hkb Hrb]].
  destruct (fused_gap fts vec a b i j m Lf Lv Hi Hj Hb) as [Hgap Hsingle].
  assert (Hlt : (score rb < score ra)%Q).
  { rewrite (Hscore ra Hra), (Hscore rb Hrb), Hka, Hkb. exact Hgap. }
  assert (Hne : ra <> rb).
  { intros E. subst rb. apply (Qlt_irrefl (score ra)). exact Hlt. }
  assert (Hsa : score ra = Double.add (Double.div Rank.ftsWeight (denom i))
                                      (Double.div Rank.vecWeight (denom j))).
  { rewrite (Hscore ra Hra), Hka. now apply fused_both. }
  assert (Hsb : (score rb <= Double.div Rank.vecWeight (denom m))%Q).
  { rewrite (Hscore rb Hrb), Hkb. exact Hsingle. }
  destruct (in_two_split ra rb full Hra Hrb Hne)
    as [[l1 [l2 [l3 E]]]|[l1 [l2 [l3 E]]]].
  - split.
    + exists ra, rb, l1, l2, l3. repeat split; auto.
    + rewrite Htrunc. intros Hin.
      apply in_map_iff in Hin. destruct Hin as [rb' [Hkb' Hrb']].
      assert (rb' = rb).
      { pose proof (firstn_incl_In _ _ _ Hrb') as Hfull.
        clear - Hnd Hfull Hrb Hkb Hkb'.
        apply (keys_inj full); auto. congruence. }
      subst rb'. apply in_map_iff. exists ra. split; auto.
      rewrite E in *. apply firstn_reaches with (y := rb); auto.
      * clear - Hnd. unfold keys in Hnd.
        apply NoDup_map_inv in Hnd. exact Hnd.
      * apply in_or_app. right. now left.
  - exfalso. rewrite E in Hsorted.
    apply sorted_split_order in Hsorted.
    apply (Qlt_irrefl (score ra)). eapply Qle_lt_trans; eauto.
Qed.

(** The text list meets [b] first; [a] is second in the text list and
    first in the vector list, and the sort puts it in front of [b]. *)
Lemma rrf_both_lists_outranks_witness :
  let fts := [sr "b"; sr "a"] in
  let vec := [sr "a"; sr "c"] in
  let full := Rank.rrfMerge fts vec 4 in
  (exists ra rb l1 l2 l3,
      full = l1 ++ ra :: l2 ++ rb :: l3 /\
      chunkKey ra = "a" /\ chunkKey rb = "b" /\
      score ra = Double.add (Double.div Rank.ftsWeight (denom 2))
                            (Double.div Rank.vecWeight (denom 1)) /\
      (score rb <= Double.div Rank.vecWeight (denom 1))%Q /\
      (score rb < score ra)%Q) /\
  (In "b" (keys (Rank.rrfMerge fts vec 1)) ->
   In "a" (keys (Rank.rrfMerge fts vec 1))).
Proof.
  exact (rrf_both_lists_outranks [sr "b"; sr "a"] [sr "a"; sr "c"] 1
           "a" "b" 2 1 1 ltac:(nodup_keys) ltac:(nodup_keys)
           ltac:(simpl; lia) ltac:(simpl; lia)
           eq_refl eq_refl
           (or_introl (conj eq_refl (conj eq_refl (or_intror (le_n 1)))))).
Defined.

(** ** The health check of search *)

Section Quiet.

Lemma quiet_ret {S A} (a : A) : quiet (@ret S A a).
Proof. intros s. reflexivity. Qed.

Lemma quiet_bind {S A B} (m : M S A) (f : A -> M S B) :
  quiet m -> (forall a, quiet (f a)) -> quiet (bind m f).
Proof.
  intros Hm Hf s. unfold bind. specialize (Hm s).
  destruct (m s) as [[a|e] s']; simpl in *; auto. apply Hf.
Qed.

Lemma quiet_tryCatch {S A} (m : M S A) (h : Error -> M S A) :
  quiet m ->
  (forall e, Index.isUnsearchable (@Throw A e) = false -> quiet (h e)) ->
  quiet (tryCatch m h).
Proof.
  intros Hm Hh s. unfold tryCatch. specialize (Hm s).
  destruct (m s) as [[a|e] s']; simpl in *; auto. now apply Hh.
Qed.

Lemma quiet_foldM {S A B} (xs : list A) (body : B -> A -> M S B) :
  (forall acc x, quiet (body acc x)) -> forall acc, quiet (foldM xs acc body).
Proof.
  intros Hb. induction xs as [|x xs IH]; intros acc; simpl.
  - apply quiet_ret.
  - apply quiet_bind; auto.
Qed.

Lemma quiet_forEach {S A} (xs : list A) (body : A -> M S unit) :
  (forall x, quiet (body x)) -> quiet (forEach xs body).
Proof.
  intros Hb. induction xs as [|x xs IH]; simpl.
  - apply quiet_ret.
  - apply quiet_bind; auto.
Qed.

Lemma quiet_stmt {A} H (f : Store.Tables -> A * Store.Tables) :
  quiet (Store.stmt H f).
Proof.
  intros db. unfold Store.stmt.
  destruct (fails H (Store.executed db)); simpl; auto.
  destruct (f (Store.tables db)); reflexivity.
Qed.

Lemma quiet_query {A} H (f : Store.Tables -> A) : quiet (Store.query H f).
Proof. apply quiet_stmt. Qed.

Lemma quiet_onStore {A} (m : M Store.DB A) : quiet m -> quiet (Index.onStore m).
Proof.
  intros Hm inst. unfold Index.onStore. specialize (Hm (Index.store inst)).
  destruct (m (Index.store inst)); auto.
Qed.

Lemma quiet_embed O texts : quiet (Index.embed O texts).
Proof.
  intros inst. unfold Index.embed.
  destruct (Index.embedder O texts); reflexivity.
Qed.

Lemma quiet_embedQuery O q : quiet (Index.embedQuery O q).
Proof.
  apply quiet_bind; [apply quiet_embed | intros; apply quiet_ret].
Qed.

Lemma quiet_vectorSearch H v n b : quiet (Store.vectorSearch H v n b).
Proof.
  destruct v as [v|].
  - apply quiet_bind; [apply quiet_query | intros; apply quiet_ret].
  - intros s. reflexivity.
Qed.

Lemma quiet_selectMatches H tb q n : quiet (Store.selectMatches H tb q n).
Proof.
  unfold Store.selectMatches. destruct (Store.fts.indexed tb).
  - apply quiet_query.
  - intros s. reflexivity.
Qed.

Lemma quiet_ftsSearch H q n b : quiet (Store.ftsSearch H q n b).
Proof.
  unfold Store.ftsSearch.
  apply quiet_bind; [apply quiet_query|]. intros ids.
  apply quiet_bind; [|intros; apply quiet_ret].
  apply quiet_foldM. intros acc id.
  apply quiet_bind; [apply quiet_query|]. intros [tb|]; [|apply quiet_ret].
  apply quiet_tryCatch.
  - apply quiet_bind; [apply quiet_selectMatches|]. intros scores.
    apply quiet_foldM. intros acc' cs.
    apply quiet_bind; [apply quiet_query|]. intros [r|]; apply quiet_ret.
  - intros e He.
    destruct (negb (JS.includes (errorMessage e) "no such table") &&
              negb (JS.includes (errorMessage e) "no such index")).
    + intros s. exact He.
    + apply quiet_ret.
Qed.

Lemma quiet_dispatch R O q opts : quiet (Index.dispatch R O q opts).
Proof.
  unfold Index.dispatch.
  destruct (Index.orDefault (Index.mode opts) Index.semantic).
  - apply quiet_bind; [apply quiet_embedQuery|]. intros v.
    apply quiet_bind; [apply quiet_onStore, quiet_vectorSearch|].
    intros; apply quiet_ret.
  - destruct (negb _); [apply quiet_ret|].
    apply quiet_bind; [apply quiet_onStore, quiet_ftsSearch|].
    intros; apply quiet_ret.
  - destruct (negb _); [apply quiet_ret|].
    apply quiet_bind; [apply quiet_onStore, quiet_ftsSearch|]. intros f.
    apply quiet_bind; [apply quiet_embedQuery|]. intros v.
    apply quiet_bind; [apply quiet_onStore, quiet_vectorSearch|].
    intros; apply quiet_ret.
Qed.

End Quiet.

Section Flag.

Lemma keepsFlag_ret {A} (a : A) : keepsFlag (ret a).
Proof. intros inst. reflexivity. Qed.

Lemma keepsFlag_bind {A B} (m : M Index.Inst A) (f : A -> M Index.Inst B) :
  keepsFlag m -> (forall a, keepsFlag (f a)) -> keepsFlag (bind m f).
Proof.
  intros Hm Hf inst. unfold bind. specialize (Hm inst).
  destruct (m inst) as [[a|e] inst']; simpl in *; auto.
  now rewrite Hf.
Qed.

Lemma keepsFlag_onStore {A} (m : M Store.DB A) : keepsFlag (Index.onStore m).
Proof.
  intros inst. unfold Index.onStore.
  destruct (m (Index.store inst)); reflexivity.
Qed.

Lemma keepsFlag_embedQuery O q : keepsFlag (Index.embedQuery O q).
Proof.
  apply keepsFlag_bind; [|intros; apply keepsFlag_ret].
  intros inst. unfold Index.embed.
  destruct (Index.embedder O [q]); reflexivity.
Qed.

Lemma keepsFlag_dispatch R O q opts : keepsFlag (Index.dispatch R O q opts).
Proof.
  unfold Index.dispatch.
  destruct (Index.orDefault (Index.mode opts) Index.semantic).
  - apply keepsFlag_bind; [apply keepsFlag_embedQuery|]. intros v.
    apply keepsFlag_bind; [apply keepsFlag_onStore|].
    intros; apply keepsFlag_ret.
  - destruct (negb _); [apply keepsFlag_ret|].
    apply keepsFlag_bind; [apply keepsFlag_onStore|].
    intros; apply keepsFlag_ret.
  - destruct (negb _); [apply keepsFlag_ret|].
    apply keepsFlag_bind; [apply keepsFlag_onStore|]. intros f.
    apply keepsFlag_bind; [apply keepsFlag_embedQuery|]. intros v.
    apply keepsFlag_bind; [apply keepsFlag_onStore|].
    intros; apply keepsFlag_ret.
Qed.

(** The health check sets the flag whatever it finds. *)
Lemma verifySearchable_sets R inst :
  Index.searchVerified (snd (Index.verifySearchable R inst)) = true.
Proof.
  unfold Index.verifySearchable.
  destruct (Index.searchVerified inst) eqn:E; simpl; auto.
  destruct (Store.fileSize (Index.store inst)) as [sz|]; simpl; auto.
  destruct (sz <=? 1000000)%Z; simpl; auto.
  unfold bind.
  pose proof (keepsFlag_onStore (Store.listCodebases (Index.host R))
                (Index.mkInst (Index.store inst) true)) as Hk.
  destruct (Index.onStore (Store.listCodebases (Index.host R)) _)
    as [[cs|e] inst']; simpl in *; auto.
  destruct cs; simpl; auto.
  destruct (0 <? _)%Z; simpl; auto.
Qed.

(** Once the flag is set the health check does nothing. *)
Lemma verifySearchable_skips R inst :
  Index.searchVerified inst = true ->
  Index.verifySearchable R inst = (Ok tt, inst).
Proof. unfold Index.verifySearchable. now intros ->. Qed.

Lemma search_sets R O q opts inst :
  Index.searchVerified (snd (Index.search R O q opts inst)) = true.
Proof.
  unfold Index.search, bind.
  pose proof (verifySearchable_sets R inst) as Hv.
  destruct (Index.verifySearchable R inst) as [[[]|e] inst1]; simpl in *; auto.
  now rewrite keepsFlag_dispatch.
Qed.

Lemma search_verified R O q opts inst :
  Index.searchVerified inst = true ->
  Index.search R O q opts inst = Index.dispatch R O q opts inst.
Proof.
  intros H. unfold Index.search, bind.
  now rewrite verifySearchable_skips.
Qed.

Lemma outcomes_verified R O calls : forall inst,
  Index.searchVerified inst = true ->
  Index.outcomes (Index.search R O) calls inst =
  Index.outcomes (Index.dispatch R O) calls inst /\
  Forall (fun out => Index.isUnsearchable out = false)
         (Index.outcomes (Index.search R O) calls inst).
Proof.
  induction calls as [|[q opts] calls IH]; intros inst Hv; simpl.
  - split; constructor.
  - rewrite (search_verified R O q opts inst Hv).
    pose proof (keepsFlag_dispatch R O q opts inst) as Hk.
    pose proof (quiet_dispatch R O q opts inst) as Hq.
    destruct (Index.dispatch R O q opts inst) as [r inst']. simpl in *.
    rewrite Hv in Hk. destruct (IH inst' Hk) as [IH1 IH2].
    split; [now rewrite IH1 | constructor; auto].
Qed.

End Flag.

(** C10. On one instance only the first search can throw the
    unsearchable-database error.  Whatever the first search does, it
    leaves [searchVerified] set; from then on the health check returns at
    once without reading anything, no search throws that error, and every
    search is the dispatch on the mode alone. *)
Theorem unsearchable_only_first (R : Index.Runtime)
        (O : Index.CodeIndexOptions) (query : string)
        (opts : Index.SearchOptions) (calls : list (string * Index.SearchOptions))
        (inst : Index.Inst) :
  let inst1 := snd (Index.search R O query opts inst) in
  Index.searchVerified inst1 = true /\
  Index.verifySearchable R inst1 = (Ok tt, inst1) /\
  Forall (fun out => Index.isUnsearchable out = false)
         (Index.outcomes (Index.search R O) calls inst1) /\
  Index.outcomes (Index.search R O) calls inst1 =
  Index.outcomes (Index.dispatch R O) calls inst1.
Proof.
  intros inst1. subst inst1.
  pose proof (search_sets R O query opts inst) as Hs.
  destruct (outcomes_verified R O calls _ Hs) as [H1 H2].
  repeat split; auto using verifySearchable_skips.
Qed.

(** ** Threshold and blank queries *)

Section Threshold.

Lemma applyThreshold_zero rs : Index.applyThreshold 0 rs = rs.
Proof. reflexivity. Qed.

Lemma applyThreshold_pos th rs :
  (0 < th)%Q ->
  Index.applyThreshold th rs = filter (fun r => Qle_bool th (score r)) rs.
Proof.
  intros H. unfold Index.applyThreshold.
  destruct (Qle_bool th 0) eqn:E; auto.
  apply Qle_bool_iff in E. exfalso. apply (Qlt_irrefl 0). eapply Qlt_le_trans; eauto.
Qed.

Lemma applyThreshold_nonpos th rs :
  (th <= 0)%Q -> Index.applyThreshold th rs = rs.
Proof.
  intros H. unfold Index.applyThreshold.
  apply Qle_bool_iff in H. now rewrite H.
Qed.

(** [m] followed by a pure last step. *)
Lemma bind_ret_mapOk {S A B} (m : M S A) (f : A -> B) s :
  bind m (fun a => ret (f a)) s = mapOk f (m s).
Proof.
  unfold bind, mapOk, ret. destruct (m s) as [[a|e] s']; reflexivity.
Qed.

Lemma applyThreshold_nil th : Index.applyThreshold th [] = [].
Proof. unfold Index.applyThreshold. now destruct (negb _). Qed.

Lemma dispatch_threshold R O q opts th inst :
  Index.dispatch R O q (Index.withThreshold opts (Some th)) inst =
  mapOk (Index.applyThreshold th)
        (Index.dispatch R O q (Index.withThreshold opts None) inst).
Proof.
  unfold Index.dispatch. cbn [Index.withThreshold Index.limit Index.threshold
                              Index.includeSnippet Index.mode Index.orDefault].
  destruct (Index.mode opts) as [[| |]|]; cbn [Index.orDefault].
  - unfold bind, mapOk, ret.
    destruct (Index.embedQuery O q inst) as [[v|e] i1]; auto.
    destruct (Index.onStore _ i1) as [[rs|e] i2]; auto.
  - destruct (negb _);
      [unfold mapOk, ret; simpl; now rewrite applyThreshold_nil|].
    unfold bind, mapOk, ret.
    destruct (Index.onStore _ inst) as [[rs|e] i2]; auto.
  - destruct (negb _);
      [unfold mapOk, ret; simpl; now rewrite applyThreshold_nil|].
    unfold bind, mapOk, ret.
    destruct (Index.onStore _ inst) as [[f|e] i1]; auto.
    destruct (Index.embedQuery O q i1) as [[v|e] i2]; auto.
    destruct (Index.onStore _ i2) as [[rs|e] i3]; auto.
  - unfold bind, mapOk, ret.
    destruct (Index.embedQuery O q inst) as [[v|e] i1]; auto.
    destruct (Index.onStore _ i1) as [[rs|e] i2]; auto.
Qed.

Lemma threshold_is_last_step R O q opts th inst :
  Index.search R O q (Index.withThreshold opts (Some th)) inst =
  mapOk (Index.applyThreshold th)
        (Index.search R O q (Index.withThreshold opts None) inst).
Proof.
  unfold Index.search, bind.
  destruct (Index.verifySearchable R inst) as [[[]|e] inst1]; [|reflexivity].
  apply dispatch_threshold.
Qed.

End Threshold.

(** C3, as amended.  The result of [search] under a threshold [th] is
    the result of the same search without threshold, passed through
    [applyThreshold th] as the last step.  When [th > 0] that step keeps
    exactly the results of score at least [th]; when [th <= 0], the
    default 0 included, it keeps every result. *)
Theorem search_threshold (R : Index.Runtime) (O : Index.CodeIndexOptions)
        (query : string) (opts : Index.SearchOptions) (th : Q)
        (inst : Index.Inst) :
  let dispatched := Index.search R O query (Index.withThreshold opts None) inst in
  Index.search R O query (Index.withThreshold opts (Some th)) inst =
  mapOk (Index.applyThreshold th) dispatched /\
  forall rs,
    ((0 < th)%Q ->
     Index.applyThreshold th rs = filter (fun r => Qle_bool th (score r)) rs /\
     Forall (fun r => (th <= score r)%Q) (Index.applyThreshold th rs)) /\
    ((th <= 0)%Q -> Index.applyThreshold th rs = rs).
Proof.
  intros dispatched. split; [apply threshold_is_last_step|].
  intros rs. split.
  - intros Hpos. rewrite applyThreshold_pos by auto. split; auto.
    apply Forall_forall. intros r Hr. apply filter_In in Hr.
    now apply Qle_bool_iff.
  - apply applyThreshold_nonpos.
Qed.

Lemma search_threshold_witness :
  let R := Fixture.runtime Fixture.parses in
  let O := Fixture.constant (-1) "model-A" in
  let opts := Fixture.opts Index.semantic None in
  fst (Index.search R O "parse" (Index.withThreshold opts (Some (1 # 2)))
                    Fixture.indexedA) = Ok [] /\
  Forall (fun r => (1 # 2 <= score r)%Q)
         (Index.applyThreshold (1 # 2) [sr "a"]) /\
  Index.applyThreshold 0 [sr "a"] = [sr "a"].
Proof.
  intros R O opts.
  destruct (search_threshold R O "parse" opts (1 # 2) Fixture.indexedA)
    as [Hlast Hhalf].
  destruct (search_threshold R O "parse" opts 0 Fixture.indexedA)
    as [_ Hzero].
  split; [|split].
  - rewrite Hlast. vm_compute. reflexivity.
  - apply (proj1 (Hhalf [sr "a"])). reflexivity.
  - apply (proj2 (Hzero [sr "a"])). apply Qle_refl.
Defined.

(** C3, as stated, fails: at threshold 0 a result of score -1 is
    returned. *)
Lemma threshold_zero_keeps_negative_score :
  exists r,
    fst (Index.search (Fixture.runtime Fixture.parses)
                      (Fixture.constant (-1) "model-A") "parse"
                      (Fixture.opts Index.semantic (Some 0))
                      Fixture.indexedA) = Ok [r] /\
    (score r == -1)%Q /\ ~ (0 <= score r)%Q.
Proof.
  eexists. split; [vm_compute; reflexivity|].
  split; [reflexivity|]. intros H. vm_compute in H. apply H. reflexivity.
Qed.

(** C2, as amended.  When the keyword preprocessing of the query gives
    a blank string, [search] in mode keyword and in mode hybrid is the
    health check followed by the empty list: the dispatch returns [[]] and
    leaves the instance as it was, so neither the embedder nor the store
    is used. *)
Theorem blank_query_returns_nothing (R : Index.Runtime)
        (O : Index.CodeIndexOptions) (query : string)
        (opts : Index.SearchOptions) (inst : Index.Inst) :
  JS.trim (Index.preprocessQuery R query Query.keywords) = "" ->
  Index.mode opts = Some Index.keyword \/ Index.mode opts = Some Index.hybrid ->
  Index.dispatch R O query opts inst = (Ok [], inst) /\
  Index.search R O query opts inst =
  (Index.verifySearchable R ;;; ret [])%monad inst /\
  (Index.searchVerified inst = true ->
   Index.search R O query opts inst = (Ok [], inst)).
Proof.
  intros Hblank Hmode.
  assert (Hd : forall i, Index.dispatch R O query opts i = (Ok [], i)).
  { intros i. unfold Index.dispatch.
    destruct Hmode as [-> | ->]; cbn [Index.orDefault]; now rewrite Hblank. }
  split; [apply Hd|]. split.
  - unfold Index.search, bind, ret.
    destruct (Index.verifySearchable R inst) as [[[]|e] inst1]; auto.
  - intros Hv. rewrite search_verified by auto. apply Hd.
Qed.

Lemma blank_query_returns_nothing_witness :
  Index.dispatch (Fixture.runtime Fixture.parses)
                 (Fixture.constant 1 "model-A") "the a an"
                 (Fixture.opts Index.hybrid None) Fixture.indexedA
  = (Ok [], Fixture.indexedA).
Proof.
  apply (blank_query_returns_nothing (Fixture.runtime Fixture.parses)
           (Fixture.constant 1 "model-A") "the a an"
           (Fixture.opts Index.hybrid None) Fixture.indexedA).
  - vm_compute. reflexivity.
  - right. reflexivity.
Defined.

(** C2, as stated, fails: the query is blank after preprocessing, the
    vector search alone finds a row, the fusion of the empty text list with
    it is not empty, and hybrid search returns nothing. *)
Lemma hybrid_blank_query_skips_semantic :
  let R := Fixture.runtime Fixture.parses in
  let O := Fixture.constant 1 "model-A" in
  JS.trim (Index.preprocessQuery R "the a an" Query.keywords) = "" /\
  fst (Index.search R O "the a an" (Fixture.opts Index.hybrid None)
                    Fixture.indexedA) = Ok [] /\
  exists vecResults,
    fst (Index.search R O "the a an" (Fixture.opts Index.semantic None)
                      Fixture.indexedA) = Ok vecResults /\
    Rank.rrfMerge [] vecResults 5 <> [].
Proof.
  split; [vm_compute; reflexivity|].
  split; [vm_compute; reflexivity|].
  eexists. split; [vm_compute; reflexivity|].
  vm_compute. discriminate.
Qed.

(** ** The chunk upsert transaction *)

Section Statements.
Variable H : Host.

Lemma exec_run f db :
  Store.exec H f db =
  if fails H (Store.executed db)
  then (Throw (EngineError "I/O error"),
        Store.mkDB (Store.tables db) (Store.snapshot db)
                   (S (Store.executed db)) (Store.fileSize db))
  else (Ok tt,
        Store.mkDB (f (Store.tables db)) (Store.snapshot db)
                   (S (Store.executed db)) (Store.fileSize db)).
Proof.
  unfold Store.exec, Store.stmt. now destruct (fails H (Store.executed db)).
Qed.

Lemma runs_exec f : runs H (Store.exec H f) f.
Proof.
  intros db. rewrite exec_run.
  destruct (fails H (Store.executed db)) eqn:E; simpl; repeat split; auto.
  - discriminate.
  - intros Hn. rewrite Hn in E. discriminate.
Qed.

Lemma runs_seq m1 m2 f1 f2 :
  runs H m1 f1 -> runs H m2 f2 ->
  runs H (m1 ;;; m2)%monad (fun t => f2 (f1 t)).
Proof.
  intros H1 H2 db. unfold bind.
  destruct (H1 db) as [Hs1 [Ht1 Hok1]].
  destruct (m1 db) as [[[]|e] db1] eqn:E1; simpl in *.
  - destruct (H2 db1) as [Hs2 [Ht2 Hok2]].
    repeat split.
    + congruence.
    + intros u Hu. rewrite (Ht2 u Hu). f_equal. now apply (Ht1 tt).
    + auto.
  - repeat split; auto; try discriminate.
Qed.

Lemma runs_ret : runs H (ret tt) (fun t => t).
Proof. intros db. simpl. repeat split; auto. Qed.

Lemma runs_ext m f g : runs H m f -> (forall t, f t = g t) -> runs H m g.
Proof.
  intros Hm Hfg db. destruct (Hm db) as [Hs [Ht Hok]].
  repeat split; auto. intros u Hu. rewrite <- Hfg. eauto.
Qed.

Lemma runs_forEach {A} (xs : list A) (body : A -> M Store.DB unit)
      (g : Store.Tables -> A -> Store.Tables) :
  (forall x, runs H (body x) (fun t => g t x)) ->
  runs H (forEach xs body) (fun t => fold_left g xs t).
Proof.
  intros Hb. induction xs as [|x xs IH]; simpl.
  - apply runs_ret.
  - eapply runs_ext; [apply runs_seq; [apply Hb | apply IH]|]. reflexivity.
Qed.

Lemma runs_upsertOneFile codebaseId now fc :
  runs H (Store.upsertOneFile H codebaseId now fc)
       (fun t => upsertedFile codebaseId now t fc).
Proof.
  unfold Store.upsertOneFile, upsertedFile.
  eapply runs_ext.
  - apply runs_seq; [apply runs_exec|].
    apply runs_seq; [|apply runs_exec].
    apply (runs_forEach (Store.fcChunks fc) _
             (fun t c => Store.insertChunk codebaseId now c t)).
    intros c. apply runs_exec.
  - reflexivity.
Qed.

Lemma runs_batch_body codebaseId fileChunks :
  runs H (Store.prepare H ;;; Store.prepare H ;;; Store.prepare H ;;;
          forEach fileChunks (Store.upsertOneFile H codebaseId (dateNow H)))%monad
       (upsertedFiles codebaseId (dateNow H) fileChunks).
Proof.
  eapply runs_ext.
  - apply runs_seq; [apply runs_exec|].
    apply runs_seq; [apply runs_exec|].
    apply runs_seq; [apply runs_exec|].
    apply (runs_forEach fileChunks _ (upsertedFile codebaseId (dateNow H))).
    intros fc. apply runs_upsertOneFile.
  - reflexivity.
Qed.

(** A transaction commits the change of its body or leaves the tables
    as they were. *)
Lemma transaction_atomic body f db :
  runs H body f ->
  (forall u db', Store.transaction H body db = (Ok u, db') ->
                 Store.tables db' = f (Store.tables db) /\
                 Store.snapshot db' = None) /\
  (forall e db', Store.transaction H body db = (Throw e, db') ->
                 Store.tables db' = Store.tables db) /\
  ((forall n, fails H n = false) ->
   fst (Store.transaction H body db) = Ok tt).
Proof.
  intros Hbody.
  unfold Store.transaction, bind, tryCatch, Store.BEGIN, Store.COMMIT,
    Store.ROLLBACK, ret, throw.
  destruct (fails H (Store.executed db)) eqn:Eb.
  { split; [|split].
    - intros u db' E. discriminate.
    - intros e db' E. now inversion E.
    - intros Hn. rewrite Hn in Eb. discriminate. }
  set (db1 := Store.mkDB (Store.tables db) (Some (Store.tables db))
                         (S (Store.executed db)) (Store.fileSize db)).
  destruct (Hbody db1) as [Hs [Ht Hok]].
  destruct (body db1) as [[[]|e] db2] eqn:E2; simpl in *.
  - specialize (Ht tt eq_refl).
    destruct (fails H (Store.executed db2)) eqn:Ec; simpl.
    + split; [|split].
      * intros u db' E. discriminate.
      * intros e db' E. inversion E; subst. simpl. now rewrite Hs.
      * intros Hn. rewrite Hn in Ec. discriminate.
    + split; [|split].
      * intros u db' E. inversion E; subst. simpl. auto.
      * intros e db' E. discriminate.
      * reflexivity.
  - split; [|split].
    + intros u db' E. discriminate.
    + intros e' db' E. inversion E; subst. simpl. now rewrite Hs.
    + intros Hn. specialize (Hok Hn). discriminate.
Qed.

End Statements.

Section UpsertEffect.
Variables (codebaseId now : Z).









End UpsertEffect.



(** ** The scanner and .gitignore *)

Section Ignore.

Lemma has_app set1 set2 x : JS.has (set1 ++ set2) x = JS.has set1 x || JS.has set2 x.
Proof. unfold JS.has. apply existsb_app. Qed.

Lemma has_add_same set x : JS.has (JS.add set x) x = true.
Proof.
  unfold JS.add. destruct (JS.has set x) eqn:E; auto.
  rewrite has_app. simpl. rewrite String.eqb_refl. now rewrite orb_true_r.
Qed.

Lemma has_add_keeps set x y : JS.has set y = true -> JS.has (JS.add set x) y = true.
Proof.
  intros H. unfold JS.add. destruct (JS.has set x); auto.
  rewrite has_app, H. reflexivity.
Qed.

Lemma addLine_keeps patterns line p :
  JS.has patterns p = true -> JS.has (addLine patterns line) p = true.
Proof.
  intros H. unfold addLine.
  destruct (negb _ || _); auto.
  destruct (_ && _); auto using has_add_keeps.
Qed.

Lemma addLines_keep lines : forall patterns p,
  JS.has patterns p = true -> JS.has (fold_left addLine lines patterns) p = true.
Proof.
  induction lines as [|l lines IH]; intros; simpl; auto using addLine_keeps.
Qed.

Lemma strip_truthy s :
  JS.truthy (Walker.stripTrailingSlash s) = true -> JS.truthy s = true.
Proof. destruct s; auto. Qed.

Lemma addLines_simple lines : forall patterns line,
  In line lines ->
  JS.startsWith "#" (JS.trim line) = false ->
  JS.truthy (Walker.stripTrailingSlash (JS.trim line)) = true ->
  JS.includes (Walker.stripTrailingSlash (JS.trim line)) "*" = false ->
  JS.has (fold_left addLine lines patterns)
         (Walker.stripTrailingSlash (JS.trim line)) = true.
Proof.
  induction lines as [|l lines IH]; intros patterns line Hin Hc Ht Hw;
    [destruct Hin|].
  cbn [fold_left].
  destruct Hin as [->|Hin]; [|now apply IH].
  apply addLines_keep. unfold addLine.
  rewrite (strip_truthy _ Ht), Hc, Ht, Hw. simpl. apply has_add_same.
Qed.

Lemma loadIgnorePatterns_simple content line :
  In line (JS.splitOn "010"%char content) ->
  JS.startsWith "#" (JS.trim line) = false ->
  JS.truthy (Walker.stripTrailingSlash (JS.trim line)) = true ->
  JS.includes (Walker.stripTrailingSlash (JS.trim line)) "*" = false ->
  JS.has (Walker.loadIgnorePatterns content)
         (Walker.stripTrailingSlash (JS.trim line)) = true.
Proof. apply addLines_simple. Qed.

Lemma visit_ignored sha256 patterns langFilter dir rel e :
  JS.has patterns (Walker.entryName e) = true ->
  Walker.visit sha256 patterns langFilter dir rel e = ([], []).
Proof.
  intros H.
  assert (Hs : Walker.skippedByName patterns (Walker.entryName e) = true).
  { unfold Walker.skippedByName. rewrite H. apply orb_true_r. }
  destruct e; simpl in *; now rewrite Hs.
Qed.

End Ignore.

(** A line is trimmed as [String.prototype.trim] does: a byte order mark
    in front of the pattern and a no-break space behind it are white
    space. *)
Example gitignore_line_with_byte_order_mark :
  let bom := String (ascii_of_N 239)
               (String (ascii_of_N 187) (String (ascii_of_N 191) "")) in
  let nbsp := String (ascii_of_N 194) (String (ascii_of_N 160) "") in
  Walker.loadIgnorePatterns (bom ++ "parse.rs/" ++ nbsp)%string = ["parse.rs"].
Proof. vm_compute. reflexivity. Qed.

(** C6, as amended.  A line of the root .gitignore that is a simple
    pattern (not a comment, not blank once a trailing slash is dropped,
    without wildcard) rejects every entry that bears its name, a regular
    file as well as a directory: the loop of [walk] emits nothing for the
    entry, and a scan of a directory that holds the .gitignore and the
    entry returns no file. *)
Theorem gitignore_name_rejects_files_too
        (sha256 : string -> string) (gitignore line : string)
        (langFilter : option (list string)) (dir rel : string)
        (e : Walker.Entry) :
  In line (JS.splitOn "010"%char gitignore) ->
  JS.startsWith "#" (JS.trim line) = false ->
  JS.truthy (Walker.stripTrailingSlash (JS.trim line)) = true ->
  JS.includes (Walker.stripTrailingSlash (JS.trim line)) "*" = false ->
  Walker.entryName e = Walker.stripTrailingSlash (JS.trim line) ->
  Walker.visit sha256 (Walker.loadIgnorePatterns gitignore) langFilter
               dir rel e = ([], []) /\
  forall size err,
    Walker.scanDirectory sha256 dir
      (Some [Walker.File ".gitignore" size (inl gitignore); e]) err langFilter
    = ([], []).
Proof.
  intros Hin Hc Ht Hw Hname.
  pose proof (loadIgnorePatterns_simple gitignore line Hin Hc Ht Hw) as Hhas.
  rewrite <- Hname in Hhas.
  split; [now apply visit_ignored|].
  intros size err. unfold Walker.scanDirectory, Walker.walk. simpl.
  rewrite (visit_ignored sha256 _ langFilter dir "" e Hhas). reflexivity.
Qed.

Lemma gitignore_name_rejects_files_too_witness :
  Walker.scanDirectory (fun s => s) "/r"
    (Some [Walker.File ".gitignore" (inl 9%Z) (inl "parse.rs/");
           Walker.File "parse.rs" (inl 13%Z) (inl "fn parse() {}")])
    "" None
  = ([], []).
Proof.
  apply (gitignore_name_rejects_files_too (fun s => s) "parse.rs/"
           "parse.rs/" None "/r" ""
           (Walker.File "parse.rs" (inl 13%Z) (inl "fn parse() {}"))).
  - simpl. auto.
  - reflexivity.
  - reflexivity.
  - reflexivity.
  - reflexivity.
Defined.

(** C6, as stated, fails: [parse.rs] has a supported extension, 13 bytes,
    is neither hidden nor in the hard-coded list, and is scanned when
    there is no .gitignore; named in the .gitignore, it is not emitted. *)
Lemma gitignored_file_is_not_scanned :
  let file := Walker.File "parse.rs" (inl 13%Z) (inl "fn parse() {}") in
  let gitignore := Walker.File ".gitignore" (inl 9%Z)
                               (inl ("parse.rs" ++ Index.newline)%string) in
  Lang.detectLanguage "parse.rs" = Some Lang.RUST /\
  JS.startsWith "." "parse.rs" = false /\
  JS.has Walker.ALWAYS_IGNORE "parse.rs" = false /\
  Walker.loadIgnorePatterns ("parse.rs" ++ Index.newline)%string = ["parse.rs"] /\
  map Walker.absPath
      (fst (Walker.scanDirectory (fun s => s) "/r" (Some [file]) "" None))
  = ["/r/parse.rs"] /\
  Walker.scanDirectory (fun s => s) "/r" (Some [gitignore; file]) "" None
  = ([], []).
Proof. vm_compute. repeat split; reflexivity. Qed.

(** ** The chunker *)

Section Chunker.

Lemma has_In set x : JS.has set x = true <-> In x set.
Proof.
  unfold JS.has. rewrite existsb_exists. split.
  - intros [y [Hy E]]. apply String.eqb_eq in E. now subst.
  - intros H. exists x. split; auto. apply String.eqb_refl.
Qed.

(** In every registered language the splittable kinds are top-level
    kinds. *)
Lemma registry_split_top cfg t :
  In cfg Lang.LANGUAGES ->
  JS.has (Lang.splitNodes cfg) t = true ->
  JS.has (Lang.topLevelNodes cfg) t = true.
Proof.
  intros Hcfg Ht.
  assert (Hall : forallb (fun cfg => forallb (JS.has (Lang.topLevelNodes cfg))
                                             (Lang.splitNodes cfg))
                         Lang.LANGUAGES = true) by (vm_compute; reflexivity).
  rewrite forallb_forall in Hall. specialize (Hall cfg Hcfg).
  rewrite forallb_forall in Hall. apply Hall. now apply has_In.
Qed.

Lemma span_makeChunk c node k :
  span (Chunk.makeChunk c node k) = Chunk.lineCount node.
Proof. unfold span, Chunk.makeChunk, Chunk.lineCount. simpl. lia. Qed.

(** What [emitOrSplit] emits: the outer node whole, when it is small, not
    splittable or without members; else the members of the inner node. *)
Lemma emitOrSplit_cases c inner outer ch :
  In ch (Chunk.emitOrSplit c inner outer) ->
  (ch = Chunk.makeChunk c outer (Chunk.nodeKind (Chunk.type inner)) /\
   (Chunk.splitHas c (Chunk.type inner) = true ->
    (Chunk.lineCount outer <= 150)%Z \/
    ((150 < Chunk.lineCount outer)%Z /\ Chunk.subItems c inner = []))) \/
  (Chunk.splitHas c (Chunk.type inner) = true /\
   (150 < Chunk.lineCount outer)%Z /\
   exists sub, In sub (Chunk.subItems c inner) /\
               ch = Chunk.makeChunk c sub (Chunk.nodeKind (Chunk.type sub))).
Proof.
  unfold Chunk.emitOrSplit, Chunk.MAX_CHUNK_LINES.
  destruct (Chunk.lineCount outer <=? 150)%Z eqn:El; simpl.
  - intros [<-|[]]. left. split; auto. intros _. left. now apply Z.leb_le.
  - apply Z.leb_gt in El.
    destruct (Chunk.splitHas c (Chunk.type inner)) eqn:Es; simpl.
    + unfold Chunk.splitLargeNode.
      destruct (Chunk.subItems c inner) as [|s subs] eqn:Esub.
      * intros [<-|[]]. left. split; auto.
      * intros Hin. right. repeat split; auto.
        apply in_map_iff in Hin. destruct Hin as [sub [<- Hsub]].
        exists sub. auto.
    + intros [<-|[]]. left. split; auto. discriminate.
Qed.

Lemma processTopLevel_cases c node ch :
  In ch (Chunk.processTopLevel c node) ->
  In ch (Chunk.emitOrSplit c node node).
Proof.
  unfold Chunk.processTopLevel. now destruct (negb _).
Qed.

End Chunker.

(** C5, as amended.  For a language of the registry, every chunk
    emitted for a child of the root is either the whole node, under the
    kind of its unwrapped declaration, and then, when that kind is in the
    splittable set, it spans at most 150 lines or the node spans more than
    150 lines and has no recognised member; or it is a member of a
    splittable node of more than 150 lines. *)
Theorem split_bound (c : Chunk.Ctx) (node : Chunk.Node)
        (ch : Chunk.CodeChunk) :
  In (Chunk.config c) Lang.LANGUAGES ->
  In ch (Chunk.processNode c node) ->
  let inner := unwrapped node in
  (ch = Chunk.makeChunk c node (Chunk.nodeKind (Chunk.type inner)) /\
   span ch = Chunk.lineCount node /\
   (Chunk.splitHas c (Chunk.type inner) = true ->
    (span ch <= 150)%Z \/
    ((150 < Chunk.lineCount node)%Z /\ Chunk.subItems c inner = []))) \/
  (Chunk.splitHas c (Chunk.type inner) = true /\
   (150 < Chunk.lineCount node)%Z /\
   exists sub, In sub (Chunk.subItems c inner) /\
               ch = Chunk.makeChunk c sub (Chunk.nodeKind (Chunk.type sub))).
Proof.
  intros Hcfg Hin inner.
  assert (Hgoal :
    In ch (Chunk.emitOrSplit c inner node) \/
    (ch = Chunk.makeChunk c node (Chunk.nodeKind (Chunk.type inner)) /\
     Chunk.topLevelHas c (Chunk.type inner) = false)).
  { subst inner. unfold unwrapped. unfold Chunk.processNode in Hin.
    destruct (Chunk.eq (Chunk.type node) "export_statement").
    - destruct (Chunk.unwrapExport node) as [i|]; [|destruct Hin].
      destruct (Chunk.topLevelHas c (Chunk.type i)) eqn:Et; auto.
      destruct (_ || _); [|destruct Hin].
      destruct Hin as [<-|[]]. right. auto.
    - destruct (Chunk.eq (Chunk.type node) "decorated_definition").
      + destruct (Chunk.childForFieldName node "definition"); auto.
        left. now apply processTopLevel_cases.
      + destruct (Chunk.eq (Chunk.type node) "template_declaration").
        * destruct (find _ _); auto. left. now apply processTopLevel_cases.
        * left. now apply processTopLevel_cases. }
  destruct Hgoal as [He|[-> Htop]].
  - apply emitOrSplit_cases in He. destruct He as [[-> Hb]|Hm].
    + left. rewrite span_makeChunk. auto.
    + right. exact Hm.
  - left. rewrite span_makeChunk. repeat split.
    intros Hs. apply (registry_split_top _ _ Hcfg) in Hs.
    unfold Chunk.topLevelHas in Htop. congruence.
Qed.

Lemma split_bound_witness :
  let c := ctxOf Lang.PYTHON in
  let ch := Chunk.makeChunk c longClass "class" in
  (span ch <= 150)%Z \/
  ((150 < Chunk.lineCount longClass)%Z /\ Chunk.subItems c longClass = []).
Proof.
  intros c ch.
  assert (Hcfg : In (Chunk.config c) Lang.LANGUAGES).
  { simpl. do 6 right. left. reflexivity. }
  assert (Hin : In ch (Chunk.processNode c longClass)).
  { left. reflexivity. }
  destruct (split_bound c longClass ch Hcfg Hin)
    as [[_ [_ H]]|[_ [_ [sub [Hsub _]]]]].
  - apply H. reflexivity.
  - destruct Hsub.
Defined.

(** Scenario S3: the three methods of an oversized class are emitted,
    not the class. *)
Example oversized_class_is_split :
  map (fun ch => (Chunk.kind ch, Chunk.startLine ch, Chunk.endLine ch))
      (Chunk.processNode (ctxOf Lang.TYPESCRIPT) bigClass)
  = [("method", 2%Z, 101%Z); ("method", 102%Z, 251%Z);
     ("method", 252%Z, 399%Z)].
Proof. vm_compute. reflexivity. Qed.

(** C5, as stated, fails: the chunk of a 200-line C function has a kind
    outside the (empty) splittable set of C, spans 200 lines, and its node
    has a recognised member child, the declarator. *)
Lemma oversized_function_is_emitted_whole :
  let c := ctxOf Lang.C in
  exists ch,
    Chunk.processNode c longFunction = [ch] /\
    JS.has (Lang.splitNodes Lang.C) (Chunk.kind ch) = false /\
    span ch = 200%Z /\
    (150 < Chunk.lineCount longFunction)%Z /\
    map Chunk.type (Chunk.subItems c longFunction) = ["function_declarator"].
Proof.
  eexists. split; [vm_compute; reflexivity|].
  vm_compute. repeat split; reflexivity.
Qed.

(** ** Runs of the orchestrator *)

(** Scenario S1 of the specification: a first run over one file holding
    one function. *)
Example index_round_trip :
  fst (Index.index (Fixture.runtime Fixture.parses)
                   (Fixture.constant 1 "model-A") "/r" Fixture.disk
                   Fixture.noOptions Fixture.empty)
  = Ok (Index.mkIndexResult 1 1 1 0 0 []).
Proof. vm_compute. reflexivity. Qed.

(** Scenario S2: a second run over the unchanged tree, same model. *)
Example index_incremental_skip :
  fst (Index.index (Fixture.runtime Fixture.parses)
                   (Fixture.constant 1 "model-A") "/r" Fixture.disk
                   Fixture.noOptions Fixture.indexedA)
  = Ok (Index.mkIndexResult 0 0 0 1 0 []).
Proof. vm_compute. reflexivity. Qed.

(** C1 does not hold of the code.  After [/r] was indexed with model A,
    a run with model B over the unchanged tree processes no file, so the
    batch loop that holds the embedding step is never entered: the run
    reports [embedded = 0] although the codebase has one chunk, and the
    chunk keeps the embedding of model A. *)
Theorem model_switch_on_unchanged_tree_embeds_nothing :
  let run := Index.index (Fixture.runtime Fixture.parses)
                         (Fixture.constant 1 "model-B") "/r" Fixture.disk
                         Fixture.noOptions Fixture.indexedA in
  List.length (Store.t_chunks (Store.tables (Index.store Fixture.indexedA)))
  = 1%nat /\
  fst run = Ok (Index.mkIndexResult 0 0 0 1 0 []) /\
  map Store.chunks.embedding_model
      (Store.t_chunks (Store.tables (Index.store (snd run)))) = ["model-A"] /\
  List.length
    (filter (Store.isStale 1 "model-B")
            (Store.t_chunks (Store.tables (Index.store (snd run))))) = 1%nat.
Proof. vm_compute. repeat split; reflexivity. Qed.

(** The sibling path: as soon as one file of the tree changed, the same
    run re-embeds every stale chunk of the codebase, the chunk of the
    unchanged file included. *)
Example model_switch_with_a_new_file_embeds_all :
  let run := Index.index (Fixture.runtime Fixture.parses)
                         (Fixture.constant 1 "model-B") "/r"
                         Fixture.diskWithNewFile
                         Fixture.noOptions Fixture.indexedA in
  fst run = Ok (Index.mkIndexResult 1 1 2 1 0 []) /\
  map Store.chunks.embedding_model
      (Store.t_chunks (Store.tables (Index.store (snd run))))
  = ["model-B"; "model-B"].
Proof. vm_compute. repeat split; reflexivity. Qed.

(** C9 does not hold of the code.  When the chunker throws on a file,
    [index] pushes the object [{ path, error }] on the list of errors, not
    a string. *)
Theorem chunk_error_is_reported_as_object :
  let run := Index.index (Fixture.runtime Fixture.parseFails)
                         (Fixture.constant 1 "model-A") "/r" Fixture.disk
                         Fixture.noOptions Fixture.empty in
  exists res,
    fst run = Ok res /\
    Index.errors res =
      [Index.ErrObject "/r/parse.rs" "Language.load: cannot read grammar"] /\
    forallb Index.isString (Index.errors res) = false.
Proof. eexists. vm_compute. repeat split; reflexivity. Qed.

(** The errors of the scan itself are strings. *)
Example scan_error_is_a_string :
  Index.errors_of
    (fst (Index.index (Fixture.runtime Fixture.parses)
                      (Fixture.constant 1 "model-A") "/r"
                      Fixture.diskUnreadable Fixture.noOptions Fixture.empty))
  = [Index.ErrString "cannot read /r/src: Error: EACCES: permission denied"].
Proof. vm_compute. reflexivity. Qed.

(** The health check can throw on the first search of an instance; the
    next search on the same instance returns. *)
Example unsearchable_then_searchable :
  let R := Fixture.runtime Fixture.parses in
  let O := Fixture.constant 1 "model-A" in
  Index.outcomes (Index.search R O)
                 [("parse", Fixture.opts Index.semantic None);
                  ("parse", Fixture.opts Index.semantic None)]
                 Fixture.locked
  = [Throw (Unsearchable 5000000); Ok []].
Proof. vm_compute. reflexivity. Qed.

(** ** The store monad on an engine that does not fail *)

Section Computes.
Variable H : Host.

Lemma stmt_noFail {A} (f : Store.Tables -> A * Store.Tables) db :
  noFail H ->
  Store.stmt H f db =
  (Ok (fst (f (Store.tables db))),
   Store.mkDB (snd (f (Store.tables db))) (Store.snapshot db)
              (S (Store.executed db)) (Store.fileSize db)).
Proof.
  intros Hnf. unfold Store.stmt. rewrite Hnf.
  now destruct (f (Store.tables db)).
Qed.

Lemma computes_stmt {A} (f : Store.Tables -> A * Store.Tables) :
  computes H (Store.stmt H f) f.
Proof. intros Hnf db. rewrite stmt_noFail by auto. simpl. auto. Qed.

Lemma computes_query {A} (f : Store.Tables -> A) :
  computes H (Store.query H f) (fun t => (f t, t)).
Proof. apply computes_stmt. Qed.

Lemma computes_exec f : computes H (Store.exec H f) (fun t => (tt, f t)).
Proof. apply computes_stmt. Qed.

Lemma computes_ret {A} (a : A) : computes H (ret a) (fun t => (a, t)).
Proof. intros _ db. simpl. auto. Qed.

Lemma computes_ext {A} (m : M Store.DB A) g g' :
  computes H m g -> (forall t, g t = g' t) -> computes H m g'.
Proof. intros Hm E Hnf db. rewrite <- E. now apply Hm. Qed.

Lemma computes_bind {A B} (m : M Store.DB A) (k : A -> M Store.DB B) g h :
  computes H m g -> (forall a, computes H (k a) (h a)) ->
  computes H (bind m k) (fun t => h (fst (g t)) (snd (g t))).
Proof.
  intros Hm Hk Hnf db. unfold bind.
  destruct (Hm Hnf db) as [E1 [E2 E3]].
  destruct (m db) as [r db1]. simpl in *. subst r.
  destruct (Hk (fst (g (Store.tables db))) Hnf db1) as [F1 [F2 F3]].
  rewrite E2 in *. rewrite F3, E3. auto.
Qed.

Lemma computes_foldM {A B} (xs : list A) (body : B -> A -> M Store.DB B)
      (g : B -> A -> Store.Tables -> B * Store.Tables) :
  (forall acc x, computes H (body acc x) (g acc x)) ->
  forall acc,
    computes H (foldM xs acc body)
             (fun t => fold_left (fun st x => g (fst st) x (snd st)) xs (acc, t)).
Proof.
  intros Hb. induction xs as [|x xs IH]; intros acc; simpl.
  - apply computes_ret.
  - eapply computes_ext.
    + apply computes_bind; [apply Hb | intros a; apply IH].
    + intros t. simpl. now destruct (g acc x t).
Qed.

Lemma computes_forEach {A} (xs : list A) (body : A -> M Store.DB unit)
      (g : A -> Store.Tables -> Store.Tables) :
  (forall x, computes H (body x) (fun t => (tt, g x t))) ->
  computes H (forEach xs body)
           (fun t => (tt, fold_left (fun t x => g x t) xs t)).
Proof.
  intros Hb. induction xs as [|x xs IH]; simpl.
  - apply computes_ret.
  - eapply computes_ext.
    + apply computes_bind; [apply Hb | intros u; apply IH].
    + reflexivity.
Qed.

Lemma computes_tryCatch {A} (m : M Store.DB A) h g :
  computes H m g -> computes H (tryCatch m h) g.
Proof.
  intros Hm Hnf db. unfold tryCatch.
  destruct (Hm Hnf db) as [E1 [E2 E3]].
  destruct (m db) as [r db1]. simpl in *. subst r. auto.
Qed.

Lemma computes_transaction {A} (body : M Store.DB A) g :
  computes H body g -> computes H (Store.transaction H body) g.
Proof.
  intros Hb Hnf db.
  unfold Store.transaction, bind, tryCatch, Store.BEGIN, Store.COMMIT, ret.
  rewrite Hnf.
  set (db1 := Store.mkDB _ _ _ _).
  destruct (Hb Hnf db1) as [E1 [E2 E3]].
  destruct (body db1) as [r db2]. simpl in *. subst r.
  rewrite Hnf. simpl. auto.
Qed.

(** ** Transactions roll back whatever their body returned *)

Lemma keepsSnapshot_stmt {A} (f : Store.Tables -> A * Store.Tables) :
  keepsSnapshot (Store.stmt H f).
Proof.
  intros db. unfold Store.stmt.
  destruct (fails H (Store.executed db)); [reflexivity|].
  now destruct (f (Store.tables db)).
Qed.

Lemma keepsSnapshot_ret {A} (a : A) : keepsSnapshot (@ret Store.DB A a).
Proof. intros db. reflexivity. Qed.

Lemma keepsSnapshot_bind {A B} (m : M Store.DB A) (k : A -> M Store.DB B) :
  keepsSnapshot m -> (forall a, keepsSnapshot (k a)) ->
  keepsSnapshot (bind m k).
Proof.
  intros Hm Hk db. unfold bind. specialize (Hm db).
  destruct (m db) as [[a|e] db1]; simpl in *; auto.
  now rewrite Hk.
Qed.

Lemma keepsSnapshot_foldM {A B} (xs : list A) (body : B -> A -> M Store.DB B) :
  (forall acc x, keepsSnapshot (body acc x)) ->
  forall acc, keepsSnapshot (foldM xs acc body).
Proof.
  intros Hb. induction xs as [|x xs IH]; intros acc; simpl.
  - apply keepsSnapshot_ret.
  - apply keepsSnapshot_bind; auto.
Qed.

Lemma keepsSnapshot_forEach {A} (xs : list A) (body : A -> M Store.DB unit) :
  (forall x, keepsSnapshot (body x)) -> keepsSnapshot (forEach xs body).
Proof.
  intros Hb. induction xs as [|x xs IH]; simpl.
  - apply keepsSnapshot_ret.
  - apply keepsSnapshot_bind; auto.
Qed.

Lemma transaction_rolls_back {A} (body : M Store.DB A) db e db' :
  keepsSnapshot body ->
  Store.transaction H body db = (Throw e, db') ->
  Store.tables db' = Store.tables db.
Proof.
  intros Hk.
  unfold Store.transaction, bind, tryCatch, Store.BEGIN, Store.COMMIT,
    Store.ROLLBACK, ret, throw.
  destruct (fails H (Store.executed db)).
  { intros E. now inversion E. }
  set (db1 := Store.mkDB _ _ _ _).
  pose proof (Hk db1) as Hs.
  destruct (body db1) as [[a|e1] db2]; simpl in *.
  - destruct (fails H (Store.executed db2)); simpl; intros E; inversion E.
    subst. simpl. now rewrite Hs.
  - intros E. inversion E. subst. simpl. now rewrite Hs.
Qed.

(** ** Reads *)

Lemma readsOnly_query {A} (f : Store.Tables -> A) :
  readsOnly (Store.query H f).
Proof.
  intros db. unfold Store.query, Store.stmt.
  now destruct (fails H (Store.executed db)).
Qed.

Lemma readsOnly_ret {A} (a : A) : readsOnly (@ret Store.DB A a).
Proof. intros db. reflexivity. Qed.

Lemma readsOnly_throw {A} e : readsOnly (@throw Store.DB A e).
Proof. intros db. reflexivity. Qed.

Lemma readsOnly_bind {A B} (m : M Store.DB A) (k : A -> M Store.DB B) :
  readsOnly m -> (forall a, readsOnly (k a)) -> readsOnly (bind m k).
Proof.
  intros Hm Hk db. unfold bind. specialize (Hm db).
  destruct (m db) as [[a|e] db1]; simpl in *; auto.
  now rewrite Hk.
Qed.

Lemma readsOnly_tryCatch {A} (m : M Store.DB A) h :
  readsOnly m -> (forall e, readsOnly (h e)) -> readsOnly (tryCatch m h).
Proof.
  intros Hm Hh db. unfold tryCatch. specialize (Hm db).
  destruct (m db) as [[a|e] db1]; simpl in *; auto.
  now rewrite Hh.
Qed.

Lemma readsOnly_foldM {A B} (xs : list A) (body : B -> A -> M Store.DB B) :
  (forall acc x, readsOnly (body acc x)) ->
  forall acc, readsOnly (foldM xs acc body).
Proof.
  intros Hb. induction xs as [|x xs IH]; intros acc; simpl.
  - apply readsOnly_ret.
  - apply readsOnly_bind; auto.
Qed.

End Computes.

(** ** The store *)

Section Codebases.
Variable H : Host.

Lemma find_app {A} (f : A -> bool) l1 l2 :
  find f (l1 ++ l2) =
  match find f l1 with Some x => Some x | None => find f l2 end.
Proof.
  induction l1 as [|x l1 IH]; simpl; auto. now destruct (f x).
Qed.

Lemma getOrCreateCodebase_existing rootPath db row :
  noFail H ->
  Store.findCodebase rootPath (Store.tables db) = Some row ->
  fst (Store.getOrCreateCodebase H rootPath db) = Ok (Store.codebases.id row) /\
  Store.tables (snd (Store.getOrCreateCodebase H rootPath db)) =
  Store.tables db.
Proof.
  intros Hnf Hrow. unfold Store.getOrCreateCodebase, bind, Store.query.
  rewrite stmt_noFail by auto. cbn [fst snd]. rewrite Hrow. cbn. auto.
Qed.

Lemma getOrCreateCodebase_new rootPath db :
  noFail H ->
  Store.findCodebase rootPath (Store.tables db) = None ->
  let t := Store.tables db in
  let row := Store.codebases.mk (Store.seq_codebases t + 1) rootPath
                                (Store.lastSegment rootPath) (dateNow H) in
  fst (Store.getOrCreateCodebase H rootPath db) =
  Ok (Store.seq_codebases t + 1)%Z /\
  Store.tables (snd (Store.getOrCreateCodebase H rootPath db)) =
  Store.setCodebases t (Store.t_codebases t ++ [row])
                     (Store.seq_codebases t + 1).
Proof.
  intros Hnf Hnone t row. subst t row.
  unfold Store.getOrCreateCodebase, bind, Store.query, Store.exec.
  rewrite stmt_noFail by auto. cbn [fst snd]. rewrite Hnone.
  rewrite stmt_noFail by auto. cbn [fst snd Store.tables].
  rewrite stmt_noFail by auto. cbn [fst snd Store.tables].
  unfold Store.findCodebase in *. cbn [Store.t_codebases Store.setCodebases].
  rewrite find_app, Hnone. cbn [find Store.codebases.root_path].
  rewrite String.eqb_refl. cbn. auto.
Qed.

End Codebases.

(** X1. [getOrCreateCodebase] is idempotent.  On an engine that does not
    fail, it returns the id of the row of [rootPath], which is in the table
    afterwards; the rows of the other roots, the chunks and the file records
    are as before; a second call returns the same id and changes nothing. *)
Theorem getOrCreateCodebase_idempotent (H : Host) (rootPath : string)
        (db : Store.DB) :
  noFail H ->
  let run1 := Store.getOrCreateCodebase H rootPath db in
  let run2 := Store.getOrCreateCodebase H rootPath (snd run1) in
  exists id row,
    fst run1 = Ok id /\
    Store.findCodebase rootPath (Store.tables (snd run1)) = Some row /\
    Store.codebases.id row = id /\
    (forall other, other <> rootPath ->
       Store.findCodebase other (Store.tables (snd run1)) =
       Store.findCodebase other (Store.tables db)) /\
    Store.t_chunks (Store.tables (snd run1)) = Store.t_chunks (Store.tables db) /\
    Store.t_indexed_files (Store.tables (snd run1)) =
    Store.t_indexed_files (Store.tables db) /\
    fst run2 = Ok id /\
    Store.tables (snd run2) = Store.tables (snd run1).
Proof.
  intros Hnf run1 run2. subst run2.
  destruct (Store.findCodebase rootPath (Store.tables db)) as [row|] eqn:E.
  - destruct (getOrCreateCodebase_existing H rootPath db row Hnf E) as [R1 T1].
    fold run1 in R1, T1.
    assert (E1 : Store.findCodebase rootPath (Store.tables (snd run1)) = Some row)
      by now rewrite T1.
    destruct (getOrCreateCodebase_existing H rootPath (snd run1) row Hnf E1)
      as [R2 T2].
    exists (Store.codebases.id row), row. rewrite T1 in *.
    repeat split; auto.
  - destruct (getOrCreateCodebase_new H rootPath db Hnf E) as [R1 T1].
    fold run1 in R1, T1.
    set (row := Store.codebases.mk (Store.seq_codebases (Store.tables db) + 1)
                  rootPath (Store.lastSegment rootPath) (dateNow H)) in *.
    assert (E1 : Store.findCodebase rootPath (Store.tables (snd run1)) = Some row).
    { rewrite T1. unfold Store.findCodebase in *. simpl. rewrite find_app, E.
      simpl. now rewrite String.eqb_refl. }
    destruct (getOrCreateCodebase_existing H rootPath (snd run1) row Hnf E1)
      as [R2 T2].
    assert (Hother : forall other, other <> rootPath ->
              Store.findCodebase other (Store.tables (snd run1)) =
              Store.findCodebase other (Store.tables db)).
    { intros other Hne. rewrite T1. unfold Store.findCodebase. simpl.
      rewrite find_app. destruct (find _ (Store.t_codebases _)); auto.
      simpl. apply String.eqb_neq in Hne. rewrite String.eqb_sym, Hne.
      reflexivity. }
    exists (Store.seq_codebases (Store.tables db) + 1)%Z, row.
    repeat split; auto; now rewrite T1.
Qed.

Lemma getOrCreateCodebase_idempotent_witness :
  let db := Store.mkDB Store.emptyTables None 0 None in
  let run1 := Store.getOrCreateCodebase Fixture.host0 "/r" db in
  fst run1 = Ok 1%Z /\
  fst (Store.getOrCreateCodebase Fixture.host0 "/r" (snd run1)) = Ok 1%Z.
Proof.
  intros db run1.
  destruct (getOrCreateCodebase_idempotent Fixture.host0 "/r" db)
    as [id [row [R1 [_ [_ [_ [_ [_ [R2 _]]]]]]]]].
  - intros n. reflexivity.
  - assert (E : id = 1%Z) by (vm_compute in R1; congruence).
    subst id. split; assumption.
Defined.

Section FileHash.
Variables (codebaseId now : Z).

Lemma insertChunk_files c t :
  Store.t_indexed_files (Store.insertChunk codebaseId now c t) =
  Store.t_indexed_files t.
Proof. unfold Store.insertChunk. now destruct (existsb _ _). Qed.

Lemma inserted_files cs : forall t,
  Store.t_indexed_files (inserted codebaseId now cs t) =
  Store.t_indexed_files t.
Proof.
  unfold inserted.
  induction cs as [|c cs IH]; intros t; simpl; auto.
  rewrite IH. apply insertChunk_files.
Qed.

Lemma fileOf_mk id p h n p' :
  Store.fileOf codebaseId p'
    (Store.indexed_files.mk id codebaseId p h n now) = String.eqb p p'.
Proof. unfold Store.fileOf. simpl. now rewrite Z.eqb_refl. Qed.

Lemma fileOf_paths p p' r :
  Store.fileOf codebaseId p r = true -> Store.fileOf codebaseId p' r = true ->
  p = p'.
Proof.
  unfold Store.fileOf. rewrite !andb_true_iff, !String.eqb_eq.
  intros [_ <-] [_ <-]. reflexivity.
Qed.

Lemma upsertFile_sets p h n t :
  hashed codebaseId p h n (Store.upsertFile codebaseId p h n now t).
Proof.
  unfold hashed, Store.upsertFile.
  destruct (existsb _ _) eqn:E; simpl.
  - apply existsb_exists in E. destruct E as [r0 [Hin Hf]]. split.
    + eexists. split.
      * apply in_map_iff. exists r0. split; [reflexivity|exact Hin].
      * rewrite Hf, fileOf_mk. apply String.eqb_refl.
    + intros r Hr Hfr. apply in_map_iff in Hr. destruct Hr as [r1 [<- _]].
      destruct (Store.fileOf codebaseId p r1) eqn:E1; simpl; auto.
      congruence.
  - split.
    + eexists. split; [apply in_or_app; right; now left|].
      rewrite fileOf_mk. apply String.eqb_refl.
    + intros r Hr Hfr. apply in_app_or in Hr. destruct Hr as [Hr|[<-|[]]].
      * exfalso. assert (existsb (Store.fileOf codebaseId p)
                           (Store.t_indexed_files t) = true)
          by (apply existsb_exists; eauto). congruence.
      * simpl. auto.
Qed.

Lemma upsertFile_keeps p h n p' h' n' t :
  p' <> p -> hashed codebaseId p h n t ->
  hashed codebaseId p h n (Store.upsertFile codebaseId p' h' n' now t).
Proof.
  intros Hne [[r0 [Hin0 Hf0]] Hall]. unfold hashed, Store.upsertFile.
  assert (Hother : forall r, Store.fileOf codebaseId p r = true ->
                             Store.fileOf codebaseId p' r = false).
  { intros r Hr. destruct (Store.fileOf codebaseId p' r) eqn:E; auto.
    exfalso. apply Hne. eapply fileOf_paths; eauto. }
  assert (Hnew : forall id, Store.fileOf codebaseId p
                   (Store.indexed_files.mk id codebaseId p' h' n' now) = false).
  { intros id. rewrite fileOf_mk. now apply String.eqb_neq. }
  destruct (existsb _ _); simpl.
  - split.
    + exists r0. split; auto. apply in_map_iff. exists r0.
      rewrite (Hother r0 Hf0). auto.
    + intros r Hr Hfr. apply in_map_iff in Hr. destruct Hr as [r1 [E Hr1]].
      destruct (Store.fileOf codebaseId p' r1); subst r; auto.
      rewrite Hnew in Hfr. discriminate.
  - split.
    + exists r0. split; auto. apply in_or_app. now left.
    + intros r Hr Hfr. apply in_app_or in Hr. destruct Hr as [Hr|[<-|[]]]; auto.
      rewrite Hnew in Hfr. discriminate.
Qed.

Lemma hashed_files p h n t t' :
  Store.t_indexed_files t = Store.t_indexed_files t' ->
  hashed codebaseId p h n t -> hashed codebaseId p h n t'.
Proof. unfold hashed. now intros ->. Qed.

Lemma upsertedFiles_hashed fcs : forall t fc,
  NoDup (map Store.fcPath fcs) -> In fc fcs ->
  hashed codebaseId (Store.fcPath fc) (Store.fcHash fc)
         (Z.of_nat (List.length (Store.fcChunks fc)))
         (upsertedFiles codebaseId now fcs t).
Proof.
  assert (Hkeep : forall fcs t p h n,
             ~ In p (map Store.fcPath fcs) -> hashed codebaseId p h n t ->
             hashed codebaseId p h n (upsertedFiles codebaseId now fcs t)).
  { induction fcs0 as [|fc0 fcs0 IH]; intros t p h n Hnot Hh; simpl in *; auto.
    apply IH; [tauto|].
    unfold upsertedFile. apply upsertFile_keeps; [intros E; tauto|].
    eapply hashed_files; [|exact Hh].
    fold (inserted codebaseId now (Store.fcChunks fc0)
            (Store.deleteChunks codebaseId (Store.fcPath fc0) t)).
    rewrite inserted_files. reflexivity. }
  induction fcs as [|fc0 fcs IH]; intros t fc Hnd Hin; simpl in *; [tauto|].
  inversion Hnd as [|? ? Hnotin Hnd']; subst.
  destruct Hin as [->|Hin].
  - apply Hkeep; auto.
    unfold upsertedFile. apply upsertFile_sets.
  - now apply IH.
Qed.

End FileHash.

(** X2. What [batchUpsertAllFileChunks] writes, [getFileHash] reads back.
    On an engine that does not fail, and for a batch that names no path
    twice, the write returns, and afterwards [getFileHash] of a file of the
    batch is the hash that was written for it, and its file record counts
    the chunks that were written for it. *)
Theorem getFileHash_after_upsert (H : Host) (codebaseId : Z)
        (fileChunks : list Store.FileChunks) (fc : Store.FileChunks)
        (db : Store.DB) :
  noFail H ->
  NoDup (map Store.fcPath fileChunks) ->
  In fc fileChunks ->
  let written := Store.batchUpsertAllFileChunks H codebaseId fileChunks db in
  fst written = Ok tt /\
  fst (Store.getFileHash H codebaseId (Store.fcPath fc) (snd written)) =
  Ok (Some (Store.fcHash fc)) /\
  exists row,
    find (Store.fileOf codebaseId (Store.fcPath fc))
         (Store.t_indexed_files (Store.tables (snd written))) = Some row /\
    Store.indexed_files.chunk_count row =
    Z.of_nat (List.length (Store.fcChunks fc)).
Proof.
  intros Hnf Hnd Hin written. subst written.
  unfold Store.batchUpsertAllFileChunks.
  destruct (transaction_atomic H _ _ db (runs_batch_body H codebaseId fileChunks))
    as [Hok [_ Hret]].
  specialize (Hret Hnf).
  destruct (Store.transaction H _ db) as [r db1] eqn:E. simpl in *. subst r.
  destruct (Hok tt db1 eq_refl) as [Ht _].
  pose proof (upsertedFiles_hashed codebaseId (dateNow H) fileChunks
                (Store.tables db) fc Hnd Hin) as [[r0 [Hr0 Hf0]] Hall].
  rewrite <- Ht in *.
  destruct (find (Store.fileOf codebaseId (Store.fcPath fc))
                 (Store.t_indexed_files (Store.tables db1))) as [row|] eqn:Ef.
  - apply find_some in Ef as Hrow. destruct Hrow as [Hrin Hrf].
    destruct (Hall row Hrin Hrf) as [Hh Hn].
    split; auto. split.
    + unfold Store.getFileHash, Store.query. rewrite stmt_noFail by auto.
      cbn [fst]. rewrite Ef. now rewrite Hh.
    + exists row. auto.
  - exfalso. apply (find_none _ _ Ef) in Hr0. congruence.
Qed.

Lemma getFileHash_after_upsert_witness :
  let fc := Store.mkFileChunks "/r/a.rs" "h1" [chunkAt "/r/a.rs" 1 2] in
  let fcs := [fc; Store.mkFileChunks "/r/b.rs" "h2" []] in
  let db := Store.mkDB Store.emptyTables None 0 None in
  fst (Store.getFileHash Fixture.host0 1 "/r/a.rs"
         (snd (Store.batchUpsertAllFileChunks Fixture.host0 1 fcs db)))
  = Ok (Some "h1").
Proof.
  intros fc fcs db.
  apply (getFileHash_after_upsert Fixture.host0 1 fcs fc db).
  - intros n. reflexivity.
  - repeat (constructor; [simpl; intuition discriminate|]); constructor.
  - left. reflexivity.
Defined.

Section RemoveStale.
Variables (H : Host) (codebaseId : Z) (activeFiles : list string).

Lemma filter_filter {A} (f g : A -> bool) l :
  filter g (filter f l) = filter (fun x => f x && g x) l.
Proof.
  induction l as [|x l IH]; simpl; auto.
  destruct (f x); simpl; [destruct (g x)|]; now rewrite IH.
Qed.

Lemma has_cons set x p : JS.has (p :: set) x = String.eqb x p || JS.has set x.
Proof. reflexivity. Qed.

Lemma has_filter (f : string -> bool) set x :
  JS.has (filter f set) x = JS.has set x && f x.
Proof.
  unfold JS.has. induction set as [|y set IH]; simpl; auto.
  destruct (f y) eqn:Ef; simpl; rewrite IH.
  - destruct (String.eqb x y) eqn:E; simpl; auto.
    apply String.eqb_eq in E. subst. now rewrite Ef.
  - destruct (String.eqb x y) eqn:E; simpl; auto.
    apply String.eqb_eq in E. subst. rewrite Ef. now rewrite andb_false_r.
Qed.

Lemma fold_left_ext {A B} (f f' : A -> B -> A) l :
  (forall a b, f a b = f' a b) -> forall a, fold_left f l a = fold_left f' l a.
Proof.
  intros E. induction l as [|b l IH]; intros a; simpl; auto.
  now rewrite E, IH.
Qed.

Lemma removeBody_computes all (removed : nat) :
  computes H
    (foldM all removed
       (fun (removed : nat) (file_path : string) =>
          if negb (JS.has activeFiles file_path) then
            (Store.exec H (Store.deleteChunks codebaseId file_path) ;;;
             Store.exec H (fun t =>
                 Store.setFiles t
                   (filter (fun r => negb (Store.fileOf codebaseId file_path r))
                           (Store.t_indexed_files t))
                   (Store.seq_indexed_files t)) ;;;
             ret (S removed))%monad
          else ret removed))
    (fun t => fold_left (removeStep codebaseId activeFiles) all (removed, t)).
Proof.
  eapply computes_ext.
  - apply (computes_foldM H all _
             (fun acc p t => removeStep codebaseId activeFiles (acc, t) p)).
    intros acc p. unfold removeStep.
    destruct (negb (JS.has activeFiles p)).
    + intros Hnf db. unfold bind, Store.exec, ret.
      rewrite stmt_noFail by auto. cbn [fst snd].
      rewrite stmt_noFail by auto. cbn. auto.
    + apply computes_ret.
  - intros t. apply fold_left_ext. intros [acc t'] p. reflexivity.
Qed.

(** What the loop deletes, for any list of paths. *)
Lemma removeLoop_effect all : forall removed t,
  let gone := filter (fun p => negb (JS.has activeFiles p)) all in
  let st := fold_left (removeStep codebaseId activeFiles) all (removed, t) in
  fst st = (removed + List.length gone)%nat /\
  Store.t_chunks (snd st) =
    filter (fun r => negb ((Store.chunks.codebase_id r =? codebaseId)%Z &&
                           JS.has gone (Store.chunks.file_path r)))
           (Store.t_chunks t) /\
  Store.t_indexed_files (snd st) =
    filter (fun r => negb ((Store.indexed_files.codebase_id r =? codebaseId)%Z &&
                           JS.has gone (Store.indexed_files.file_path r)))
           (Store.t_indexed_files t) /\
  Store.t_codebases (snd st) = Store.t_codebases t /\
  Store.t_fts (snd st) = Store.t_fts t.
Proof.
  induction all as [|p all IH]; intros removed t; cbn zeta.
  - simpl. repeat split; auto.
    + symmetry. apply forallb_filter_id. apply forallb_forall.
      intros r _. now rewrite andb_false_r.
    + symmetry. apply forallb_filter_id. apply forallb_forall.
      intros r _. now rewrite andb_false_r.
  - change (fold_left (removeStep codebaseId activeFiles) (p :: all) (removed, t))
      with (fold_left (removeStep codebaseId activeFiles) all
              (removeStep codebaseId activeFiles (removed, t) p)).
    cbn [filter]. unfold removeStep at 2 4 6 8 10. cbn [fst snd].
    destruct (negb (JS.has activeFiles p)) eqn:Ea; [|apply IH].
    set (t1 := Store.setFiles _ _ _).
    destruct (IH (S removed) t1) as [I1 [I2 [I3 [I4 I5]]]].
    cbn zeta in I1, I2, I3, I4, I5. rewrite I1, I2, I3, I4, I5.
    cbn [List.length]. subst t1.
    split; [lia|]. split; [|split; [|split; reflexivity]].
    + cbn [Store.t_chunks Store.setFiles Store.deleteChunks Store.setChunks].
      rewrite filter_filter. apply filter_ext. intros r.
      rewrite has_cons. unfold Store.chunkOf.
      destruct (Store.chunks.codebase_id r =? codebaseId)%Z;
        destruct (String.eqb (Store.chunks.file_path r) p);
        destruct (JS.has _ (Store.chunks.file_path r)); reflexivity.
    + cbn [Store.t_indexed_files Store.setFiles Store.deleteChunks
             Store.setChunks].
      rewrite filter_filter. apply filter_ext. intros r.
      rewrite has_cons. unfold Store.fileOf.
      destruct (Store.indexed_files.codebase_id r =? codebaseId)%Z;
        destruct (String.eqb (Store.indexed_files.file_path r) p);
        destruct (JS.has _ (Store.indexed_files.file_path r)); reflexivity.
Qed.

End RemoveStale.

(** X3. [removeStaleFiles] removes the files of the codebase that are not
    active, and nothing else.  On an engine that does not fail it returns
    the number of file records of the codebase whose path is not in
    [activeFiles], deletes these records and the chunks of the codebase
    with these paths, and keeps every other file record, every other chunk
    and the codebases.  Whenever it throws, the tables are as they were. *)
Theorem removeStaleFiles_effect (H : Host) (codebaseId : Z)
        (activeFiles : list string) (db : Store.DB) :
  let stale := stalePaths codebaseId activeFiles (Store.tables db) in
  let run := Store.removeStaleFiles H codebaseId activeFiles db in
  (noFail H ->
   fst run = Ok (List.length stale) /\
   Store.t_indexed_files (Store.tables (snd run)) =
     filter (fun r => negb ((Store.indexed_files.codebase_id r =? codebaseId)%Z &&
                            negb (JS.has activeFiles
                                         (Store.indexed_files.file_path r))))
            (Store.t_indexed_files (Store.tables db)) /\
   Store.t_chunks (Store.tables (snd run)) =
     filter (fun r => negb ((Store.chunks.codebase_id r =? codebaseId)%Z &&
                            JS.has stale (Store.chunks.file_path r)))
            (Store.t_chunks (Store.tables db)) /\
   Store.t_codebases (Store.tables (snd run)) =
     Store.t_codebases (Store.tables db)) /\
  (forall e, fst run = Throw e -> Store.tables (snd run) = Store.tables db).
Proof.
  intros stale run. split.
  - intros Hnf. subst run. unfold Store.removeStaleFiles.
    assert (Hc : computes H
              (Store.removeStaleFiles H codebaseId activeFiles)
              (fun t => fold_left (removeStep codebaseId activeFiles)
                          (map Store.indexed_files.file_path
                             (filter (fun r => (Store.indexed_files.codebase_id r
                                                =? codebaseId)%Z)
                                     (Store.t_indexed_files t)))
                          (0%nat, t))).
    { unfold Store.removeStaleFiles. eapply computes_ext.
      - apply computes_bind; [apply computes_query|]. intros all.
        apply computes_transaction. apply removeBody_computes.
      - reflexivity. }
    destruct (Hc Hnf db) as [R [T _]].
    unfold Store.removeStaleFiles in R, T. rewrite R, T.
    set (all := map Store.indexed_files.file_path _).
    destruct (removeLoop_effect codebaseId activeFiles all 0 (Store.tables db))
      as [I1 [I2 [I3 [I4 _]]]].
    cbn zeta in *. rewrite I1, I2, I3, I4.
    repeat split; auto.
    apply filter_ext_in. intros r Hr.
    destruct (Store.indexed_files.codebase_id r =? codebaseId)%Z eqn:Ec;
      [|reflexivity].
    cbn [andb]. f_equal. rewrite has_filter.
    assert (Hin : JS.has all (Store.indexed_files.file_path r) = true).
    { unfold JS.has. apply existsb_exists.
      exists (Store.indexed_files.file_path r). split; [|apply String.eqb_refl].
      subst all. apply in_map. apply filter_In. auto. }
    rewrite Hin. reflexivity.
  - intros e He. subst run. unfold Store.removeStaleFiles, bind in *.
    pose proof (readsOnly_query H
      (fun t => map Store.indexed_files.file_path
                  (filter (fun r => (Store.indexed_files.codebase_id r
                                     =? codebaseId)%Z)
                          (Store.t_indexed_files t))) db) as Hq.
    destruct (Store.query H _ db) as [[all|e0] db0]; simpl in *; auto.
    rewrite <- Hq.
    destruct (Store.transaction H _ db0) as [r db1] eqn:Et.
    simpl in He. subst r.
    eapply transaction_rolls_back; [|exact Et].
    apply keepsSnapshot_foldM. intros acc p.
    destruct (negb _); [|apply keepsSnapshot_ret].
    apply keepsSnapshot_bind; [apply keepsSnapshot_stmt|]. intros u.
    apply keepsSnapshot_bind; [apply keepsSnapshot_stmt|]. intros u'.
    apply keepsSnapshot_ret.
Qed.

Lemma removeStaleFiles_effect_witness :
  let db := Index.store Fixture.indexedA in
  fst (Store.removeStaleFiles Fixture.host0 1 [] db) = Ok 1%nat /\
  Store.t_chunks (Store.tables (snd (Store.removeStaleFiles Fixture.host0 1 []
                                       db))) = [].
Proof.
  intros db.
  destruct (proj1 (removeStaleFiles_effect Fixture.host0 1 [] db))
    as [R [_ [C _]]].
  - intros n. reflexivity.
  - split.
    + rewrite R. vm_compute. reflexivity.
    + rewrite C. vm_compute. reflexivity.
Defined.

Section Embeddings.
Variable H : Host.

Lemma setEmbedding_keys item t :
  map Store.chunks.chunk_key (Store.t_chunks (Store.setEmbedding item t)) =
  map Store.chunks.chunk_key (Store.t_chunks t).
Proof.
  unfold Store.setEmbedding. simpl. rewrite map_map. apply map_ext.
  intros r. now destruct (Store.hasKey _ r).
Qed.

Lemma setEmbedding_others item t :
  Store.t_indexed_files (Store.setEmbedding item t) = Store.t_indexed_files t /\
  Store.t_codebases (Store.setEmbedding item t) = Store.t_codebases t /\
  Store.t_fts (Store.setEmbedding item t) = Store.t_fts t.
Proof. unfold Store.setEmbedding. simpl. auto. Qed.

Lemma setEmbedding_rows item t r :
  In r (Store.t_chunks (Store.setEmbedding item t)) ->
  (In r (Store.t_chunks t) /\ Store.chunks.chunk_key r <> Store.itemKey item) \/
  (Store.chunks.chunk_key r = Store.itemKey item /\
   Store.chunks.embedding r = Store.itemEmbedding item /\
   Store.chunks.embedding_model r = Store.itemModel item).
Proof.
  unfold Store.setEmbedding. simpl. intros Hin.
  apply in_map_iff in Hin. destruct Hin as [r0 [E Hin]].
  unfold Store.hasKey in E.
  destruct (String.eqb (Store.chunks.chunk_key r0) (Store.itemKey item)) eqn:Ek.
  - right. apply String.eqb_eq in Ek. subst r. simpl. auto.
  - left. apply String.eqb_neq in Ek. subst r. auto.
Qed.

Lemma embedded_rows items : forall t r,
  In r (Store.t_chunks (fold_left (fun t item => Store.setEmbedding item t)
                                  items t)) ->
  (In r (Store.t_chunks t) /\
   ~ In (Store.chunks.chunk_key r) (map Store.itemKey items)) \/
  (exists item, In item items /\
                Store.chunks.chunk_key r = Store.itemKey item /\
                Store.chunks.embedding r = Store.itemEmbedding item /\
                Store.chunks.embedding_model r = Store.itemModel item).
Proof.
  induction items as [|item items IH]; intros t r Hin; simpl in *.
  - left. tauto.
  - apply IH in Hin. destruct Hin as [[Hin Hnot]|[item' [Hi Hx]]].
    + apply setEmbedding_rows in Hin. destruct Hin as [[Hin Hne]|Hupd].
      * left. split; auto. intros [E|E]; [congruence|tauto].
      * right. exists item. split; auto.
    + right. exists item'. auto.
Qed.

Lemma embedded_keys items : forall t,
  map Store.chunks.chunk_key
      (Store.t_chunks (fold_left (fun t item => Store.setEmbedding item t)
                                 items t)) =
  map Store.chunks.chunk_key (Store.t_chunks t).
Proof.
  induction items as [|item items IH]; intros t; simpl; auto.
  rewrite IH. apply setEmbedding_keys.
Qed.

Lemma batchUpsertEmbeddings_computes items :
  computes H (Store.batchUpsertEmbeddings H items)
           (fun t => (tt, fold_left (fun t item => Store.setEmbedding item t)
                                    items t)).
Proof.
  unfold Store.batchUpsertEmbeddings. destruct items as [|item items].
  - apply computes_ret.
  - apply computes_transaction.
    apply (computes_forEach H (item :: items) _
             (fun item t => Store.setEmbedding item t)).
    intros x. apply computes_exec.
Qed.

End Embeddings.

(** X4. [batchUpsertEmbeddings] writes nothing for an empty list, not even
    a transaction.  Whenever it throws, the tables are as they were.  On an
    engine that does not fail and for items that all carry a vector, it
    returns, keeps the chunk keys in their order, and leaves every chunk
    either untouched, its key not being among the items, or with the vector
    and the model of an item of its key. *)
Theorem batchUpsertEmbeddings_effect (H : Host)
        (items : list Store.EmbeddingItem) (db : Store.DB) :
  let run := Store.batchUpsertEmbeddings H items db in
  (items = [] -> run = (Ok tt, db)) /\
  (forall e, fst run = Throw e -> Store.tables (snd run) = Store.tables db) /\
  (noFail H ->
   (forall item, In item items -> Store.itemEmbedding item <> None) ->
   fst run = Ok tt /\
   map Store.chunks.chunk_key (Store.t_chunks (Store.tables (snd run))) =
   map Store.chunks.chunk_key (Store.t_chunks (Store.tables db)) /\
   forall r, In r (Store.t_chunks (Store.tables (snd run))) ->
     (In r (Store.t_chunks (Store.tables db)) /\
      ~ In (Store.chunks.chunk_key r) (map Store.itemKey items)) \/
     (exists item, In item items /\
                   Store.chunks.chunk_key r = Store.itemKey item /\
                   Store.chunks.embedding r = Store.itemEmbedding item /\
                   Store.chunks.embedding_model r = Store.itemModel item)).
Proof.
  intros run. split; [|split].
  - intros ->. reflexivity.
  - intros e He. subst run. unfold Store.batchUpsertEmbeddings in *.
    destruct items as [|item items]; [discriminate|].
    destruct (Store.transaction H _ db) as [r db1] eqn:Et.
    simpl in He. subst r.
    eapply transaction_rolls_back; [|exact Et].
    apply keepsSnapshot_forEach. intros x. apply keepsSnapshot_stmt.
  - intros Hnf _.
    destruct (batchUpsertEmbeddings_computes H items Hnf db) as [R [T _]].
    fold run in R, T. cbn [fst snd] in R, T. rewrite T.
    split; [exact R|]. split; [apply embedded_keys|].
    intros r. apply embedded_rows.
Qed.

Lemma batchUpsertEmbeddings_effect_witness :
  let db := Index.store Fixture.indexedA in
  let items := [Store.mkItem "/r/parse.rs:1:3" (Some [2%Q]) "model-B"] in
  fst (Store.batchUpsertEmbeddings Fixture.host0 items db) = Ok tt.
Proof.
  intros db items.
  apply (proj2 (proj2 (batchUpsertEmbeddings_effect Fixture.host0 items db))).
  - intros n. reflexivity.
  - intros item [<-|[]]. discriminate.
Defined.

(** X5. [getStaleEmbeddings] returns the chunks of the codebase that have
    no embedding or the embedding of another model, and changes nothing.
    A limit of 0 is no limit ([limit ? ... : ...]); a positive limit keeps
    the first rows of the unlimited result. *)
Theorem getStaleEmbeddings_selects (H : Host) (codebaseId : Z)
        (modelName : string) (db : Store.DB) :
  noFail H ->
  exists all,
    fst (Store.getStaleEmbeddings H codebaseId modelName None db) = Ok all /\
    fst (Store.getStaleEmbeddings H codebaseId modelName (Some 0%nat) db)
    = Ok all /\
    (forall n, fst (Store.getStaleEmbeddings H codebaseId modelName
                      (Some (S n)) db) = Ok (firstn (S n) all)) /\
    (forall limit,
        Store.tables (snd (Store.getStaleEmbeddings H codebaseId modelName
                             limit db)) = Store.tables db) /\
    (forall key,
        In key (map Store.Stale.chunkKey all) <->
        exists r, In r (Store.t_chunks (Store.tables db)) /\
                  Store.chunks.chunk_key r = key /\
                  Store.chunks.codebase_id r = codebaseId /\
                  (Store.chunks.embedding r = None \/
                   Store.chunks.embedding_model r <> modelName)).
Proof.
  intros Hnf.
  eexists. split; [|split; [|split; [|split]]].
  - unfold Store.getStaleEmbeddings, bind, Store.query, ret.
    rewrite stmt_noFail by auto. cbn [fst snd]. reflexivity.
  - unfold Store.getStaleEmbeddings, bind, Store.query, ret.
    rewrite stmt_noFail by auto. cbn [fst snd]. reflexivity.
  - intros n. unfold Store.getStaleEmbeddings, bind, Store.query, ret.
    rewrite stmt_noFail by auto. cbn [fst snd].
    now rewrite firstn_map.
  - intros limit. unfold Store.getStaleEmbeddings, bind, Store.query, ret.
    rewrite stmt_noFail by auto. reflexivity.
  - intros key. rewrite map_map. cbn [Store.Stale.chunkKey].
    rewrite in_map_iff. split.
    + intros [r [<- Hr]]. apply filter_In in Hr. destruct Hr as [Hin Hs].
      unfold Store.isStale in Hs. apply andb_true_iff in Hs.
      destruct Hs as [Hc Hs]. apply Z.eqb_eq in Hc.
      exists r. repeat split; auto.
      destruct (Store.chunks.embedding r); [right|now left].
      simpl in Hs. apply negb_true_iff, String.eqb_neq in Hs. exact Hs.
    + intros [r [Hin [<- [Hc Hs]]]]. exists r. split; auto.
      apply filter_In. split; auto. unfold Store.isStale.
      apply andb_true_iff. split; [now apply Z.eqb_eq|].
      destruct Hs as [->|Hne]; [reflexivity|].
      apply String.eqb_neq in Hne. rewrite Hne.
      now destruct (Store.chunks.embedding r).
Qed.

Lemma getStaleEmbeddings_selects_witness :
  fst (Store.getStaleEmbeddings Fixture.host0 1 "model-B" (Some 0%nat)
         (Index.store Fixture.indexedA))
  = fst (Store.getStaleEmbeddings Fixture.host0 1 "model-B" None
           (Index.store Fixture.indexedA)).
Proof.
  destruct (getStaleEmbeddings_selects Fixture.host0 1 "model-B"
              (Index.store Fixture.indexedA)) as [all [R1 [R2 _]]].
  - intros n. reflexivity.
  - now rewrite R1, R2.
Defined.

Section Fts.
Variables (H : Host) (codebaseId : Z).

Lemma map_id_in {A} (f : A -> A) l :
  (forall x, In x l -> f x = x) -> map f l = l.
Proof.
  intros E. induction l as [|x l IH]; simpl; auto.
  rewrite E by now left. rewrite IH; auto. intros y Hy. apply E. now right.
Qed.

Lemma existsb_filter_false {A} (f : A -> bool) l :
  existsb f (filter (fun x => negb (f x)) l) = false.
Proof.
  induction l as [|x l IH]; simpl; auto.
  destruct (f x) eqn:E; simpl; auto. now rewrite E.
Qed.

End Fts.

(** X6. [rebuildFtsTable] replaces the text table of the codebase by an
    indexed table that holds exactly one row (id, name, signature) per
    chunk of the codebase at that time; the text tables of the other
    codebases, the chunks, the file records and the codebases are as
    before. *)
Theorem rebuildFtsTable_mirrors (H : Host) (codebaseId : Z) (db : Store.DB) :
  noFail H ->
  let run := Store.rebuildFtsTable H codebaseId db in
  let t := Store.tables db in
  fst run = Ok tt /\
  Store.t_fts (Store.tables (snd run)) =
    filter (fun e => negb (fst e =? codebaseId)%Z) (Store.t_fts t) ++
    [(codebaseId,
      Store.fts.mkTable
        (map (fun r => Store.fts.mk (Store.chunks.id r) (Store.chunks.name r)
                                    (Store.chunks.signature r))
             (filter (fun r => (Store.chunks.codebase_id r =? codebaseId)%Z)
                     (Store.t_chunks t)))
        true)] /\
  Store.t_chunks (Store.tables (snd run)) = Store.t_chunks t /\
  Store.t_indexed_files (Store.tables (snd run)) = Store.t_indexed_files t /\
  Store.t_codebases (Store.tables (snd run)) = Store.t_codebases t.
Proof.
  intros Hnf run t. subst run.
  unfold Store.rebuildFtsTable, bind, Store.exec.
  rewrite stmt_noFail by auto. cbn [fst snd Store.tables].
  rewrite stmt_noFail by auto. cbn [fst snd Store.tables].
  rewrite stmt_noFail by auto. cbn [fst snd Store.tables].
  rewrite stmt_noFail by auto. cbn [fst snd Store.tables].
  rewrite stmt_noFail by auto. cbn [fst snd Store.tables].
  fold t.
  assert (Hno : Store.hasFts codebaseId (Store.dropFts codebaseId t) = false).
  { unfold Store.hasFts, Store.dropFts. cbn [Store.t_fts Store.setFts].
    apply (existsb_filter_false (fun e : Z * Store.fts.table =>
                                   (fst e =? codebaseId)%Z)). }
  rewrite Hno.
  unfold Store.mapFts, Store.dropFts.
  cbn [Store.t_fts Store.setFts Store.t_chunks Store.t_indexed_files
       Store.t_codebases].
  split; [reflexivity|]. split; [|auto].
  rewrite !map_app, map_map. cbn [map fst snd].
  rewrite Z.eqb_refl. cbn [fst snd Store.fts.rows Store.fts.indexed app].
  rewrite Z.eqb_refl. cbn [fst snd Store.fts.rows Store.fts.indexed app].
  f_equal. apply map_id_in. intros e He. apply filter_In in He.
  destruct He as [_ Hne]. apply negb_true_iff in Hne.
  rewrite Hne. cbn. now rewrite Hne.
Qed.

Lemma rebuildFtsTable_mirrors_witness :
  fst (Store.rebuildFtsTable Fixture.host0 1 (Index.store Fixture.indexedA))
  = Ok tt.
Proof.
  apply (rebuildFtsTable_mirrors Fixture.host0 1 (Index.store Fixture.indexedA)).
  intros n. reflexivity.
Defined.

(** X7. [removeCodebaseChunks] runs its two deletions outside any
    transaction.  When both succeed the chunks and the file records of the
    codebase are gone; when the second fails the call throws, the chunks of
    the codebase are gone and its file records are still there. *)
Theorem removeCodebaseChunks_not_atomic (H : Host) (codebaseId : Z)
        (db : Store.DB) :
  let run := Store.removeCodebaseChunks H codebaseId db in
  let t := Store.tables db in
  let kept :=
    filter (fun r => negb (Store.chunks.codebase_id r =? codebaseId)%Z)
           (Store.t_chunks t) in
  (fails H (Store.executed db) = false ->
   fails H (S (Store.executed db)) = false ->
   fst run = Ok tt /\
   Store.t_chunks (Store.tables (snd run)) = kept /\
   Store.t_indexed_files (Store.tables (snd run)) =
     filter (fun r => negb (Store.indexed_files.codebase_id r =? codebaseId)%Z)
            (Store.t_indexed_files t)) /\
  (fails H (Store.executed db) = false ->
   fails H (S (Store.executed db)) = true ->
   (exists e, fst run = Throw e) /\
   Store.t_chunks (Store.tables (snd run)) = kept /\
   Store.t_indexed_files (Store.tables (snd run)) = Store.t_indexed_files t).
Proof.
  intros run t kept. subst run.
  unfold Store.removeCodebaseChunks, bind, Store.exec, Store.stmt.
  split; intros F1 F2; rewrite F1; cbn [fst snd Store.executed];
    rewrite F2; cbn; eauto.
Qed.

Lemma removeCodebaseChunks_not_atomic_witness :
  let db := Store.mkDB (Store.tables (Index.store Fixture.indexedA)) None 4
                       (Some 40960%Z) in
  let run := Store.removeCodebaseChunks failing 1 db in
  Store.t_chunks (Store.tables (snd run)) = [] /\
  List.length (Store.t_indexed_files (Store.tables (snd run))) = 1%nat.
Proof.
  intros db run.
  destruct (proj2 (removeCodebaseChunks_not_atomic failing 1 db))
    as [_ [C F]]; try reflexivity.
  fold run in C, F. rewrite C, F. split; reflexivity.
Defined.

(** ** The searches of the store *)

Section Yields.
Variable H : Host.

Lemma yields_query {A} (f : Store.Tables -> A) (P : Store.Tables -> A -> Prop) :
  (forall t, P t (f t)) -> yields (Store.query H f) P.
Proof.
  intros HP db. unfold Store.query, Store.stmt.
  destruct (fails H (Store.executed db)); simpl.
  - split; [reflexivity|discriminate].
  - split; [reflexivity|]. intros a E. inversion E. apply HP.
Qed.

Lemma yields_ret {A} (a : A) (P : Store.Tables -> A -> Prop) :
  (forall t, P t a) -> yields (ret a) P.
Proof.
  intros HP db. simpl. split; auto. intros b E. inversion E. subst.
  apply HP.
Qed.

Lemma yields_throw {A} e (P : Store.Tables -> A -> Prop) :
  yields (throw e) P.
Proof. intros db. simpl. split; [reflexivity|discriminate]. Qed.

Lemma yields_bind {A B} (m : M Store.DB A) (k : A -> M Store.DB B)
      (P : Store.Tables -> A -> Prop) (Q : Store.Tables -> B -> Prop) :
  yields m P -> (forall a, yields (k a) (fun t b => P t a -> Q t b)) ->
  yields (bind m k) Q.
Proof.
  intros Hm Hk db. unfold bind. destruct (Hm db) as [Ht Hp].
  destruct (m db) as [[a|e] db1]; simpl in *.
  - destruct (Hk a db1) as [Ht' Hq]. rewrite Ht in *. split; auto.
  - split; [auto|discriminate].
Qed.

Lemma yields_weaken {A} (m : M Store.DB A) (P Q : Store.Tables -> A -> Prop) :
  yields m P -> (forall t a, P t a -> Q t a) -> yields m Q.
Proof. intros Hm HPQ db. destruct (Hm db). split; auto. Qed.

Lemma yields_tryCatch {A} (m : M Store.DB A) h (P : Store.Tables -> A -> Prop) :
  yields m P -> (forall e, yields (h e) P) -> yields (tryCatch m h) P.
Proof.
  intros Hm Hh db. unfold tryCatch. destruct (Hm db) as [Ht Hp].
  destruct (m db) as [[a|e] db1]; simpl in *; auto.
  destruct (Hh e db1) as [Ht' Hq]. rewrite Ht in *. auto.
Qed.

Lemma yields_foldM {A B} (xs : list A) (body : B -> A -> M Store.DB B)
      (I : Store.Tables -> B -> Prop) :
  (forall acc x, yields (body acc x) (fun t b => I t acc -> I t b)) ->
  forall acc, yields (foldM xs acc body) (fun t b => I t acc -> I t b).
Proof.
  intros Hb. induction xs as [|x xs IH]; intros acc; simpl.
  - apply yields_ret. auto.
  - eapply yields_bind; [apply Hb|]. intros a.
    eapply yields_weaken; [apply IH|]. cbv beta. auto.
Qed.

(** ** Returning on an engine that never fails *)

Lemma returns_stmt {A} (f : Store.Tables -> A * Store.Tables) :
  returns H (Store.stmt H f).
Proof. intros Hnf db. rewrite stmt_noFail by auto. simpl. eauto. Qed.

Lemma returns_ret {S A} (a : A) : returns H (@ret S A a).
Proof. intros _ s. simpl. eauto. Qed.

Lemma returns_bind {S A B} (m : M S A) (k : A -> M S B) :
  returns H m -> (forall a, returns H (k a)) -> returns H (bind m k).
Proof.
  intros Hm Hk Hnf s. unfold bind. destruct (Hm Hnf s) as [a E].
  destruct (m s) as [r s1]. simpl in E. subst r. apply Hk. exact Hnf.
Qed.

Lemma returns_foldM {S A B} (xs : list A) (body : B -> A -> M S B) :
  (forall acc x, returns H (body acc x)) ->
  forall acc, returns H (foldM xs acc body).
Proof.
  intros Hb. induction xs as [|x xs IH]; intros acc; simpl.
  - apply returns_ret.
  - apply returns_bind; auto.
Qed.

Lemma returns_tryCatch {S A} (m : M S A) h :
  returns H m -> returns H (tryCatch m h).
Proof.
  intros Hm Hnf s. unfold tryCatch. destruct (Hm Hnf s) as [a E].
  destruct (m s) as [r s1]. simpl in E. subst r. simpl. eauto.
Qed.

End Yields.

Section VectorSearch.
Variable H : Host.

Lemma distanceLe_total a b :
  Store.distanceLe a b = false -> Store.distanceLe b a = true.
Proof.
  destruct a as [x|], b as [y|]; simpl; auto; try discriminate.
  intros E. apply Qle_bool_iff.
  destruct (Qlt_le_dec y x) as [L|L].
  - now apply Qlt_le_weak.
  - apply Qle_bool_iff in L. congruence.
Qed.

Lemma distanceLe_trans a b c :
  Store.distanceLe a b = true -> Store.distanceLe b c = true ->
  Store.distanceLe a c = true.
Proof.
  destruct a as [x|], b as [y|], c as [z|]; simpl; auto; try discriminate.
  rewrite !Qle_bool_iff. apply Qle_trans.
Qed.

Lemma StronglySorted_firstn {A} (R : A -> A -> Prop) n l :
  StronglySorted R l -> StronglySorted R (firstn n l).
Proof.
  revert n. induction l as [|x l IH]; intros n Hs; destruct n; simpl;
    try constructor.
  - apply IH. now apply StronglySorted_inv in Hs.
  - apply StronglySorted_inv in Hs. destruct Hs as [_ Hall].
    rewrite Forall_forall in *. intros y Hy. apply Hall.
    rewrite <- (firstn_skipn n l). apply in_or_app. now left.
Qed.

Lemma embedded_length q t :
  List.length
    (flat_map (fun r => match Store.chunks.embedding r with
                        | Some e => [(r, vector_distance_cos H e q)]
                        | None => []
                        end) (Store.t_chunks t)) =
  List.length (filter Store.hasEmbedding (Store.t_chunks t)).
Proof.
  induction (Store.t_chunks t) as [|r l IH]; simpl; auto.
  unfold Store.hasEmbedding at 1.
  destruct (Store.chunks.embedding r); simpl; now rewrite IH.
Qed.

Lemma embedded_in q t rd :
  In rd (flat_map (fun r => match Store.chunks.embedding r with
                            | Some e => [(r, vector_distance_cos H e q)]
                            | None => []
                            end) (Store.t_chunks t)) ->
  In (fst rd) (Store.t_chunks t) /\
  exists e, Store.chunks.embedding (fst rd) = Some e /\
            snd rd = vector_distance_cos H e q.
Proof.
  intros Hin. apply in_flat_map in Hin. destruct Hin as [r [Hr Hin]].
  destruct (Store.chunks.embedding r) as [e|] eqn:E; [|destruct Hin].
  destruct Hin as [<-|[]]. simpl. eauto.
Qed.

Lemma selectNearest_in q limit t rd :
  In rd (Store.selectNearest H q limit t) ->
  In (fst rd) (Store.t_chunks t) /\
  exists e, Store.chunks.embedding (fst rd) = Some e /\
            snd rd = vector_distance_cos H e q.
Proof.
  unfold Store.selectNearest. intros Hin.
  apply firstn_incl_In in Hin.
  apply (Permutation_in _ (sortBy_perm _ _)) in Hin.
  now apply embedded_in.
Qed.

End VectorSearch.

Section VectorSearchResult.
Variable H : Host.

Lemma vectorSearch_run q limit inc db :
  Store.tables (snd (Store.vectorSearch H (Some q) limit inc db)) =
  Store.tables db /\
  forall rs, fst (Store.vectorSearch H (Some q) limit inc db) = Ok rs ->
             rs = map (Store.vectorRow inc)
                      (Store.selectNearest H q limit (Store.tables db)).
Proof.
  assert (Y : yields (Store.vectorSearch H (Some q) limit inc)
                     (fun t rs => rs = map (Store.vectorRow inc)
                                           (Store.selectNearest H q limit t))).
  { unfold Store.vectorSearch.
    eapply yields_bind with (P := fun t rows =>
                                    rows = Store.selectNearest H q limit t).
    - apply yields_query. reflexivity.
    - intros rows. apply yields_ret. intros t ->. reflexivity. }
  apply Y.
Qed.

Lemma selectNearest_length q limit t :
  List.length (Store.selectNearest H q limit t) =
  Nat.min limit (List.length (filter Store.hasEmbedding (Store.t_chunks t))).
Proof.
  unfold Store.selectNearest. rewrite length_firstn.
  rewrite (Permutation_length (sortBy_perm _ _)).
  now rewrite embedded_length.
Qed.

Lemma selectNearest_sorted q limit t :
  StronglySorted (fun a b => Store.distanceLe (snd a) (snd b) = true)
                 (Store.selectNearest H q limit t).
Proof.
  unfold Store.selectNearest. apply StronglySorted_firstn.
  apply sortBy_sorted.
  - intros a b. apply distanceLe_total.
  - intros a b c. apply distanceLe_trans.
Qed.

Lemma vectorRow_sorted inc l :
  StronglySorted (fun a b => Store.distanceLe (snd a) (snd b) = true) l ->
  (forall rd, In rd l -> snd rd <> None) ->
  StronglySorted (fun a b => (score b <= score a)%Q)
                 (map (Store.vectorRow inc) l).
Proof.
  intros Hs. induction Hs as [|rd l Hs IH Hfa]; intros Hall; simpl;
    constructor.
  - apply IH. intros x Hx. apply Hall. now right.
  - rewrite Forall_forall in *. intros r Hr. apply in_map_iff in Hr.
    destruct Hr as [rd' [<- Hrd']]. simpl.
    pose proof (Hfa rd' Hrd') as Hle.
    pose proof (Hall rd (or_introl eq_refl)) as H1.
    pose proof (Hall rd' (or_intror Hrd')) as H2.
    destruct (snd rd) as [x|]; [|congruence].
    destruct (snd rd') as [y|]; [|congruence].
    simpl in *. apply Qle_bool_iff in Hle.
    unfold Double.sub. apply round_mono. lra.
Qed.

(** X8. [vectorSearch] reads only.  What it returns has as many rows as
    there are embedded chunks ([countEmbeddedChunks]), up to [limit]; every
    row shows an embedded chunk of the tables, with the score
    [1 - (distance ?? 1)] of its embedding, in binary64, and with an empty
    snippet unless snippets were asked for; when the engine gives every
    embedded chunk a distance, the rows are in descending order of
    score. *)
Theorem vectorSearch_nearest q limit inc db rs :
  fst (Store.vectorSearch H (Some q) limit inc db) = Ok rs ->
  Store.tables (snd (Store.vectorSearch H (Some q) limit inc db)) =
  Store.tables db /\
  (forall n, fst (Store.countEmbeddedChunks H db) = Ok n ->
             List.length rs = Nat.min limit (Z.to_nat n)) /\
  Forall (showsChunk inc (Store.tables db)) rs /\
  (forall r, In r rs ->
     exists row e, In row (Store.t_chunks (Store.tables db)) /\
                   Store.chunks.embedding row = Some e /\
                   Store.chunks.chunk_key row = chunkKey r /\
                   score r = Double.sub 1 (Store.orOne
                                             (vector_distance_cos H e q))) /\
  ((forall row e, In row (Store.t_chunks (Store.tables db)) ->
                  Store.chunks.embedding row = Some e ->
                  vector_distance_cos H e q <> None) ->
   StronglySorted (fun a b => (score b <= score a)%Q) rs).
Proof.
  intros E. destruct (vectorSearch_run q limit inc db) as [Ht Hrs].
  specialize (Hrs rs E). subst rs.
  split; [exact Ht|]. split; [|split; [|split]].
  - intros n En. unfold Store.countEmbeddedChunks, Store.query, Store.stmt in En.
    destruct (fails H (Store.executed db)); simpl in En; [discriminate|].
    inversion En. rewrite Nat2Z.id, length_map. apply selectNearest_length.
  - apply Forall_forall. intros r Hr. apply in_map_iff in Hr.
    destruct Hr as [rd [<- Hrd]].
    destruct (selectNearest_in H _ _ _ _ Hrd) as [Hin _].
    split.
    + exists (fst rd). simpl. auto.
    + intros ->. reflexivity.
  - intros r Hr. apply in_map_iff in Hr. destruct Hr as [rd [<- Hrd]].
    destruct (selectNearest_in H _ _ _ _ Hrd) as [Hin [e [He Hd]]].
    exists (fst rd), e. simpl. rewrite Hd. auto.
  - intros Hsome.
    pose proof (selectNearest_sorted q limit (Store.tables db)) as Hs.
    apply vectorRow_sorted; auto.
    intros rd Hrd. destruct (selectNearest_in H _ _ _ _ Hrd)
      as [Hin [e [He ->]]]. eapply Hsome; eauto.
Qed.

End VectorSearchResult.

Lemma vectorSearch_nearest_witness :
  exists a b,
    fst (Store.vectorSearch Fixture.host0 (Some [1%Q]) 5 false twoChunks)
    = Ok [a; b] /\
    chunkKey a = "/r/b.rs:1:3" /\ chunkKey b = "/r/a.rs:1:2" /\
    (score b <= score a)%Q.
Proof.
  destruct (fst (Store.vectorSearch Fixture.host0 (Some [1%Q]) 5 false
                                    twoChunks)) as [rs|e] eqn:E.
  - pose proof (vectorSearch_nearest Fixture.host0 [1%Q] 5 false twoChunks
                                     rs E) as [_ [_ [_ [_ Sorted]]]].
    assert (K : map chunkKey rs = ["/r/b.rs:1:3"; "/r/a.rs:1:2"]).
    { vm_compute in E. inversion E. reflexivity. }
    destruct rs as [|a [|b [|c rs]]]; try discriminate K.
    exists a, b. injection K as Ka Kb. repeat split; auto.
    assert (Hs : StronglySorted (fun a b => (score b <= score a)%Q) [a; b]).
    { apply Sorted. intros row e Hin He.
      assert (B : forallb
                    (fun row =>
                       match Store.chunks.embedding row with
                       | Some e =>
                           match Fixture.cos1 e [1%Q] with
                           | Some _ => true
                           | None => false
                           end
                       | None => true
                       end)
                    (Store.t_chunks (Store.tables twoChunks)) = true)
        by (vm_compute; reflexivity).
      rewrite forallb_forall in B. specialize (B row Hin).
      rewrite He in B. simpl. destruct (Fixture.cos1 e [1%Q]); discriminate. }
    apply StronglySorted_inv in Hs. destruct Hs as [_ Hall].
    now inversion Hall.
  - vm_compute in E. discriminate E.
Defined.

Section FtsSearch.
Variable H : Host.

Lemma scoreDesc_total (a b : SearchResult) :
  Qle_bool (score b) (score a) = false -> Qle_bool (score a) (score b) = true.
Proof.
  intros E. apply Qle_bool_iff.
  destruct (Qlt_le_dec (score a) (score b)) as [L|L].
  - now apply Qlt_le_weak.
  - apply Qle_bool_iff in L. congruence.
Qed.

Lemma scoreDesc_trans (a b c : SearchResult) :
  Qle_bool (score b) (score a) = true -> Qle_bool (score c) (score b) = true ->
  Qle_bool (score c) (score a) = true.
Proof. rewrite !Qle_bool_iff. intros. eapply Qle_trans; eauto. Qed.

Lemma StronglySorted_weaken {A} (R R' : A -> A -> Prop) l :
  (forall a b, R a b -> R' a b) -> StronglySorted R l -> StronglySorted R' l.
Proof.
  intros HR Hs. induction Hs as [|a l Hs IH Hfa]; constructor; [exact IH|].
  eapply Forall_impl; [|exact Hfa]. intros b. apply HR.
Qed.

Lemma ftsRow_shows inc t r s :
  In r (Store.t_chunks t) -> showsChunk inc t (Store.ftsRow inc r s).
Proof.
  intros Hin. split.
  - exists r. simpl. auto.
  - intros ->. reflexivity.
Qed.

Lemma ftsSearch_yields q limit inc :
  yields (Store.ftsSearch H q limit inc)
         (fun t rs =>
            (List.length rs <= limit)%nat /\
            StronglySorted (fun a b => (score b <= score a)%Q) rs /\
            Forall (showsChunk inc t) rs).
Proof.
  unfold Store.ftsSearch.
  eapply yields_bind with (P := fun _ _ => True).
  { apply yields_query. auto. }
  intros ids.
  eapply yields_bind with (P := fun t all => Forall (showsChunk inc t) all).
  - eapply yields_weaken.
    + apply yields_foldM with (I := fun t all => Forall (showsChunk inc t) all).
      intros acc id.
      eapply yields_bind with (P := fun _ _ => True).
      { apply yields_query. auto. }
      intros [tb|]; [|apply yields_ret; auto].
      apply yields_tryCatch.
      * eapply yields_bind with (P := fun _ _ => True).
        { unfold Store.selectMatches. destruct (Store.fts.indexed tb).
          - apply yields_query. auto.
          - apply yields_throw. }
        intros scores. eapply yields_weaken.
        { apply yields_foldM
            with (I := fun t all => Forall (showsChunk inc t) all).
          intros acc' cs.
          eapply yields_bind
            with (P := fun t row => forall r, row = Some r ->
                                              In r (Store.t_chunks t)).
          - apply yields_query. intros t r Hr.
            apply find_some in Hr. tauto.
          - intros [r|]; apply yields_ret; auto.
            intros t Hr Hacc. apply Forall_app. split; auto.
            constructor; [|constructor]. apply ftsRow_shows. auto. }
        cbv beta. auto.
      * intros e. destruct (_ && _); [apply yields_throw|].
        apply yields_ret. auto.
    + cbv beta. intros t a Ha. apply Ha. constructor.
  - intros all. apply yields_ret. intros t Hall.
    assert (Hp : Permutation
                   (JS.sortBy (fun a b => Qle_bool (score b) (score a)) all)
                   all) by apply sortBy_perm.
    split; [|split].
    + rewrite length_firstn. lia.
    + apply StronglySorted_firstn.
      eapply StronglySorted_weaken;
        [|apply sortBy_sorted; [intros a b; apply scoreDesc_total
                               |intros a b c; apply scoreDesc_trans]].
      cbv beta. intros a b. apply Qle_bool_iff.
    + apply Forall_forall. intros r Hr. apply firstn_incl_In in Hr.
      apply (Permutation_in _ Hp) in Hr.
      rewrite Forall_forall in Hall. auto.
Qed.

Lemma ftsSearch_returns q limit inc : returns H (Store.ftsSearch H q limit inc).
Proof.
  unfold Store.ftsSearch.
  apply returns_bind; [apply returns_stmt|]. intros ids.
  apply returns_bind; [|intros; apply returns_ret].
  apply returns_foldM. intros acc id.
  apply returns_bind; [apply returns_stmt|].
  intros [tb|]; [|apply returns_ret].
  unfold Store.selectMatches. destruct (Store.fts.indexed tb).
  - apply returns_tryCatch. apply returns_bind; [apply returns_stmt|].
    intros scores. apply returns_foldM. intros acc' cs.
    apply returns_bind; [apply returns_stmt|].
    intros [r|]; apply returns_ret.
  - intros _ s. simpl. eauto.
Qed.

(** X9. [ftsSearch] reads only.  What it returns has at most [limit]
    rows, in descending order of score, each showing a chunk of the tables,
    with an empty snippet unless snippets were asked for.  On an engine
    that does not fail it returns, also when a text table has no index
    yet: that error is swallowed. *)
Theorem ftsSearch_ranked q limit inc db :
  let run := Store.ftsSearch H q limit inc db in
  Store.tables (snd run) = Store.tables db /\
  (forall rs, fst run = Ok rs ->
     (List.length rs <= limit)%nat /\
     StronglySorted (fun a b => (score b <= score a)%Q) rs /\
     Forall (showsChunk inc (Store.tables db)) rs) /\
  (noFail H -> exists rs, fst run = Ok rs).
Proof.
  intros run. destruct (ftsSearch_yields q limit inc db) as [Ht Hp].
  split; [exact Ht|]. split; [exact Hp|].
  intros Hnf. now apply ftsSearch_returns.
Qed.

End FtsSearch.


Lemma ftsSearch_ranked_witness :
  exists r,
    fst (Store.ftsSearch Fixture.host0 "f" 1 false twoChunks) = Ok [r] /\
    snippet r = "".
Proof.
  destruct (ftsSearch_ranked Fixture.host0 "f" 1 false twoChunks)
    as [_ [P R]].
  destruct R as [rs E]; [intros n; reflexivity|].
  destruct (P rs E) as [L [_ F]].
  assert (L2 : List.length rs = 1%nat).
  { vm_compute in E. inversion E. reflexivity. }
  destruct rs as [|r [|r' rs]]; try discriminate L2.
  exists r. split; [exact E|].
  inversion F as [|? ? [_ Hs] _]. now apply Hs.
Defined.
